(** * planet_downloader: tile enumeration, fetch and batched mosaic merge

    A shallow embedding of [src/planet_downloader.py] (with the caller
    [src/batch_downloader.py]) and of the three library calls the program
    rests on: [mercantile.tiles] / [mercantile.bounds],
    [rasterio.transform.from_bounds] and [rasterio.merge.merge].

    Numbers.  Python floats are idealised as exact rationals ([Q]); the
    literals [1e-14], [1e-11], [85.051129] are the decimal fractions they
    denote.  The transcendental parts of the Web Mercator projection
    ([sin]/[log] forward, [atan]/[sinh] backward) are not computed: they
    are the fields [merc_y] and [lat_deg] of the environment, so every
    theorem holds for whatever function the float code evaluates.

    Effects.  Python code runs in the monad [Py]: a state (file store and
    standard output) threaded through calls that either return or raise.

    The batch script.  [src/batch_downloader.py] is embedded in [Months]
    (parsing, printing and enumerating months; strings are ASCII, [int]
    and [datetime] behave as Python defines them on such strings) and in
    [Batch] (the run itself, over a host that supplies the file system,
    the child process and the line typed at the prompt). *)

From Stdlib Require Import ZArith QArith Qround Qpower Qminmax Qabs Lia Lra Psatz.
From Stdlib Require Import List String Sorted Permutation Bool.
From stdpp Require Import base option list countable strings gmap.
Import ListNotations.

Local Open Scope Z_scope.

(** ** Exceptions and outcomes *)

(** The exception classes the program can meet.  All of them derive from
    Python's [Exception], which is what [except Exception] catches. *)
Inductive exn : Type :=
| HTTPError (status : Z)            (* response.raise_for_status() *)
| RequestException (why : string)   (* connection error, timeout, bad URL *)
| UnidentifiedImageError            (* PIL cannot decode the body *)
| ZeroDivisionError                 (* from_bounds on a 0-wide image *)
| RasterioIOError (why : string)    (* a raster cannot be opened / written *)
| IndexError                        (* merge([]) indexes datasets[0] *)
| ValueError (why : string).        (* range() with step 0 *)

Inductive Outcome (A : Type) : Type :=
| Ret (a : A)
| Raise (e : exn).
Arguments Ret {A} a.
Arguments Raise {A} e.

(** ** mercantile *)

Module Mercantile.

Record Tile : Type := mkTile { tx : Z; ty : Z; tz : Z }.

(** [range(a, b)]. *)
Definition py_range (a b : Z) : list Z :=
  map (fun k => a + Z.of_nat k) (seq 0 (Z.to_nat (b - a))).

Local Open Scope Q_scope.

(** [EPSILON = 1e-14], [LL_EPSILON = 1e-11]. *)
Definition EPSILON : Q := 1 # 100000000000000.
Definition LL_EPSILON : Q := 1 # 100000000000.

(** [int(v)] truncates towards zero. *)
Definition py_int (q : Q) : Z :=
  if Qle_bool 0 q then Qfloor q else Qceiling q.

(** [Z2 = math.pow(2, zoom)]. *)
Definition Z2 (zoom : Z) : Q := Qpower 2 zoom.

(** One axis of [mercantile.tile]:
<<
    if x <= 0:   xtile = 0
    elif x >= 1: xtile = int(Z2 - 1)
    else:        xtile = int(math.floor((x + EPSILON) * Z2))
>> *)
Definition tile_index (t : Q) (zoom : Z) : Z :=
  if Qle_bool t 0 then 0%Z
  else if Qle_bool 1 t then py_int (Z2 zoom - 1)
  else Qfloor ((t + EPSILON) * Z2 zoom).

Section Projection.

(** [merc_y lat] stands for the float expression
    [0.5 - 0.25 * math.log((1.0 + sinlat) / (1.0 - sinlat)) / math.pi]
    with [sinlat = math.sin(math.radians(lat))]. *)
Variable merc_y : Q -> Q.

(** [mercantile._xy]: [x = lng / 360.0 + 0.5]. *)
Definition _xy (lng lat : Q) : Q * Q := (lng / 360 + (1 # 2), merc_y lat).

(** [mercantile.tile(lng, lat, zoom)], for a zoom level [>= 0]: for a
    negative one the library raises [InvalidZoomError] when it builds
    the [Tile]. *)
Definition tile (lng lat : Q) (zoom : Z) : Tile :=
  let '(x, y) := _xy lng lat in
  mkTile (tile_index x zoom) (tile_index y zoom) zoom.

(** The bounding values after clamping:
    [w = max(-180.0, w)], [s = max(-85.051129, s)],
    [e = min(180.0, e)], [n = min(85.051129, n)]. *)
Definition clamp_w (w : Q) : Q := Qmax (-180) w.
Definition clamp_s (s : Q) : Q := Qmax (- (85051129 # 1000000)) s.
Definition clamp_e (e : Q) : Q := Qmin 180 e.
Definition clamp_n (n : Q) : Q := Qmin (85051129 # 1000000) n.

(** The double loop of [mercantile.tiles] for one box:
<<
  ul_tile = tile(w, n, z)
  lr_tile = tile(e - LL_EPSILON, s + LL_EPSILON, z)
  for i in range(ul_tile.x, lr_tile.x + 1):
      for j in range(ul_tile.y, lr_tile.y + 1):
          yield Tile(i, j, z)
>> *)
Definition tiles_between (ul lr : Tile) (zoom : Z) : list Tile :=
  flat_map (fun i => map (fun j => mkTile i j zoom)
                         (py_range (ty ul) (ty lr + 1)%Z))
           (py_range (tx ul) (tx lr + 1)%Z).

Definition tiles_of_bbox (b : Q * Q * Q * Q) (zoom : Z) : list Tile :=
  let '(w, s, e, n) := b in
  let w := clamp_w w in
  let s := clamp_s s in
  let e := clamp_e e in
  let n := clamp_n n in
  tiles_between (tile w n zoom)
                (tile (e - LL_EPSILON) (s + LL_EPSILON) zoom) zoom.

(** [mercantile.tiles(west, south, east, north, zooms)] for one zoom
    level [>= 0].  A box that crosses the antimeridian ([west > east])
    is split in two. *)
Definition tiles (west south east north : Q) (zoom : Z) : list Tile :=
  let bboxes :=
    if Qle_bool west east
    then [(west, south, east, north)]
    else [(-180, south, east, north); (west, south, 180, north)] in
  flat_map (fun b => tiles_of_bbox b zoom) bboxes.

End Projection.

Record LngLatBbox : Type :=
  mkBbox { west : Q; south : Q; east : Q; north : Q }.

Section Inverse.

(** [lat_deg u] stands for the float expression
    [math.degrees(math.atan(math.sinh(math.pi * u)))]. *)
Variable lat_deg : Q -> Q.

(** [mercantile.bounds(tile)]:
<<
  ul_lon_deg = xtile / Z2 * 360.0 - 180.0
  ul_lat_deg = degrees(atan(sinh(pi * (1 - 2 * ytile / Z2))))
  lr_lon_deg = (xtile + 1) / Z2 * 360.0 - 180.0
  lr_lat_deg = degrees(atan(sinh(pi * (1 - 2 * (ytile + 1) / Z2))))
  return LngLatBbox(ul_lon_deg, lr_lat_deg, lr_lon_deg, ul_lat_deg)
>> *)
Definition bounds (t : Tile) : LngLatBbox :=
  let z2 := Z2 (tz t) in
  mkBbox (inject_Z (tx t) / z2 * 360 - 180)
         (lat_deg (1 - 2 * (inject_Z (ty t) + 1) / z2))
         ((inject_Z (tx t) + 1) / z2 * 360 - 180)
         (lat_deg (1 - 2 * inject_Z (ty t) / z2)).

End Inverse.

(** The first-order expansion of the Mercator ordinate at the equator,
    [y = 1/2 - lat/360]; used where a concrete projection is needed to
    run the enumeration. *)
Definition merc_y_linear (lat : Q) : Q := (1 # 2) - lat / 360.

(** Orders on tiles: column first, then row; and row first, then column. *)
Definition col_major_lt (s t : Tile) : Prop :=
  (tx s < tx t)%Z \/ (tx s = tx t /\ (ty s < ty t)%Z).
Definition row_major_lt (s t : Tile) : Prop :=
  (ty s < ty t)%Z \/ (ty s = ty t /\ (tx s < tx t)%Z).




End Mercantile.

(** ** rasterio: affine transforms, rasters and [merge] *)

Module Rasterio.

Local Open Scope Q_scope.

(** [affine.Affine(a, b, c, d, e, f)]: pixel [(col, row)] goes to
    [(a*col + b*row + c, d*col + e*row + f)]. *)
Record Affine : Type :=
  mkAffine { af_a : Q; af_b : Q; af_c : Q; af_d : Q; af_e : Q; af_f : Q }.

Definition translation (xoff yoff : Q) : Affine := mkAffine 1 0 xoff 0 1 yoff.
Definition scale (sx sy : Q) : Affine := mkAffine sx 0 0 0 sy 0.

(** [Affine.__mul__]: composition of the two maps. *)
Definition affine_mul (m n : Affine) : Affine :=
  mkAffine (af_a m * af_a n + af_b m * af_d n)
           (af_a m * af_b n + af_b m * af_e n)
           (af_a m * af_c n + af_b m * af_f n + af_c m)
           (af_d m * af_a n + af_e m * af_d n)
           (af_d m * af_b n + af_e m * af_e n)
           (af_d m * af_c n + af_e m * af_f n + af_f m).

(** [transform * (col, row)]. *)
Definition affine_apply (m : Affine) (col row : Q) : Q * Q :=
  (af_a m * col + af_b m * row + af_c m,
   af_d m * col + af_e m * row + af_f m).

Definition affine_eq (m n : Affine) : Prop :=
  af_a m == af_a n /\ af_b m == af_b n /\ af_c m == af_c n /\
  af_d m == af_d n /\ af_e m == af_e n /\ af_f m == af_f n.

(** [rasterio.transform.from_bounds]:
<<
    return Affine.translation(west, north) * Affine.scale(
        (east - west) / width, (south - north) / height)
>>
    Python raises [ZeroDivisionError] on a zero [width] or [height]. *)
Definition from_bounds (west south east north : Q) (width height : Z)
  : Outcome Affine :=
  if ((width =? 0) || (height =? 0))%Z then Raise ZeroDivisionError
  else Ret (affine_mul (translation west north)
                       (scale ((east - west) / inject_Z width)
                              ((south - north) / inject_Z height))).

(** A numpy array of shape [(count, height, width)]. *)
Record ndarray : Type :=
  mkArray { nd_count : nat; nd_height : nat; nd_width : nat;
            nd_data : list (list (list Z)) }.

Definition get3 (data : list (list (list Z))) (b r c : nat) : Z :=
  nth c (nth r (nth b data []) []) 0%Z.

Definition tabulate3 (count height width : nat) (g : nat -> nat -> nat -> Z)
  : list (list (list Z)) :=
  map (fun b => map (fun r => map (fun c => g b r c) (seq 0 width))
                    (seq 0 height))
      (seq 0 count).

Definition mk_ndarray (count height width : nat) (g : nat -> nat -> nat -> Z)
  : ndarray :=
  mkArray count height width (tabulate3 count height width g).

(** An open raster dataset: the GeoTIFF header (transform, width, height)
    and its bands.  The files of this program carry no nodata value and
    no mask: every sample is valid. *)
Record Dataset : Type :=
  mkDataset { ds_transform : Affine; ds_width : Z; ds_height : Z;
              ds_bands : list (list (list Z)) }.

Definition ds_count (d : Dataset) : nat := length (ds_bands d).

(** [DatasetBase.bounds] for a transform without rotation:
    [BoundingBox(c, f + e * height, c + a * width, f)]. *)
Definition ds_left (d : Dataset) : Q := af_c (ds_transform d).
Definition ds_bottom (d : Dataset) : Q :=
  af_f (ds_transform d) + af_e (ds_transform d) * inject_Z (ds_height d).
Definition ds_right (d : Dataset) : Q :=
  af_c (ds_transform d) + af_a (ds_transform d) * inject_Z (ds_width d).
Definition ds_top (d : Dataset) : Q := af_f (ds_transform d).

(** [DatasetBase.res]: [(a, -e)]. *)
Definition ds_res (d : Dataset) : Q * Q :=
  (af_a (ds_transform d), - af_e (ds_transform d)).

(** [min(xs)] and [max(xs)] of a non-empty list. *)
Definition py_min (x : Q) (xs : list Q) : Q := fold_left Qmin xs x.
Definition py_max (x : Q) (xs : list Q) : Q := fold_left Qmax xs x.

(** [round(v)] of Python 3: to nearest, ties to even. *)
Definition py_round (q : Q) : Z :=
  let fl := Qfloor q in
  match Qcompare (q - inject_Z fl) (1 # 2) with
  | Lt => fl
  | Gt => (fl + 1)%Z
  | Eq => if Z.even fl then fl else (fl + 1)%Z
  end.

(** [Window.round_lengths]: [math.floor(x + 0.5)];
    [Window.round_offsets]: [math.floor(x + 0.1)], as rasterio 1.4
    aligns a window (earlier releases add 0.001 instead). *)
Definition round_length (q : Q) : Z := Qfloor (q + (1 # 2)).
Definition round_offset (q : Q) : Z := Qfloor (q + (1 # 10)).

(** The part of [merge]'s loop body that places one source on the
    output grid: the rounded destination window [(roff, coff, temp_height,
    temp_width)] of the source's bounds under [output_transform]. *)
Record Placement : Type :=
  mkPlacement { pl_roff : Z; pl_coff : Z; pl_height : Z; pl_width : Z }.

Definition place (dst_w dst_s dst_e dst_n : Q) (res : Q * Q) (src : Dataset)
  : Placement :=
  let int_w := if Qlt_le_dec dst_w (ds_left src) then ds_left src else dst_w in
  let int_s := if Qlt_le_dec dst_s (ds_bottom src) then ds_bottom src else dst_s in
  let int_e := if Qlt_le_dec (ds_right src) dst_e then ds_right src else dst_e in
  let int_n := if Qlt_le_dec (ds_top src) dst_n then ds_top src else dst_n in
  (* windows.from_bounds(int_w, int_s, int_e, int_n, output_transform) *)
  let col_start := (int_w - dst_w) / fst res in
  let col_stop := (int_e - dst_w) / fst res in
  let row_start := (int_n - dst_n) / (- snd res) in
  let row_stop := (int_s - dst_n) / (- snd res) in
  let width := Qmax (col_stop - col_start) 0 in
  let height := Qmax (row_stop - row_start) 0 in
  mkPlacement (Z.max 0 (round_offset row_start))
              (Z.max 0 (round_offset col_start))
              (round_length height) (round_length width).

(** [src.read(out_shape=(count, temp_height, temp_width))] of the whole
    source: when the shape differs from the source's the samples are
    taken by nearest neighbour, destination pixel [(i, j)] reading the
    source pixel under its centre; at equal shape this is the source
    itself. *)
Definition read_resampled (src : Dataset) (temp_height temp_width : Z)
           (b : nat) (i j : Z) : Z :=
  let r := Qfloor ((inject_Z i + (1 # 2)) * inject_Z (ds_height src)
                   / inject_Z temp_height) in
  let c := Qfloor ((inject_Z j + (1 # 2)) * inject_Z (ds_width src)
                   / inject_Z temp_width) in
  get3 (ds_bands src) b (Z.to_nat r) (Z.to_nat c).

(** Step 5 of the loop with [copy_first]: inside the region
    [dest[:, roff:roff+temp_height, coff:coff+temp_width]] a destination
    sample is replaced where it equals [nodataval] (0, since the inputs
    declare none) and the source sample is valid (always, see
    [Dataset]). *)
Definition paste (pl : Placement) (src : Dataset) (dest : ndarray) : ndarray :=
  mk_ndarray (nd_count dest) (nd_height dest) (nd_width dest)
    (fun b r c =>
       let old := get3 (nd_data dest) b r c in
       let i := (Z.of_nat r - pl_roff pl)%Z in
       let j := (Z.of_nat c - pl_coff pl)%Z in
       if ((0 <=? i) && (i <? pl_height pl) &&
           (0 <=? j) && (j <? pl_width pl) && (old =? 0))%Z
       then read_resampled src (pl_height pl) (pl_width pl) b i j
       else old).

(** [rasterio.merge.merge(datasets)] with its defaults
    ([bounds=None, res=None, nodata=None, method="first"]):
<<
    first = datasets[0]; res = first.res; nodataval = first.nodatavals[0]
    for src in datasets: xs.extend([left, right]); ys.extend([bottom, top])
    dst_w, dst_s, dst_e, dst_n = min(xs), min(ys), max(xs), max(ys)
    output_width = int(round((dst_e - dst_w) / res[0]))
    output_height = int(round((dst_n - dst_s) / res[1]))
    output_transform = Affine.translation(dst_w, dst_n) * Affine.scale(res[0], -res[1])
    dest = np.zeros((output_count, output_height, output_width), dtype=dt)
    if nodataval is not None: dest.fill(nodataval)  else: nodataval = 0
    for src in datasets: ... copyto(region, temp, region == nodataval, temp_mask)
    return dest, output_transform
>>
    The definition follows the library for north-up rasters with a
    positive pixel size, the only ones this program writes. *)
Definition merge (datasets : list Dataset) : Outcome (ndarray * Affine) :=
  match datasets with
  | [] => Raise IndexError
  | first :: _ =>
      let res := ds_res first in
      let xs := flat_map (fun d => [ds_left d; ds_right d]) datasets in
      let ys := flat_map (fun d => [ds_bottom d; ds_top d]) datasets in
      let dst_w := py_min (ds_left first) xs in
      let dst_s := py_min (ds_bottom first) ys in
      let dst_e := py_max (ds_left first) xs in
      let dst_n := py_max (ds_bottom first) ys in
      if Qeq_bool (fst res) 0 || Qeq_bool (snd res) 0
      then Raise ZeroDivisionError
      else
        let output_width := py_round ((dst_e - dst_w) / fst res) in
        let output_height := py_round ((dst_n - dst_s) / snd res) in
        let output_transform :=
          affine_mul (translation dst_w dst_n) (scale (fst res) (- snd res)) in
        let dest := mk_ndarray (ds_count first) (Z.to_nat output_height)
                               (Z.to_nat output_width) (fun _ _ _ => 0%Z) in
        Ret (fold_left
               (fun dest src => paste (place dst_w dst_s dst_e dst_n res src) src dest)
               datasets dest,
             output_transform)
  end.

End Rasterio.

(** ** The program *)

Module Planet.

Import Mercantile Rasterio.

(** *** Files and standard output *)

(** File names.  [TileFile z x y] is [os.path.join(tmpdir,
    f"{z}_{x}_{y}.tif")] in the run's own temporary directory;
    [OutputFile name] is a file outside it. *)
Inductive path : Type :=
| TileFile (z x y : Z)
| OutputFile (name : string).

#[global] Instance path_eq_dec : EqDecision path.
Proof. solve_decision. Defined.

#[global] Instance path_countable : Countable path.
Proof.
  refine (inj_countable'
            (fun p => match p with
                      | TileFile z x y => inl (z, x, y)
                      | OutputFile n => inr n
                      end)
            (fun s => match s with
                      | inl (z, x, y) => TileFile z x y
                      | inr n => OutputFile n
                      end) _).
  intros []; reflexivity.
Defined.

(** What the program prints, one constructor per [print] call. *)
Inductive Msg : Type :=
| TotalTiles (n : nat)
| FailedDownloading (t : Tile) (e : exn)
| NoImagesDownloaded
| MergingTiles
| ErrorOpening (p : path) (e : exn)
| MergingFinalBatches
| SavedOutput (p : path)
| ErrorDuringMergingOrSaving (e : exn).

Record St : Type := mkSt { fs : gmap path Dataset; stdout : list Msg }.

(** *** The monad of Python computations *)

Definition Py (A : Type) : Type := St -> Outcome A * St.

Definition ret {A} (a : A) : Py A := fun st => (Ret a, st).
Definition raise {A} (e : exn) : Py A := fun st => (Raise e, st).
Definition bind {A B} (m : Py A) (k : A -> Py B) : Py B :=
  fun st => match m st with
            | (Ret a, st') => k a st'
            | (Raise e, st') => (Raise e, st')
            end.
Definition lift {A} (o : Outcome A) : Py A := fun st => (o, st).

(** [try: body  except Exception as e: handler(e)]. *)
Definition try_except {A} (body : Py A) (handler : exn -> Py A) : Py A :=
  fun st => match body st with
            | (Ret a, st') => (Ret a, st')
            | (Raise e, st') => handler e st'
            end.

Definition print (m : Msg) : Py unit :=
  fun st => (Ret tt, mkSt (fs st) (stdout st ++ [m])).

Notation "'let*' x ':=' m 'in' k" := (bind m (fun x => k))
  (at level 10, x name, m at level 100, k at level 200).

(** *** The environment *)

Record response : Type := mkResponse { status_code : Z; content : list Z }.

(** A decoded image after [.convert("RGB")]. *)
Record image : Type :=
  mkImage { img_width : Z; img_height : Z;
            img_r : list (list Z); img_g : list (list Z);
            img_b : list (list Z) }.

(** Everything outside the program: the projection's float functions,
    the tile server, the image decoder, the disk, and the order in which
    the worker pool hands back results. *)
Record World : Type :=
  mkWorld {
      merc_y : Q -> Q;
      lat_deg : Q -> Q;
      (* session.get(tms_url.format(z=.., x=.., y=..), timeout=20) *)
      session_get : string -> Tile -> Outcome response;
      (* Image.open(BytesIO(content)).convert("RGB") *)
      image_open : list Z -> Outcome image;
      (* a write to this file fails with this exception *)
      write_fault : path -> option exn;
      (* the same for batch_{i}.tif in merge_in_batches' scratch directory *)
      scratch_fault : Z -> option exn;
      (* concurrent.futures.as_completed *)
      as_completed : list (option path) -> list (option path)
    }.

(** [response.raise_for_status()]: raises for 4xx and 5xx. *)
Definition raise_for_status (r : response) : Outcome unit :=
  if (400 <=? status_code r) && (status_code r <? 600)
  then Raise (HTTPError (status_code r)) else Ret tt.

(** [with rasterio.open(p, "w", ...) as dst: dst.write(...)]. *)
Definition rasterio_write (w : World) (p : path) (d : Dataset) : Py unit :=
  fun st => match write_fault w p with
            | Some e => (Raise e, st)
            | None => (Ret tt, mkSt (<[p := d]> (fs st)) (stdout st))
            end.

(** [rasterio.open(p)]. *)
Definition rasterio_open (p : path) : Py Dataset :=
  fun st => match fs st !! p with
            | Some d => (Ret d, st)
            | None => (Raise (RasterioIOError "No such file or directory"), st)
            end.

(** *** download_and_save_tile *)

Definition download_and_save_tile (w : World) (tile : Tile) (tms_url : string)
  : Py (option path) :=
  try_except
    (let* response := lift (session_get w tms_url tile) in
     let* _ := lift (raise_for_status response) in
     let* img := lift (image_open w (content response)) in
     let tile_bounds := bounds (lat_deg w) tile in
     let* transform := lift (from_bounds (west tile_bounds) (south tile_bounds)
                                    (east tile_bounds) (north tile_bounds)
                                    (img_width img) (img_height img)) in
     let dst_path := TileFile (tz tile) (tx tile) (ty tile) in
     let* _ := rasterio_write w dst_path
                 (mkDataset transform (img_width img) (img_height img)
                            [img_r img; img_g img; img_b img]) in
     ret (Some dst_path))
    (fun e => let* _ := print (FailedDownloading tile e) in ret None).

(** *** merge_in_batches *)

(** [range(0, stop, step)]. *)
Definition range_step (stop step : Z) : Outcome (list Z) :=
  if step =? 0 then Raise (ValueError "range() arg 3 must not be zero")
  else if step <? 0 then Ret []
  else Ret (map (fun k => Z.of_nat k * step)
                (seq 0 (Z.to_nat ((stop + step - 1) / step)))).

(** [paths[i:i + batch_size]] for [0 <= i] and [0 < batch_size]. *)
Definition slice {A} (l : list A) (i n : Z) : list A :=
  firstn (Z.to_nat n) (skipn (Z.to_nat i) l).

(** The inner loop: open what can be opened, report the rest. *)
Fixpoint open_batch (batch : list path) : Py (list Dataset) :=
  match batch with
  | [] => ret []
  | p :: rest =>
      let* d := try_except (let* x := rasterio_open p in ret [x])
                      (fun e => let* _ := print (ErrorOpening p e) in ret []) in
      let* ds := open_batch rest in
      ret (d ++ ds)
  end.

(** The header written for a mosaic: [height=mosaic.shape[1],
    width=mosaic.shape[2], count=3, transform=transform];
    [dst.write(mosaic)] raises unless the array has 3 bands. *)
Definition gtiff_of (mosaic : ndarray) (transform : Affine) : Outcome Dataset :=
  if Nat.eqb (nd_count mosaic) 3
  then Ret (mkDataset transform (Z.of_nat (nd_width mosaic))
                      (Z.of_nat (nd_height mosaic)) (nd_data mosaic))
  else Raise (ValueError "Source shape is inconsistent with given indexes").

(** The scratch directory [tmpmerge] is fresh and private to one call:
    it is a local map from [i] (for [batch_{i}.tif]) to the raster
    written there, dropped when the call returns. *)
Definition Scratch : Type := list Z * gmap Z Dataset.

Definition batch_step (w : World) (paths : list path) (batch_size : Z)
           (acc : Scratch) (i : Z) : Py Scratch :=
  let batch := slice paths i batch_size in
  let* datasets := open_batch batch in
  match datasets with
  | [] => ret acc                                   (* continue *)
  | _ :: _ =>
      let* mt := lift (merge datasets) in
      let* d := lift (gtiff_of (fst mt) (snd mt)) in
      match scratch_fault w i with
      | Some e => raise e
      | None => ret (fst acc ++ [i], <[i := d]> (snd acc))
      end
  end.

Fixpoint batch_loop (w : World) (paths : list path) (batch_size : Z)
         (acc : Scratch) (starts : list Z) : Py Scratch :=
  match starts with
  | [] => ret acc
  | i :: rest =>
      let* acc' := batch_step w paths batch_size acc i in
      batch_loop w paths batch_size acc' rest
  end.

(** [[rasterio.open(p) for p in temp_outputs]]. *)
Fixpoint open_all (scratch : gmap Z Dataset) (temp_outputs : list Z)
  : Outcome (list Dataset) :=
  match temp_outputs with
  | [] => Ret []
  | i :: rest =>
      match scratch !! i with
      | None => Raise (RasterioIOError "No such file or directory")
      | Some d =>
          match open_all scratch rest with
          | Ret ds => Ret (d :: ds)
          | Raise e => Raise e
          end
      end
  end.

Definition merge_in_batches (w : World) (paths : list path) (batch_size : Z)
  : Py (ndarray * Affine) :=
  let* starts := lift (range_step (Z.of_nat (length paths)) batch_size) in
  let* acc := batch_loop w paths batch_size ([], ∅) starts in
  let* _ := print MergingFinalBatches in
  let* final_datasets := lift (open_all (snd acc) (fst acc)) in
  lift (merge final_datasets).

(** *** main *)

(** [main] from the point where the AOI has been read and the save
    directory made: [Args] carries [gdf.total_bounds].  It stands for
    the runs in which [mercantile.tiles] returns, that is for a zoom
    level [>= 0]; with a negative one the program ends at that call
    with [InvalidZoomError], before anything is printed or written. *)

Record Args : Type :=
  mkArgs { aoi_name : string;        (* basename of --aoi without extension *)
           total_bounds : Q * Q * Q * Q;  (* gdf.total_bounds of the AOI *)
           month : string; save_dir : string; zoom : Z; api_key : string }.

Definition OUTPUT_GEOTIFF (args : Args) : path :=
  OutputFile (save_dir args +:+ "/" +:+ aoi_name args +:+ "_" +:+ month args
              +:+ ".tif").

Definition TMS_URL (args : Args) : string :=
  "https://tiles.planet.com/basemaps/v1/planet-tiles/global_monthly_"
  +:+ month args +:+ "_mosaic/gmap/{z}/{x}/{y}.png?api_key=" +:+ api_key args.

(** The worker pool: every tile is submitted; the calls are modelled in
    submission order (they write distinct files).  The pool runs them in
    an order of its own, so the "Failed downloading" lines can come in
    any order. *)
Fixpoint submit_all (w : World) (tiles : list Tile) (tms_url : string)
  : Py (list (option path)) :=
  match tiles with
  | [] => ret []
  | t :: rest =>
      let* r := download_and_save_tile w t tms_url in
      let* rs := submit_all w rest tms_url in
      ret (r :: rs)
  end.

(** [for future in as_completed(futures): if result: paths.append(result)]. *)
Definition collect_paths (w : World) (results : list (option path)) : list path :=
  omap id (as_completed w results).

(** Leaving [with TemporaryDirectory() as tmpdir] removes the tiles. *)
Definition is_tile_file (p : path) : bool :=
  match p with TileFile _ _ _ => true | OutputFile _ => false end.

Definition cleanup_tmpdir : Py unit :=
  fun st => (Ret tt,
             mkSt (filter (fun kv : path * Dataset =>
                             is_tile_file (fst kv) = false) (fs st))
                  (stdout st)).

Definition with_tmpdir {A} (body : Py A) : Py A :=
  fun st => match body st with
            | (r, st') => (r, snd (cleanup_tmpdir st'))
            end.

Definition main (w : World) (args : Args) : Py unit :=
  let '(b0, b1, b2, b3) := total_bounds args in
  let tiles := tiles (merc_y w) b0 b1 b2 b3 (zoom args) in
  let* _ := print (TotalTiles (length tiles)) in
  with_tmpdir
    (let* results := submit_all w tiles (TMS_URL args) in
     let paths := collect_paths w results in
     match paths with
     | [] => print NoImagesDownloaded
     | _ :: _ =>
         let* _ := print MergingTiles in
         try_except
           (let* mt := merge_in_batches w paths 500 in
            let* d := lift (gtiff_of (fst mt) (snd mt)) in
            let* _ := rasterio_write w (OUTPUT_GEOTIFF args) d in
            print (SavedOutput (OUTPUT_GEOTIFF args)))
           (fun e => print (ErrorDuringMergingOrSaving e))
     end).

(** *** batch_downloader.run_downloader *)

(** [subprocess.run(cmd, check=True)] succeeds when the child exits with
    status 0, that is when [main] returns without an uncaught exception;
    [run_downloader] then returns [(True, None)], otherwise
    [(False, error_msg)]. *)
Definition run_downloader (w : World) (args : Args) (st : St) : bool * St :=
  match main w args st with
  | (Ret _, st') => (true, st')
  | (Raise _, st') => (false, st')
  end.

End Planet.

(** ** Notions used to state the properties *)

Module Notions.

Import Mercantile Rasterio Planet.

(** Equality of two points of the plane. *)
Definition pt_eq (p q : Q * Q) : Prop := fst p == fst q /\ snd p == snd q.

(** The outcome of one fetch as a function of the environment alone:
    the file it writes, or the exception its [try] block stops on. *)
Definition fetch_outcome (w : World) (tile : Tile) (tms_url : string)
  : Outcome (path * Dataset) :=
  match session_get w tms_url tile with
  | Raise e => Raise e
  | Ret response =>
  match raise_for_status response with
  | Raise e => Raise e
  | Ret _ =>
  match image_open w (content response) with
  | Raise e => Raise e
  | Ret img =>
  let b := bounds (lat_deg w) tile in
  match from_bounds (west b) (south b) (east b) (north b)
                    (img_width img) (img_height img) with
  | Raise e => Raise e
  | Ret transform =>
  let dst_path := TileFile (tz tile) (tx tile) (ty tile) in
  match write_fault w dst_path with
  | Some e => Raise e
  | None => Ret (dst_path,
                 mkDataset transform (img_width img) (img_height img)
                           [img_r img; img_g img; img_b img])
  end end end end end.

Definition fetched (w : World) (tms_url : string) (tile : Tile) : option path :=
  match fetch_outcome w tile tms_url with
  | Ret pd => Some (fst pd)
  | Raise _ => None
  end.


End Notions.

(** ** Concrete environments *)

Module Demo.

Import Mercantile Rasterio Planet.

Definition img_of (v : Z) : image :=
  mkImage 2 2 [[v; v]; [v; 0]] [[v; v]; [v; v]] [[0; 0]; [0; 0]].

(** A server that has every tile but (1,1), 2x2 images, a reliable
    disk, results handed back in reverse order. *)
Definition world : World :=
  mkWorld merc_y_linear (fun u => 180 * u)%Q
    (fun _ t => if (tx t =? 1) && (ty t =? 1)
                then Ret (mkResponse 404 [])
                else Ret (mkResponse 200 [10 + 2 * tx t + ty t]))
    (fun c => match c with
              | [v] => Ret (img_of v)
              | _ => Raise UnidentifiedImageError
              end)
    (fun _ => None) (fun _ => None) (fun l => rev l).


Definition args : Args :=
  mkArgs "aoi" (-1, -1, 1, 1)%Q "2020_01" "./data" 1 "KEY".

Definition st0 : St := mkSt ∅ [].

(** Rasters of one pixel size on a common grid (unit pixels, origin
    (0,0)): [raster i j w h v] is [w] by [h] pixels with its upper-left
    corner [i] columns east and [j] rows south of the origin, every
    sample [v] in bands 1 and 2 and 0 in band 3. *)
Definition unit_transform (i j : Z) : Affine :=
  mkAffine 1 0 (inject_Z i) 0 (-1) (- inject_Z j)%Q.

Definition raster (i j : Z) (w h : nat) (v : Z) : Dataset :=
  mkDataset (unit_transform i j) (Z.of_nat w) (Z.of_nat h)
            (tabulate3 3 h w (fun b _ _ => if Nat.eqb b 2 then 0 else v)).

(** Two rasters over the same single pixel: the first is black in its
    first band. *)
Definition tile_a : Dataset :=
  mkDataset (unit_transform 0 0) 1 1 [[[0]]; [[5]]; [[7]]].
Definition tile_b : Dataset :=
  mkDataset (unit_transform 0 0) 1 1 [[[9]]; [[9]]; [[9]]].

(** Four overlapping tiles A, B, C, D stored in the temporary
    directory. *)
Definition four_paths : list path :=
  [TileFile 1 0 0; TileFile 1 1 0; TileFile 1 0 1; TileFile 1 1 1].

Definition four_tiles : St :=
  mkSt (<[TileFile 1 0 0 := raster 0 0 2 2 1]>
        (<[TileFile 1 1 0 := raster 1 0 2 2 2]>
         (<[TileFile 1 0 1 := raster 0 1 2 2 3]>
          (<[TileFile 1 1 1 := raster 1 1 2 2 4]> ∅)))) [].

End Demo.

(** ** Notions for the pipeline *)

Module PipelineNotions.

Import Mercantile Rasterio Planet Notions.

(** The lines printed for the tiles whose fetch fails, in submission
    order, and the tile files written for the others. *)
Definition failure_log (w : World) (url : string) (ts : list Tile) : list Msg :=
  flat_map (fun t => match fetch_outcome w t url with
                     | Raise e => [FailedDownloading t e]
                     | Ret _ => []
                     end) ts.

Definition stored_tiles (w : World) (url : string) (ts : list Tile)
           (files : gmap path Dataset) : gmap path Dataset :=
  fold_left (fun m t => match fetch_outcome w t url with
                        | Ret pd => <[fst pd := snd pd]> m
                        | Raise _ => m
                        end) ts files.

(** The rasters among [paths] that can be opened, in order. *)
Definition opened (files : gmap path Dataset) (paths : list path) : list Dataset :=
  omap (fun p => files !! p) paths.

Definition open_log (files : gmap path Dataset) (paths : list path) : list Msg :=
  flat_map (fun p => match files !! p with
                     | None => [ErrorOpening p
                                  (RasterioIOError "No such file or directory")]
                     | Some _ => []
                     end) paths.

(** The state after leaving the temporary directory, and after a
    [print]. *)
Definition cleanup (st : St) : St := snd (cleanup_tmpdir st).
Definition say (st : St) (m : Msg) : St := mkSt (fs st) (stdout st ++ [m]).

End PipelineNotions.

(** ** Notions for the merge *)

Module MergeNotions.

Import Rasterio.

(** The sample a placed source offers to the output pixel [(r, c)] in
    band [b]: [None] when the pixel is outside the source's region. *)
Definition region_sample (pl : Placement) (src : Dataset) (b r c : nat)
  : option Z :=
  let i := (Z.of_nat r - pl_roff pl)%Z in
  let j := (Z.of_nat c - pl_coff pl)%Z in
  if ((0 <=? i) && (i <? pl_height pl) && (0 <=? j) && (j <? pl_width pl))%Z
  then Some (read_resampled src (pl_height pl) (pl_width pl) b i j)
  else None.

(** A source leaves the pixel empty when it does not cover it or its
    sample there is 0. *)
Definition leaves_empty (ps : Placement * Dataset) (b r c : nat) : Prop :=
  region_sample (fst ps) (snd ps) b r c = None \/
  region_sample (fst ps) (snd ps) b r c = Some 0%Z.

(** The sources of a [merge] call with the windows it computes for
    them. *)
Definition merge_placements (datasets : list Dataset)
  : list (Placement * Dataset) :=
  match datasets with
  | [] => []
  | first :: _ =>
      let res := ds_res first in
      let xs := flat_map (fun d => [ds_left d; ds_right d]) datasets in
      let ys := flat_map (fun d => [ds_bottom d; ds_top d]) datasets in
      let dst_w := py_min (ds_left first) xs in
      let dst_s := py_min (ds_bottom first) ys in
      let dst_e := py_max (ds_left first) xs in
      let dst_n := py_max (ds_bottom first) ys in
      map (fun src => (place dst_w dst_s dst_e dst_n res src, src)) datasets
  end.

(** The sample found by scanning the placed sources in order for the
    first non-zero one. *)
Fixpoint first_wins (placed : list (Placement * Dataset)) (b r c : nat) : Z :=
  match placed with
  | [] => 0%Z
  | ps :: rest =>
      match region_sample (fst ps) (snd ps) b r c with
      | Some v => if (v =? 0)%Z then first_wins rest b r c else v
      | None => first_wins rest b r c
      end
  end.

(** The loop of [merge] over placed sources. *)
Definition paste_all (placed : list (Placement * Dataset)) (dest : ndarray)
  : ndarray :=
  fold_left (fun dest ps => paste (fst ps) (snd ps) dest) placed dest.

(** A pixel grid: origin and (positive) pixel size.  A raster is on the
    grid at [(i, j)] when it is north-up, has the grid's pixel size, and
    its upper-left corner is the grid point [i] columns east and [j]
    rows south of the origin. *)
Record Grid : Type := mkGrid { g_ox : Q; g_oy : Q; g_rx : Q; g_ry : Q }.

Definition on_grid (G : Grid) (d : Dataset) (i j : Z) : Prop :=
  (af_a (ds_transform d) == g_rx G /\
   af_e (ds_transform d) == - g_ry G /\
   af_c (ds_transform d) == g_ox G + g_rx G * inject_Z i /\
   af_f (ds_transform d) == g_oy G - g_ry G * inject_Z j)%Q.

(** A raster at a grid position, and the sample it has at the grid
    point [(J, I)] (row, column), 0 outside it. *)
Record Cell : Type := mkCell { c_i : Z; c_j : Z; c_src : Dataset }.

Definition cell_sample (k : Cell) (b : nat) (J I : Z) : Z :=
  let r := (J - c_j k)%Z in
  let c := (I - c_i k)%Z in
  if ((0 <=? r) && (r <? ds_height (c_src k)) &&
      (0 <=? c) && (c <? ds_width (c_src k)))%Z
  then get3 (ds_bands (c_src k)) b (Z.to_nat r) (Z.to_nat c)
  else 0%Z.

Fixpoint first_nonzero (cells : list Cell) (b : nat) (J I : Z) : Z :=
  match cells with
  | [] => 0%Z
  | k :: rest =>
      let v := cell_sample k b J I in
      if (v =? 0)%Z then first_nonzero rest b J I else v
  end.

(** The coordinate [q] is the grid line [k] of the lattice with origin
    [s] and step [t]. *)
Definition onto (s t : Q) (q : Q) (k : Z) : Prop := (q == s + t * inject_Z k)%Q.

(** The window of a cell in a mosaic whose upper-left corner is the
    grid point [(I0, J0)]. *)
Definition grid_placement (I0 J0 : Z) (k : Cell) : Placement :=
  mkPlacement (c_j k - J0) (c_i k - I0)
              (Z.max (ds_height (c_src k)) 0) (Z.max (ds_width (c_src k)) 0).

(** An array whose nested lists have exactly its shape. *)
Definition tabulated (a : ndarray) : Prop :=
  nd_data a = tabulate3 (nd_count a) (nd_height a) (nd_width a)
                        (get3 (nd_data a)).

(** The rasters [ds] sit on the grid [G] at the positions of [cells]. *)
Definition cells_of (G : Grid) (ds : list Dataset) (cells : list Cell) : Prop :=
  Forall2 (fun d k => c_src k = d /\ on_grid G d (c_i k) (c_j k)) ds cells.

(** The grid columns and rows of the cells' edges, in the order in which
    [merge] collects [xs] and [ys]; and the bounding box they span:
    first column, first row, end column, end row. *)
Definition edge_cols (cells : list Cell) : list Z :=
  flat_map (fun k => [c_i k; c_i k + ds_width (c_src k)]%Z) cells.
Definition edge_rows (cells : list Cell) : list Z :=
  flat_map (fun k => [c_j k + ds_height (c_src k); c_j k]%Z) cells.

Definition col_lo (cells : list Cell) : Z :=
  match cells with
  | [] => 0%Z
  | k :: _ => fold_left Z.min (edge_cols cells) (c_i k)
  end.
Definition col_hi (cells : list Cell) : Z :=
  match cells with
  | [] => 0%Z
  | k :: _ => fold_left Z.max (edge_cols cells) (c_i k)
  end.
Definition row_lo (cells : list Cell) : Z :=
  match cells with
  | [] => 0%Z
  | k :: _ => fold_left Z.min (edge_rows cells) (c_j k + ds_height (c_src k))%Z
  end.
Definition row_hi (cells : list Cell) : Z :=
  match cells with
  | [] => 0%Z
  | k :: _ => fold_left Z.max (edge_rows cells) (c_j k + ds_height (c_src k))%Z
  end.

(** The mosaic of cells on a grid: over their bounding box, the first
    non-zero sample at each grid point. *)
Definition grid_mosaic (count : nat) (cells : list Cell) : ndarray :=
  mk_ndarray count (Z.to_nat (row_hi cells - row_lo cells))
             (Z.to_nat (col_hi cells - col_lo cells))
             (fun b r c => first_nonzero cells b (row_lo cells + Z.of_nat r)
                                         (col_lo cells + Z.of_nat c)).

(** The raster [merge_in_batches] writes for a batch whose cells are
    [L]: the batch's grid mosaic under the transform [t]; and the cell it
    occupies in the second-level merge. *)
Definition batch_dataset (tL : Affine * list Cell) : Dataset :=
  mkDataset (fst tL)
            (Z.of_nat (Z.to_nat (col_hi (snd tL) - col_lo (snd tL))))
            (Z.of_nat (Z.to_nat (row_hi (snd tL) - row_lo (snd tL))))
            (nd_data (grid_mosaic 3 (snd tL))).

Definition batch_cell (tL : Affine * list Cell) : Cell :=
  mkCell (col_lo (snd tL)) (row_lo (snd tL)) (batch_dataset tL).

(** A batch is well placed: it is not empty and its raster is on the
    grid, unrotated, at the corner of its bounding box. *)
Definition good_batch (G : Grid) (tL : Affine * list Cell) : Prop :=
  snd tL <> [] /\
  on_grid G (batch_dataset tL) (col_lo (snd tL)) (row_lo (snd tL)) /\
  (af_b (fst tL) == 0)%Q /\ (af_d (fst tL) == 0)%Q.

(** Two merge results are the same mosaic: the same exception, or equal
    arrays with equal transforms. *)
Definition same_mosaic (r1 r2 : Outcome (ndarray * Affine)) : Prop :=
  match r1, r2 with
  | Ret (m1, t1), Ret (m2, t2) => m1 = m2 /\ affine_eq t1 t2
  | Raise e1, Raise e2 => e1 = e2
  | _, _ => False
  end.

End MergeNotions.

(** ** batch_downloader: months *)

Module Months.

Import Strings.Ascii.
Local Open Scope Z_scope.

(** Strings are sequences of ASCII characters. *)

(** [str.split(sep)] for a one-character separator. *)
Fixpoint split_on (sep : ascii) (s : list ascii) : list (list ascii) :=
  match s with
  | [] => [[]]
  | c :: rest =>
      if Ascii.eqb c sep then [] :: split_on sep rest
      else match split_on sep rest with
           | [] => [[c]]
           | part :: parts => (c :: part) :: parts
           end
  end.

(** The whitespace [int()] skips around the digits of an ASCII string:
    tab to carriage return, and the space. *)
Definition is_space (c : ascii) : bool :=
  let n := Z.of_nat (nat_of_ascii c) in
  ((9 <=? n) && (n <=? 13)) || (n =? 32).

Fixpoint lstrip (s : list ascii) : list ascii :=
  match s with
  | [] => []
  | c :: rest => if is_space c then lstrip rest else s
  end.

Definition strip (s : list ascii) : list ascii :=
  rev (lstrip (rev (lstrip s))).

Definition digit_of (c : ascii) : option Z :=
  let n := Z.of_nat (nat_of_ascii c) in
  if (48 <=? n) && (n <=? 57) then Some (n - 48) else None.

(** The digits of an integer literal: decimal digits, a single
    underscore allowed between two digits. *)
Fixpoint parse_digits (acc : Z) (after_digit : bool) (s : list ascii)
  : option Z :=
  match s with
  | [] => if after_digit then Some acc else None
  | c :: rest =>
      match digit_of c with
      | Some d => parse_digits (10 * acc + d) true rest
      | None =>
          if Ascii.eqb c "_" && after_digit
          then parse_digits acc false rest
          else None
      end
  end.

(** [int(s)]. *)
Definition py_int_of_string (s : list ascii) : Outcome Z :=
  let body := strip s in
  let signed :=
    match body with
    | c :: rest =>
        if Ascii.eqb c "-" then (true, rest)
        else if Ascii.eqb c "+" then (false, rest)
        else (false, body)
    | [] => (false, [])
    end in
  match parse_digits 0 false (snd signed) with
  | Some v => Ret (if fst signed then - v else v)
  | None => Raise (ValueError "invalid literal for int() with base 10")
  end.

(** A [datetime] on the first day of a month at midnight, the only ones
    this program builds. *)
Record datetime : Type := mkDate { dt_year : Z; dt_month : Z }.

(** [datetime(year, month, 1)]: [MINYEAR = 1], [MAXYEAR = 9999]. *)
Definition make_datetime (year month : Z) : Outcome datetime :=
  if (1 <=? year) && (year <=? 9999)
  then if (1 <=? month) && (month <=? 12)
       then Ret (mkDate year month)
       else Raise (ValueError "month must be in 1..12")
  else Raise (ValueError "year is out of range").

Definition invalid_month_format (month_str : string) : exn :=
  ValueError ("Invalid month format: " +:+ month_str
              +:+ ". Expected format: YYYY_MM (e.g., 2020_01)").

(** [parse_month]:
<<
    try:
        year, month = month_str.split('_')
        return datetime(int(year), int(month), 1)
    except Exception as e:
        raise ValueError(f"Invalid month format: ...")
>> *)
Definition parse_month (month_str : string) : Outcome datetime :=
  let attempt :=
    match split_on "_" (list_ascii_of_string month_str) with
    | [year; month] =>
        match py_int_of_string year with
        | Raise e => Raise e
        | Ret y =>
            match py_int_of_string month with
            | Raise e => Raise e
            | Ret m => make_datetime y m
            end
        end
    | _ => Raise (ValueError "not enough or too many values to unpack")
    end in
  match attempt with
  | Ret dt => Ret dt
  | Raise _ => Raise (invalid_month_format month_str)
  end.

(** Decimal digits, least significant first: exactly [w] of them, and
    the number of digits of [n]. *)
Fixpoint digits_le (w : nat) (n : Z) : list Z :=
  match w with
  | O => []
  | S w' => (n mod 10) :: digits_le w' (n / 10)
  end.

Fixpoint ndigits (fuel : nat) (n : Z) : nat :=
  match fuel with
  | O => 1
  | S f => if n <? 10 then 1%nat else S (ndigits f (n / 10))
  end.

Definition digit_char (d : Z) : ascii := ascii_of_nat (Z.to_nat (48 + d)).

(** [n] printed in at least [w] digits, padded with zeros. *)
Definition zero_padded (w : nat) (n : Z) : list ascii :=
  map digit_char (rev (digits_le (Nat.max w (ndigits (Z.to_nat n) n)) n)).

(** [format_month]: [dt.strftime("%Y_%m")].  [%m] is two digits; [%Y]
    is four digits where the C library pads the year ([pad_year]) and
    the plain decimal year where it does not. *)
Definition format_month (pad_year : bool) (dt : datetime) : string :=
  string_of_list_ascii
    (zero_padded (if pad_year then 4 else 1) (dt_year dt)
     ++ "_"%char :: zero_padded 2 (dt_month dt)).

(** [start > end] on first-of-month datetimes. *)
Definition dt_index (dt : datetime) : Z := 12 * dt_year dt + (dt_month dt - 1).
Definition dt_leb (p q : datetime) : bool :=
  (dt_year p <? dt_year q) || ((dt_year p =? dt_year q) && (dt_month p <=? dt_month q)).

(** [current += relativedelta(months=1)]: the month after, which must
    still be a [datetime]. *)
Definition add_month (dt : datetime) : Outcome datetime :=
  let '(year, month) :=
    if 12 <? dt_month dt + 1 then (dt_year dt + 1, dt_month dt + 1 - 12)
    else (dt_year dt, dt_month dt + 1) in
  if year <=? 9999 then Ret (mkDate year month)
  else Raise (ValueError "year 10000 is out of range").

(** The [while current <= end] loop; [None] when the fuel runs out. *)
Fixpoint month_loop (pad_year : bool) (fuel : nat) (current end_ : datetime)
         (months : list string) : option (Outcome (list string)) :=
  match fuel with
  | O => None
  | S f =>
      if dt_leb current end_
      then match add_month current with
           | Ret next =>
               month_loop pad_year f next end_
                          (months ++ [format_month pad_year current])
           | Raise e => Some (Raise e)
           end
      else Some (Ret months)
  end.

(** [generate_month_range(start_month, end_month)]. *)
Definition generate_month_range (pad_year : bool) (fuel : nat)
           (start_month end_month : string)
  : option (Outcome (list string)) :=
  match parse_month start_month with
  | Raise e => Some (Raise e)
  | Ret start =>
      match parse_month end_month with
      | Raise e => Some (Raise e)
      | Ret end_ =>
          if negb (dt_leb start end_)
          then Some (Raise (ValueError
                 ("Start month (" +:+ start_month
                  +:+ ") must be before or equal to end month ("
                  +:+ end_month +:+ ")")))
          else month_loop pad_year fuel start end_ []
      end
  end.

(** A first-of-month date that [datetime] accepts, and the first-of-month
    date [k] months after another. *)
Definition valid_date (dt : datetime) : Prop :=
  1 <= dt_year dt <= 9999 /\ 1 <= dt_month dt <= 12.

Definition months_after (dt : datetime) (k : Z) : datetime :=
  let i := dt_index dt + k in mkDate (i / 12) (i mod 12 + 1).

End Months.

(** Notions for the months: decimal digits and the months from a start. *)

Module MonthNotions.

Import Months.
Local Open Scope Z_scope.

Definition is_digit (d : Z) : Prop := 0 <= d <= 9.

(** The value of a digit sequence, most significant first. *)
Definition value (acc : Z) (ds : list Z) : Z :=
  fold_left (fun a d => 10 * a + d) ds acc.

(** The digits printed for [n] in at least [w] places. *)
Definition printed (w : nat) (n : Z) : list Z :=
  rev (digits_le (Nat.max w (ndigits (Z.to_nat n) n)) n).

(** The [n] months from [a] on, formatted. *)
Definition month_list (pad_year : bool) (a : datetime) (n : nat) : list string :=
  map (fun k => format_month pad_year (months_after a (Z.of_nat k))) (seq 0 n).

(** The last month a [datetime] can hold. *)
Definition last_month : datetime := mkDate 9999 12.

End MonthNotions.

(** ** batch_downloader: the batch run *)

Module Batch.

Import Strings.Ascii Months.
Local Open Scope Z_scope.

(** [str(n)] for an integer. *)
Definition py_str (n : Z) : string :=
  if n <? 0 then String "-" (string_of_list_ascii (zero_padded 1 (- n)))
  else string_of_list_ascii (zero_padded 1 n).

(** [s.lower()]. *)
Definition lower_char (c : ascii) : ascii :=
  let n := nat_of_ascii c in
  if (Nat.leb 65 n && Nat.leb n 90)%bool then ascii_of_nat (n + 32) else c.

Fixpoint py_lower (s : string) : string :=
  match s with
  | EmptyString => EmptyString
  | String c rest => String (lower_char c) (py_lower rest)
  end.

Definition newline : string := String (ascii_of_nat 10) EmptyString.

(** The parsed command line. *)
Record BatchArgs : Type :=
  mkBatchArgs { aoi : string; start : string; end_ : string;
                api_key : string; zoom : Z; save_dir : string;
                dry_run : bool; continue_on_error : bool;
                skip_existing : bool }.

(** [results]: the months by outcome; a failed month comes with its
    error message. *)
Record Results : Type :=
  mkResults { success : list string;
              failed : list (string * option string);
              skipped : list string }.

Definition no_results : Results := mkResults [] [] [].

(** What the program prints, one constructor per [print] call or block
    of calls; [ErrAoiNotFound], [ErrMonths] and [ErrDownloading] go to
    standard error. *)
Inductive Line : Type :=
| ErrAoiNotFound (aoi : string)
| ErrMonths (why : string)
| Banner (args : BatchArgs) (months : list string)
| Prompt
| AbortedByUser
| Skipping (i total : nat) (month expected_output : string)
| ProcessingMonth (i total : nat) (month : string)
| WouldExecute (cmd : list string)
| Downloading (month : string)
| ChildStdout (out : string)
| ErrDownloading (error_msg : string)
| StoppingDueToError
| Summary (results : Results) (total : nat).

(** How a run of the script ends: [main] returns, [sys.exit(code)], or
    an exception nothing catches. *)
Inductive Exit : Type :=
| Returned
| SystemExit (code : Z)
| Traceback.

(** A finished child process. *)
Record Completed : Type :=
  mkCompleted { returncode : Z; child_stdout : string; child_stderr : string }.

(** Enough iterations for any range of months between two [datetime]s. *)
Definition month_fuel : nat := Z.to_nat 120000.

Section Host.

(** The file system, as far as the script looks at it. *)
Variable FS : Type.

(** Everything outside the script: the interpreter's path, the C
    library's [%Y], [os.path] and [os] on the platform, the child
    process, and the line typed at the prompt.  [None] stands for an
    exception raised by the call ([OSError], [EOFError]). *)
Record Host : Type :=
  mkHost { sys_executable : string;
           pad_year : bool;
           path_exists : FS -> string -> bool;
           makedirs : string -> FS -> option FS;
           basename_noext : string -> string;
           path_join : string -> string -> string;
           (* subprocess.run(cmd, capture_output=True, text=True) *)
           subprocess_run : list string -> FS -> option Completed * FS;
           input : option string }.

Record BSt : Type := mkBSt { b_fs : FS; b_log : list Line }.

Definition emit (st : BSt) (l : Line) : BSt :=
  mkBSt (b_fs st) (b_log st ++ [l]).

Variable h : Host.

(** [run_downloader]: [(success, error)], or [None] when the child
    cannot be started. *)
Definition run_downloader (aoi_path month api_key : string) (zoom : Z)
           (save_dir : string) (output_name : option string) (dry_run : bool)
           (st : BSt) : option (bool * option string) * BSt :=
  let cmd :=
    [sys_executable h; "planet_downloader.py";
     "--aoi"; aoi_path; "--month"; month; "--api-key"; api_key;
     "--zoom"; py_str zoom; "--save-dir"; save_dir]%string
    ++ match output_name with
       | Some n => if String.eqb n "" then [] else ["--output-name"%string; n]
       | None => []
       end in
  if dry_run
  then (Some (true, Some "Dry run - not executed"%string),
        emit st (WouldExecute cmd))
  else
    let st1 := emit st (Downloading month) in
    match subprocess_run h cmd (b_fs st1) with
    | (None, fs') => (None, mkBSt fs' (b_log st1))
    | (Some result, fs') =>
        let st2 := mkBSt fs' (b_log st1) in
        if returncode result =? 0           (* check=True *)
        then (Some (true, None), emit st2 (ChildStdout (child_stdout result)))
        else
          let error_msg :=
            ("Error downloading " +:+ month +:+ ":" +:+ newline
             +:+ child_stderr result)%string in
          (Some (false, Some error_msg), emit st2 (ErrDownloading error_msg))
    end.

(** The loop [for i, month in enumerate(months, 1)] from index [i] on;
    [total] is [len(months)].  It ends at the end of the list or at the
    [break]. *)
Fixpoint download_months (args : BatchArgs) (aoi_basename : string)
         (total i : nat) (months : list string) (results : Results)
         (st : BSt) : option Results * BSt :=
  match months with
  | [] => (Some results, st)
  | month :: rest =>
      let expected_output :=
        path_join h (save_dir args)
                  (aoi_basename +:+ "_" +:+ month +:+ ".tif")%string in
      if skip_existing args && path_exists h (b_fs st) expected_output
      then download_months args aoi_basename total (S i) rest
             (mkResults (success results) (failed results)
                        (skipped results ++ [month]))
             (emit st (Skipping i total month expected_output))
      else
        match run_downloader (aoi args) month (api_key args) (zoom args)
                             (save_dir args) None (dry_run args)
                             (emit st (ProcessingMonth i total month)) with
        | (None, st') => (None, st')
        | (Some (true, _), st') =>
            download_months args aoi_basename total (S i) rest
              (mkResults (success results ++ [month]) (failed results)
                         (skipped results)) st'
        | (Some (false, error), st') =>
            let results' :=
              mkResults (success results) (failed results ++ [(month, error)])
                        (skipped results) in
            if negb (continue_on_error args) && negb (dry_run args)
            then (Some results', emit st' StoppingDueToError)
            else download_months args aoi_basename total (S i) rest results' st'
        end
  end.

(** [main]. *)
Definition main (args : BatchArgs) (st : BSt) : Exit * BSt :=
  if negb (path_exists h (b_fs st) (aoi args))
  then (SystemExit 1, emit st (ErrAoiNotFound (aoi args)))
  else
    match generate_month_range (pad_year h) month_fuel (start args) (end_ args) with
    | None => (Traceback, st)
    | Some (Raise (ValueError why)) => (SystemExit 1, emit st (ErrMonths why))
    | Some (Raise _) => (Traceback, st)
    | Some (Ret months) =>
        match makedirs h (save_dir args) (b_fs st) with
        | None => (Traceback, st)
        | Some fs1 =>
            let aoi_basename := basename_noext h (aoi args) in
            let st1 := emit (mkBSt fs1 (b_log st)) (Banner args months) in
            let asked :=
              if dry_run args then (Some true, st1)
              else match input h with
                   | None => (None, emit st1 Prompt)
                   | Some response =>
                       (Some (String.eqb (py_lower response) "y"),
                        emit st1 Prompt)
                   end in
            match asked with
            | (None, st2) => (Traceback, st2)
            | (Some false, st2) => (SystemExit 0, emit st2 AbortedByUser)
            | (Some true, st2) =>
                match download_months args aoi_basename (length months) 1
                                      months no_results st2 with
                | (None, st3) => (Traceback, st3)
                | (Some results, st3) =>
                    let st4 := emit st3 (Summary results (length months)) in
                    match failed results with
                    | _ :: _ =>
                        if negb (continue_on_error args)
                        then (SystemExit 1, st4) else (Returned, st4)
                    | [] => (Returned, st4)
                    end
                end
            end
        end
    end.

End Host.

Arguments mkHost {FS}.
Arguments mkBSt {FS}.
Arguments emit {FS}.
Arguments run_downloader {FS}.
Arguments download_months {FS}.
Arguments main {FS}.
Arguments b_fs {FS}.
Arguments b_log {FS}.
Arguments sys_executable {FS}.
Arguments pad_year {FS}.
Arguments path_exists {FS}.
Arguments makedirs {FS}.
Arguments basename_noext {FS}.
Arguments path_join {FS}.
Arguments subprocess_run {FS}.
Arguments input {FS}.

(** The months the loop has dealt with, by any outcome. *)
Definition accounted (r : Results) : list string :=
  success r ++ map fst (failed r) ++ skipped r.

(** A host on a file system that is a list of names: one month's mosaic
    exists already, the child fails for 2020_03 and otherwise writes
    nothing, the user answers [answer]. *)
Definition demo_host (answer : string) : Host (list string) :=
  mkHost "python" true
         (fun fs p => existsb (String.eqb p) fs)
         (fun d fs => Some (d :: fs))
         (fun _ => "area"%string)
         (fun d n => (d +:+ "/" +:+ n)%string)
         (fun cmd fs =>
            (Some (if existsb (String.eqb "2020_03") cmd
                   then mkCompleted 1 "" "Traceback"
                   else mkCompleted 0 "Total tiles: 4" ""), fs))
         (Some answer).

Definition demo_args (dry cont skip : bool) : BatchArgs :=
  mkBatchArgs "area.geojson" "2020_01" "2020_04" "KEY" 15 "./data"
              dry cont skip.

Definition demo_st : BSt (list string) :=
  mkBSt ["area.geojson"; "./data/area_2020_02.tif"]%string [].

End Batch.

(** ** Notions for the order of the merge input *)

Module OrderNotions.

Import Rasterio MergeNotions.

(** Cells that never disagree: wherever two of them both have a
    non-zero sample, at the same grid point and in the same band, the
    two samples are equal.  Rasters that do not overlap are of this
    kind. *)
Definition compatible (cells : list Cell) : Prop :=
  forall k1 k2 b J I,
    In k1 cells -> In k2 cells ->
    cell_sample k1 b J I <> 0%Z -> cell_sample k2 b J I <> 0%Z ->
    cell_sample k1 b J I = cell_sample k2 b J I.

End OrderNotions.

(** ** Rasters that share no pixel grid *)

Module OffGrid.

Import Rasterio Planet.
Local Open Scope Q_scope.

(** Four one-pixel rasters of three bands, one pixel wide, as tiles of
    two rows have them: [tile_c] has pixels 0.7 high, the others 1.
    [tile_a] and [tile_b] lie side by side under the line y = 10,
    [tile_c] east of them, [tile_d] below [tile_c]. *)
Definition one_pixel (left top height : Q) (v : Z) : Dataset :=
  mkDataset (mkAffine 1 0 left 0 (- height) top) 1 1
            (tabulate3 3 1 1 (fun _ _ _ => v)).

Definition tile_a : Dataset := one_pixel 0 10 1 1.
Definition tile_b : Dataset := one_pixel 1 10 1 2.
Definition tile_c : Dataset := one_pixel 2 10 (7 # 10) 3.
Definition tile_d : Dataset := one_pixel 2 (93 # 10) 1 4.

Definition paths : list path :=
  [TileFile 2 0 0; TileFile 2 1 0; TileFile 2 2 0; TileFile 2 2 1].

Definition tiles_on_disk : St :=
  mkSt (<[TileFile 2 0 0 := tile_a]>
        (<[TileFile 2 1 0 := tile_b]>
         (<[TileFile 2 2 0 := tile_c]>
          (<[TileFile 2 2 1 := tile_d]> ∅)))) [].

End OffGrid.

(** ** Notions for the loop over the months *)

Module BatchNotions.

Import Months Batch.
Local Open Scope Z_scope.

(** How one pass of the loop body deals with a month when [--dry-run]
    is off. *)
Inductive Verdict : Type :=
| Skipped                   (* the expected output exists *)
| Succeeded                 (* the child exited with status 0 *)
| Failed (c : Completed)    (* the child exited with another status *)
| NotStarted.               (* the child could not be started *)

Definition is_skipped (v : Verdict) : bool :=
  match v with Skipped => true | _ => false end.
Definition is_succeeded (v : Verdict) : bool :=
  match v with Succeeded => true | _ => false end.

Section Host.

Context {FS : Type} (h : Host FS) (args : BatchArgs) (base : string).

(** The command line of the child for a month, the file whose presence
    makes the loop skip the month, and the message kept for a failed
    month. *)
Definition command (month : string) : list string :=
  [sys_executable h; "planet_downloader.py";
   "--aoi"; aoi args; "--month"; month; "--api-key"; api_key args;
   "--zoom"; py_str (zoom args); "--save-dir"; save_dir args]%string.

Definition expected_output (month : string) : string :=
  path_join h (save_dir args) (base +:+ "_" +:+ month +:+ ".tif")%string.

Definition error_text (month : string) (c : Completed) : string :=
  ("Error downloading " +:+ month +:+ ":" +:+ newline +:+ child_stderr c)%string.

Definition skips (month : string) (fs : FS) : bool :=
  skip_existing args && path_exists h fs (expected_output month).

(** The verdict on a month met on the file system [fs], and the file
    system it leaves. *)
Definition verdict (month : string) (fs : FS) : Verdict * FS :=
  if skips month fs then (Skipped, fs)
  else match subprocess_run h (command month) fs with
       | (Some c, fs') =>
           if returncode c =? 0 then (Succeeded, fs') else (Failed c, fs')
       | (None, fs') => (NotStarted, fs')
       end.

(** The verdicts on a sequence of months dealt with one after the
    other, and the file system after the last. *)
Fixpoint verdicts (months : list string) (fs : FS) : list (string * Verdict) :=
  match months with
  | [] => []
  | m :: rest => (m, fst (verdict m fs)) :: verdicts rest (snd (verdict m fs))
  end.

Fixpoint fs_after (months : list string) (fs : FS) : FS :=
  match months with
  | [] => fs
  | m :: rest => fs_after rest (snd (verdict m fs))
  end.

Definition months_with (p : Verdict -> bool) (vs : list (string * Verdict))
  : list string :=
  map fst (List.filter (fun mv => p (snd mv)) vs).

End Host.

End BatchNotions.

(** * Proofs *)

Module MercantileFacts.

Import Mercantile.
Local Open Scope Z_scope.

Lemma py_range_In (a b k : Z) : In k (py_range a b) <-> a <= k < b.
Proof.
  unfold py_range. rewrite in_map_iff. split.
  - intros (n & <- & Hn). apply in_seq in Hn. lia.
  - intros H. exists (Z.to_nat (k - a)). split; [lia|]. apply in_seq. lia.
Qed.

Lemma range_from_sorted (a : Z) (n s : nat) :
  StronglySorted Z.lt (map (fun k => a + Z.of_nat k) (seq s n)).
Proof.
  revert s. induction n as [|n IH]; intros s; simpl; constructor.
  - apply IH.
  - apply List.Forall_forall. intros x Hx. apply in_map_iff in Hx.
    destruct Hx as (k & <- & Hk). apply in_seq in Hk. lia.
Qed.

Lemma py_range_sorted (a b : Z) : StronglySorted Z.lt (py_range a b).
Proof. apply range_from_sorted. Qed.

Lemma StronglySorted_append {A} (R : A -> A -> Prop) (l1 l2 : list A) :
  StronglySorted R l1 -> StronglySorted R l2 ->
  (forall x y, In x l1 -> In y l2 -> R x y) ->
  StronglySorted R (l1 ++ l2).
Proof.
  induction 1 as [|x l1 Hs IH Hx]; intros H2 Hc; simpl; [assumption|].
  constructor.
  - apply IH; [assumption|]. intros u v Hu Hv. apply Hc; [now right|assumption].
  - apply List.Forall_forall. intros y Hy. apply in_app_or in Hy.
    destruct Hy as [Hy|Hy].
    + rewrite List.Forall_forall in Hx. now apply Hx.
    + apply Hc; [now left|assumption].
Qed.

Lemma column_sorted (i z : Z) (rows : list Z) :
  StronglySorted Z.lt rows ->
  StronglySorted col_major_lt (map (fun j => mkTile i j z) rows).
Proof.
  induction 1 as [|j rows Hs IH Hj]; simpl; constructor; [assumption|].
  apply List.Forall_forall. intros t Ht. apply in_map_iff in Ht.
  destruct Ht as (k & <- & Hk). rewrite List.Forall_forall in Hj.
  right. simpl. split; [reflexivity|]. now apply Hj.
Qed.

Lemma grid_sorted (z : Z) (cols rows : list Z) :
  StronglySorted Z.lt cols -> StronglySorted Z.lt rows ->
  StronglySorted col_major_lt
    (flat_map (fun i => map (fun j => mkTile i j z) rows) cols).
Proof.
  intros Hc Hr. induction Hc as [|i cols Hs IH Hi]; simpl; [constructor|].
  apply StronglySorted_append.
  - now apply column_sorted.
  - exact IH.
  - intros s t Hs' Ht. apply in_map_iff in Hs'. destruct Hs' as (j & <- & _).
    apply in_flat_map in Ht. destruct Ht as (i' & Hi' & Ht).
    apply in_map_iff in Ht. destruct Ht as (j' & <- & _).
    left. simpl. rewrite List.Forall_forall in Hi. now apply Hi.
Qed.

Lemma tiles_between_sorted (ul lr : Tile) (z : Z) :
  StronglySorted col_major_lt (tiles_between ul lr z).
Proof. apply grid_sorted; apply py_range_sorted. Qed.

Lemma tiles_between_In (ul lr t : Tile) (z : Z) :
  In t (tiles_between ul lr z) <->
  tz t = z /\ tx ul <= tx t <= tx lr /\ ty ul <= ty t <= ty lr.
Proof.
  unfold tiles_between. rewrite in_flat_map. split.
  - intros (i & Hi & Ht). apply in_map_iff in Ht. destruct Ht as (j & <- & Hj).
    apply py_range_In in Hi. apply py_range_In in Hj. simpl. lia.
  - intros (Hz & Hx & Hy). exists (tx t). split; [apply py_range_In; lia|].
    apply in_map_iff. exists (ty t). split; [|apply py_range_In; lia].
    destruct t; simpl in *; now subst.
Qed.



Lemma tiles_single_box (merc_y : Q -> Q) (w s e n : Q) (z : Z) :
  (w <= e)%Q ->
  tiles merc_y w s e n z = tiles_of_bbox merc_y (w, s, e, n) z.
Proof.
  intros H. unfold tiles. apply Qle_bool_iff in H. rewrite H. simpl.
  apply app_nil_r.
Qed.

End MercantileFacts.

Module TileIndexFacts.

Import Mercantile.
Local Open Scope Q_scope.


Lemma Z2_int (zoom : Z) : (0 <= zoom)%Z -> Z2 zoom == inject_Z (2 ^ zoom).
Proof. intros H. unfold Z2. symmetry. exact (Zpower_Qpower 2 zoom H). Qed.

Lemma Z2_ge_1 (zoom : Z) : (0 <= zoom)%Z -> 1 <= Z2 zoom.
Proof.
  intros H. rewrite (Z2_int zoom H).
  change 1 with (inject_Z 1). rewrite <- Zle_Qle.
  assert (0 < 2 ^ zoom)%Z by (apply Z.pow_pos_nonneg; lia). lia.
Qed.

Lemma Qfloor_lt_Z (q : Q) (n : Z) : q < inject_Z n -> (Qfloor q < n)%Z.
Proof.
  intros H. rewrite Zlt_Qlt. eapply Qle_lt_trans; [apply Qfloor_le|exact H].
Qed.






End TileIndexFacts.

Module EnumeratorClaims.

Import Mercantile MercantileFacts TileIndexFacts.
Local Open Scope Q_scope.


Example tiles_two_by_two :
  tiles merc_y_linear (-1) (-1) 1 1 1 =
  [mkTile 0 0 1; mkTile 0 1 1; mkTile 1 0 1; mkTile 1 1 1].
Proof. vm_compute. reflexivity. Qed.

(** Whatever the latitude projection, a box of two columns and two rows
    is not enumerated row by row. *)
Lemma tiles_between_not_row_major (ul lr : Tile) (z : Z) :
  (tx ul < tx lr)%Z -> (ty ul < ty lr)%Z ->
  ~ StronglySorted row_major_lt (tiles_between ul lr z).
Proof.
  intros Hx Hy Hs.
  assert (H1 : In (mkTile (tx ul) (ty ul + 1) z) (tiles_between ul lr z))
    by (apply tiles_between_In; simpl; lia).
  assert (H2 : In (mkTile (tx ul + 1) (ty ul) z) (tiles_between ul lr z))
    by (apply tiles_between_In; simpl; lia).
  pose proof (tiles_between_sorted ul lr z) as Hc.
  remember (tiles_between ul lr z) as l eqn:El. clear El.
  induction Hc as [|t l Hc IH Ht].
  - destruct H1.
  - inversion Hs as [|? ? Hs' Hr]; subst.
    rewrite List.Forall_forall in Ht, Hr.
    destruct H1 as [H1|H1]; destruct H2 as [H2|H2].
    + subst t. inversion H2. lia.
    + subst t. specialize (Hr _ H2). unfold row_major_lt in Hr. simpl in Hr. lia.
    + subst t. specialize (Ht _ H1). unfold col_major_lt in Ht. simpl in Ht. lia.
    + now apply IH.
Qed.



(** C7, as stated, fails: the box (-1,-1,1,1) at zoom 1 is enumerated
    (0,0), (0,1), (1,0), (1,1) as (column, row), which is not ascending
    row first. *)
Lemma tiles_not_row_major :
  ~ StronglySorted row_major_lt (tiles merc_y_linear (-1) (-1) 1 1 1).
Proof.
  rewrite tiles_two_by_two. intros H.
  inversion H as [|? ? H1 _]; subst.
  inversion H1 as [|? ? _ H2]; subst.
  inversion H2 as [|? ? H3 _]; subst.
  unfold row_major_lt in H3. simpl in H3. lia.
Qed.

(** C7 (amended): for every bounding box with [west <= east] and every
    zoom level the enumeration, a function of its inputs, is in
    column-major order: strictly ascending in the column and, within a
    column, strictly ascending in the row. *)
Theorem tiles_column_major (g : Q -> Q) (w s e n : Q) (z : Z) :
  w <= e -> StronglySorted col_major_lt (tiles g w s e n z).
Proof.
  intros H. rewrite tiles_single_box by assumption.
  unfold tiles_of_bbox. apply tiles_between_sorted.
Qed.

Lemma tiles_column_major_witness :
  -1 <= 1 /\ StronglySorted col_major_lt (tiles merc_y_linear (-1) (-1) 1 1 1).
Proof.
  assert (H : -1 <= 1) by (unfold Qle; simpl; lia).
  split; [exact H|]. exact (tiles_column_major merc_y_linear (-1) (-1) 1 1 1 H).
Defined.







End EnumeratorClaims.

Module FetchClaims.

Import Mercantile Rasterio Planet Notions.
Local Open Scope Q_scope.

(** One fetch in terms of [fetch_outcome]. *)
Lemma download_spec (w : World) (tile : Tile) (url : string) (st : St) :
  download_and_save_tile w tile url st =
  match fetch_outcome w tile url with
  | Ret pd => (Ret (Some (fst pd)),
               mkSt (<[fst pd := snd pd]> (fs st)) (stdout st))
  | Raise e => (Ret None,
                mkSt (fs st) (stdout st ++ [FailedDownloading tile e]))
  end.
Proof.
  unfold download_and_save_tile, fetch_outcome, try_except, bind, lift,
    rasterio_write, print, ret.
  destruct (session_get w url tile) as [r|e]; [|reflexivity].
  destruct (raise_for_status r) as [[]|e]; [|reflexivity].
  destruct (image_open w (content r)) as [img|e]; [|reflexivity].
  destruct (from_bounds _ _ _ _ _ _) as [tr|e]; [|reflexivity].
  destruct (write_fault w _) as [e|]; reflexivity.
Qed.

(** C3: for every tile, URL template, environment and state the fetch
    returns (it never raises): either the path of the tile file it has
    just written, and that file holds the raster, or [None] after
    printing the tile's coordinate and the reason, with the files left
    as they were. *)
Theorem fetch_total (w : World) (tile : Tile) (url : string) (st : St) :
  exists (r : option path) (st' : St),
    download_and_save_tile w tile url st = (Ret r, st') /\
    match r with
    | Some p => p = TileFile (tz tile) (tx tile) (ty tile) /\
                (exists d, fs st' !! p = Some d) /\ stdout st' = stdout st
    | None => (exists e, stdout st' = stdout st ++ [FailedDownloading tile e]) /\
              fs st' = fs st
    end.
Proof.
  rewrite download_spec.
  destruct (fetch_outcome w tile url) as [[p d]|e] eqn:E.
  - eexists; eexists; split; [reflexivity|]. simpl.
    split; [|split; [|reflexivity]].
    + unfold fetch_outcome in E.
      destruct (session_get w url tile) as [r|]; [|discriminate].
      destruct (raise_for_status r) as [[]|]; [|discriminate].
      destruct (image_open w (content r)) as [img|]; [|discriminate].
      destruct (from_bounds _ _ _ _ _ _) as [tr|]; [|discriminate].
      destruct (write_fault w _); [discriminate|]. now inversion E.
    + exists d. apply lookup_insert_eq.
  - eexists; eexists; split; [reflexivity|]. simpl.
    split; [exists e|]; reflexivity.
Qed.

Lemma from_bounds_corners (w s e n : Q) (width height : Z) (tr : Affine) :
  from_bounds w s e n width height = Ret tr ->
  pt_eq (affine_apply tr 0 0) (w, n) /\
  pt_eq (affine_apply tr (inject_Z width) 0) (e, n) /\
  pt_eq (affine_apply tr 0 (inject_Z height)) (w, s) /\
  pt_eq (affine_apply tr (inject_Z width) (inject_Z height)) (e, s).
Proof.
  unfold from_bounds. destruct (width =? 0)%Z eqn:Ew; [discriminate|].
  destruct (height =? 0)%Z eqn:Eh; [discriminate|]. simpl.
  intros H. inversion H; subst tr; clear H.
  apply Z.eqb_neq in Ew, Eh.
  assert (Hw : ~ inject_Z width == 0).
  { intros H. apply Ew. unfold Qeq in H. simpl in H. lia. }
  assert (Hh : ~ inject_Z height == 0).
  { intros H. apply Eh. unfold Qeq in H. simpl in H. lia. }
  unfold pt_eq, affine_apply, affine_mul, translation, scale. simpl.
  repeat split; try (field; first [assumption | split; assumption]); try ring.
Qed.

(** C9: when a fetch succeeds, the raster it has written carries a
    transform that sends the pixel corners (0,0), (width,0), (0,height)
    and (width,height) to (west,north), (east,north), (west,south) and
    (east,south) of the tile's bounds (in exact arithmetic). *)
Theorem tile_transform_corners (w : World) (tile : Tile) (url : string)
        (st st' : St) (p : path) :
  download_and_save_tile w tile url st = (Ret (Some p), st') ->
  exists d, fs st' !! p = Some d /\
    let b := bounds (lat_deg w) tile in
    let W := inject_Z (ds_width d) in
    let H := inject_Z (ds_height d) in
    pt_eq (affine_apply (ds_transform d) 0 0) (west b, north b) /\
    pt_eq (affine_apply (ds_transform d) W 0) (east b, north b) /\
    pt_eq (affine_apply (ds_transform d) 0 H) (west b, south b) /\
    pt_eq (affine_apply (ds_transform d) W H) (east b, south b).
Proof.
  rewrite download_spec.
  destruct (fetch_outcome w tile url) as [[q d]|e] eqn:E; [|discriminate].
  simpl. intros H. inversion H; subst; clear H.
  exists d. split; [apply lookup_insert_eq|].
  unfold fetch_outcome in E.
  destruct (session_get w url tile) as [r|]; [|discriminate].
  destruct (raise_for_status r) as [[]|]; [|discriminate].
  destruct (image_open w (content r)) as [img|]; [|discriminate].
  destruct (from_bounds _ _ _ _ _ _) as [tr|] eqn:Efb; [|discriminate].
  destruct (write_fault w _); [discriminate|].
  inversion E; subst; clear E. simpl.
  exact (from_bounds_corners _ _ _ _ _ _ _ Efb).
Qed.

Lemma tile_transform_corners_witness :
  exists d,
    fs (snd (download_and_save_tile Demo.world (mkTile 0 0 1) "u" Demo.st0))
      !! TileFile 1 0 0 = Some d /\
    pt_eq (affine_apply (ds_transform d) 2 2) (0, 0).
Proof.
  destruct (tile_transform_corners Demo.world (mkTile 0 0 1) "u" Demo.st0
              (snd (download_and_save_tile Demo.world (mkTile 0 0 1) "u" Demo.st0))
              (TileFile 1 0 0))
    as (d & Hd & _ & _ & _ & H4).
  - vm_compute. reflexivity.
  - exists d. split; [exact Hd|].
    assert (E : ds_width d = 2%Z /\ ds_height d = 2%Z).
    { vm_compute in Hd. inversion Hd. split; reflexivity. }
    destruct E as [Ew Eh]. rewrite Ew, Eh in H4.
    destruct H4 as [H4 H5]. split.
    + rewrite H4. vm_compute. reflexivity.
    + rewrite H5. vm_compute. reflexivity.
Defined.

End FetchClaims.

Module PipelineFacts.

Import Mercantile Rasterio Planet Notions PipelineNotions FetchClaims.
Local Open Scope Z_scope.

Lemma submit_all_spec (w : World) (url : string) (ts : list Tile) (st : St) :
  submit_all w ts url st =
  (Ret (map (fetched w url) ts),
   mkSt (stored_tiles w url ts (fs st)) (stdout st ++ failure_log w url ts)).
Proof.
  revert st. induction ts as [|t ts IH]; intros st; simpl.
  - unfold ret. rewrite app_nil_r. now destruct st.
  - unfold bind. rewrite download_spec. unfold fetched, stored_tiles.
    destruct (fetch_outcome w t url) as [[p d]|e]; rewrite IH; unfold ret; simpl.
    + reflexivity.
    + now rewrite <- app_assoc.
Qed.

Lemma stored_tiles_output (w : World) (url : string) (ts : list Tile)
      (files : gmap path Dataset) (n : string) :
  stored_tiles w url ts files !! OutputFile n = files !! OutputFile n.
Proof.
  revert files. induction ts as [|t ts IH]; intros files; [reflexivity|].
  unfold stored_tiles in *. simpl. rewrite IH.
  destruct (fetch_outcome w t url) as [[p d]|e] eqn:E; [|reflexivity].
  simpl. apply lookup_insert_ne.
  unfold fetch_outcome in E.
  destruct (session_get w url t) as [r|]; [|discriminate].
  destruct (raise_for_status r) as [[]|]; [|discriminate].
  destruct (image_open w (content r)) as [img|]; [|discriminate].
  destruct (from_bounds _ _ _ _ _ _) as [tr|]; [|discriminate].
  destruct (write_fault w _); [discriminate|]. inversion E. discriminate.
Qed.

Lemma cleanup_output (files : gmap path Dataset) (n : string) :
  filter (fun kv : path * Dataset => is_tile_file (fst kv) = false) files
    !! OutputFile n = files !! OutputFile n.
Proof.
  destruct (files !! OutputFile n) as [d|] eqn:E.
  - apply map_lookup_filter_Some. split; [assumption|reflexivity].
  - apply map_lookup_filter_None. left. assumption.
Qed.

Lemma open_batch_spec (batch : list path) (st : St) :
  open_batch batch st =
  (Ret (opened (fs st) batch),
   mkSt (fs st) (stdout st ++ open_log (fs st) batch)).
Proof.
  revert st. induction batch as [|p batch IH]; intros st; simpl.
  - unfold ret. rewrite app_nil_r. now destruct st.
  - unfold bind, try_except, rasterio_open, ret, print, opened. simpl.
    destruct (fs st !! p) as [d|] eqn:E; rewrite IH; simpl; unfold opened.
    + reflexivity.
    + now rewrite <- app_assoc.
Qed.

(** [merge_in_batches] reads files and prints; it leaves the files as
    they were. *)
Lemma batch_step_frame (w : World) (paths : list path) (bs : Z)
      (acc : Scratch) (i : Z) (st : St) :
  exists l, snd (batch_step w paths bs acc i st)
            = mkSt (fs st) (stdout st ++ l).
Proof.
  unfold batch_step, bind. rewrite open_batch_spec.
  destruct (opened (fs st) (slice paths i bs)) as [|d ds].
  - eexists. reflexivity.
  - unfold lift. destruct (merge (d :: ds)) as [mt|e]; [|eexists; reflexivity].
    destruct (gtiff_of (fst mt) (snd mt)) as [g|e]; [|eexists; reflexivity].
    destruct (scratch_fault w i); eexists; reflexivity.
Qed.

Lemma batch_loop_frame (w : World) (paths : list path) (bs : Z)
      (starts : list Z) (acc : Scratch) (st : St) :
  exists l, snd (batch_loop w paths bs acc starts st)
            = mkSt (fs st) (stdout st ++ l).
Proof.
  revert acc st. induction starts as [|i starts IH]; intros acc st; simpl.
  - exists []. rewrite app_nil_r. now destruct st.
  - unfold bind.
    destruct (batch_step_frame w paths bs acc i st) as [l Hl].
    destruct (batch_step w paths bs acc i st) as [[acc'|e] st1]; simpl in Hl.
    + destruct (IH acc' st1) as [l' Hl']. rewrite Hl'. subst st1. simpl.
      exists (l ++ l'). now rewrite app_assoc.
    + exists l. exact Hl.
Qed.

Lemma merge_in_batches_frame (w : World) (paths : list path) (bs : Z) (st : St) :
  exists l, snd (merge_in_batches w paths bs st)
            = mkSt (fs st) (stdout st ++ l).
Proof.
  unfold merge_in_batches, bind, lift.
  destruct (range_step _ bs) as [starts|e].
  - destruct (batch_loop_frame w paths bs starts ([], ∅) st) as [l Hl].
    destruct (batch_loop w paths bs ([], ∅) starts st) as [[acc|e] st1];
      simpl in Hl; subst st1.
    + unfold print. simpl.
      exists (l ++ [MergingFinalBatches]).
      destruct (open_all (snd acc) (fst acc)); simpl; now rewrite app_assoc.
    + exists l. reflexivity.
  - exists []. rewrite app_nil_r. now destruct st.
Qed.

(** The file a fetch writes is the tile's own, and it stays until the
    temporary directory is left. *)
Lemma fetch_path (w : World) (t : Tile) (url : string) (p : path) (d : Dataset) :
  fetch_outcome w t url = Ret (p, d) -> p = TileFile (tz t) (tx t) (ty t).
Proof.
  unfold fetch_outcome.
  destruct (session_get w url t) as [r|]; [|discriminate].
  destruct (raise_for_status r) as [[]|]; [|discriminate].
  destruct (image_open w (content r)) as [img|]; [|discriminate].
  destruct (from_bounds _ _ _ _ _ _) as [tr|]; [|discriminate].
  destruct (write_fault w _); [discriminate|]. intros H. now inversion H.
Qed.

Lemma stored_tiles_lookup (w : World) (url : string) (ts : list Tile)
      (p : path) (d : Dataset) :
  forall files,
    files !! p = Some d \/
    (exists t, In t ts /\ fetch_outcome w t url = Ret (p, d)) ->
    (forall t d', In t ts -> fetch_outcome w t url = Ret (p, d') -> d' = d) ->
    stored_tiles w url ts files !! p = Some d.
Proof.
  induction ts as [|t ts IH]; intros files H Huniq.
  - destruct H as [H|(t & [] & _)]. exact H.
  - unfold stored_tiles. cbn [fold_left]. apply IH.
    + destruct (fetch_outcome w t url) as [[p' d']|e] eqn:E.
      * cbn [fst snd]. destruct (decide (p' = p)) as [->|Hne].
        -- left. rewrite lookup_insert_eq.
           now rewrite (Huniq t d' (or_introl eq_refl) E).
        -- destruct H as [H|(t' & [<-|Hin] & Ht')].
           ++ left. now rewrite lookup_insert_ne.
           ++ rewrite E in Ht'. inversion Ht'. congruence.
           ++ right. exists t'. split; assumption.
      * destruct H as [H|(t' & [<-|Hin] & Ht')].
        -- now left.
        -- rewrite E in Ht'. discriminate.
        -- right. exists t'. split; assumption.
    + intros t' d' Hin. apply Huniq. now right.
Qed.

End PipelineFacts.

Module PipelineClaims.

Import Mercantile Rasterio Planet Notions PipelineNotions FetchClaims PipelineFacts.
Local Open Scope Z_scope.

Lemma main_spec (w : World) (args : Args) (st : St) (b0 b1 b2 b3 : Q) :
  total_bounds args = (b0, b1, b2, b3) ->
  let ts := tiles (merc_y w) b0 b1 b2 b3 (zoom args) in
  let url := TMS_URL args in
  let paths := collect_paths w (map (fetched w url) ts) in
  let st1 := mkSt (stored_tiles w url ts (fs st))
                  (stdout st ++ TotalTiles (length ts) :: failure_log w url ts) in
  main w args st =
  match paths with
  | [] => (Ret tt, cleanup (say st1 NoImagesDownloaded))
  | _ :: _ =>
      match merge_in_batches w paths 500 (say st1 MergingTiles) with
      | (Ret mt, st3) =>
          match gtiff_of (fst mt) (snd mt) with
          | Ret d =>
              match write_fault w (OUTPUT_GEOTIFF args) with
              | None =>
                  (Ret tt,
                   cleanup (say (mkSt (<[OUTPUT_GEOTIFF args := d]> (fs st3))
                                      (stdout st3))
                                (SavedOutput (OUTPUT_GEOTIFF args))))
              | Some e => (Ret tt, cleanup (say st3 (ErrorDuringMergingOrSaving e)))
              end
          | Raise e => (Ret tt, cleanup (say st3 (ErrorDuringMergingOrSaving e)))
          end
      | (Raise e, st3) => (Ret tt, cleanup (say st3 (ErrorDuringMergingOrSaving e)))
      end
  end.
Proof.
  intros Hb ts url paths st1. unfold main. rewrite Hb.
  unfold bind at 1. unfold print at 1. simpl.
  unfold with_tmpdir, bind at 1. rewrite submit_all_spec. simpl.
  fold ts url. fold paths.
  unfold say, st1, cleanup. simpl. rewrite <- app_assoc. simpl.
  destruct paths as [|p ps]; [reflexivity|].
  unfold bind at 1, print at 1. simpl.
  unfold try_except, bind at 1.
  rewrite <- app_assoc. simpl.
  destruct (merge_in_batches w (p :: ps) 500 _) as [[mt|e] st3]; [|reflexivity].
  unfold bind, lift. destruct (gtiff_of (fst mt) (snd mt)) as [d|e]; [|reflexivity].
  unfold rasterio_write.
  destruct (write_fault w (OUTPUT_GEOTIFF args)); reflexivity.
Qed.

Lemma omap_id_map {A B} (g : A -> option B) (l : list A) :
  omap id (map g l) = omap g l.
Proof.
  induction l as [|x l IH]; [reflexivity|].
  rewrite map_cons. cbn [omap list_omap]. rewrite <- IH. unfold id at 1.
  destruct (g x); reflexivity.
Qed.


Lemma cleanup_say_output (st : St) (m : Msg) (n : string) :
  fs (cleanup (say st m)) !! OutputFile n = fs st !! OutputFile n.
Proof. unfold cleanup, cleanup_tmpdir, say. simpl. apply cleanup_output. Qed.

Lemma cleanup_say_stdout (st : St) (m : Msg) :
  stdout (cleanup (say st m)) = stdout st ++ [m].
Proof. reflexivity. Qed.






Lemma In_take {A} (n : nat) (l : list A) (x : A) :
  In x (firstn n l) -> In x l.
Proof.
  revert l. induction n as [|n IH]; intros [|y l] H; simpl in *; try tauto.
  destruct H as [H|H]; [now left|right; now apply IH].
Qed.

Lemma In_drop {A} (n : nat) (l : list A) (x : A) :
  In x (skipn n l) -> In x l.
Proof.
  revert l. induction n as [|n IH]; intros [|y l] H; simpl in *; try tauto.
  right. now apply IH.
Qed.

Lemma slice_In {A} (l : list A) (i n : Z) (x : A) :
  In x (slice l i n) -> In x l.
Proof.
  unfold slice. intros H. eapply In_drop, In_take, H.
Qed.






End PipelineClaims.

Module ArrayFacts.

Import Rasterio MergeNotions.
Local Open Scope nat_scope.

Lemma nth_map_seq {A} (g : nat -> A) (n k : nat) (dflt : A) :
  k < n -> nth k (map g (seq 0 n)) dflt = g k.
Proof.
  intros H. rewrite (nth_indep _ dflt (g 0)) by (rewrite length_map, length_seq; lia).
  rewrite map_nth. rewrite seq_nth by lia. reflexivity.
Qed.

Lemma get3_tabulate3 (n h w : nat) (g : nat -> nat -> nat -> Z) (b r c : nat) :
  b < n -> r < h -> c < w -> get3 (tabulate3 n h w g) b r c = g b r c.
Proof.
  intros Hb Hr Hc. unfold get3, tabulate3.
  rewrite (nth_map_seq _ n b []) by assumption.
  rewrite (nth_map_seq _ h r []) by assumption.
  rewrite (nth_map_seq _ w c 0%Z) by assumption. reflexivity.
Qed.

Lemma map_seq_ext {A} (g g' : nat -> A) (n : nat) :
  (forall k, k < n -> g k = g' k) -> map g (seq 0 n) = map g' (seq 0 n).
Proof.
  intros H. apply map_ext_in. intros k Hk. apply in_seq in Hk. apply H. lia.
Qed.

Lemma tabulate3_ext (n h w : nat) (g g' : nat -> nat -> nat -> Z) :
  (forall b r c, b < n -> r < h -> c < w -> g b r c = g' b r c) ->
  tabulate3 n h w g = tabulate3 n h w g'.
Proof.
  intros H. unfold tabulate3.
  apply map_seq_ext. intros b Hb. apply map_seq_ext. intros r Hr.
  apply map_seq_ext. intros c Hc. now apply H.
Qed.

Lemma tabulate3_length (n h w : nat) (g : nat -> nat -> nat -> Z) :
  length (tabulate3 n h w g) = n.
Proof. unfold tabulate3. now rewrite length_map, length_seq. Qed.

Lemma paste_shape (pl : Placement) (src : Dataset) (dest : ndarray) :
  nd_count (paste pl src dest) = nd_count dest /\
  nd_height (paste pl src dest) = nd_height dest /\
  nd_width (paste pl src dest) = nd_width dest.
Proof. repeat split. Qed.

Lemma paste_all_shape (placed : list (Placement * Dataset)) (dest : ndarray) :
  nd_count (paste_all placed dest) = nd_count dest /\
  nd_height (paste_all placed dest) = nd_height dest /\
  nd_width (paste_all placed dest) = nd_width dest.
Proof.
  revert dest. induction placed as [|ps placed IH]; intros dest; [repeat split|].
  simpl. destruct (IH (paste (fst ps) (snd ps) dest)) as (H1 & H2 & H3).
  repeat split; assumption.
Qed.

Lemma paste_get (pl : Placement) (src : Dataset) (dest : ndarray) (b r c : nat) :
  b < nd_count dest -> r < nd_height dest -> c < nd_width dest ->
  get3 (nd_data (paste pl src dest)) b r c =
  let old := get3 (nd_data dest) b r c in
  if (old =? 0)%Z
  then match region_sample pl src b r c with
       | Some v => v
       | None => old
       end
  else old.
Proof.
  intros Hb Hr Hc. unfold paste, mk_ndarray. simpl.
  rewrite get3_tabulate3 by assumption. unfold region_sample.
  destruct ((0 <=? Z.of_nat r - pl_roff pl)%Z && (Z.of_nat r - pl_roff pl <? pl_height pl)%Z
            && (0 <=? Z.of_nat c - pl_coff pl)%Z
            && (Z.of_nat c - pl_coff pl <? pl_width pl)%Z) eqn:E;
    destruct (get3 (nd_data dest) b r c =? 0)%Z eqn:E0; simpl; try reflexivity.
Qed.

(** The loop of [merge] at one pixel: a sample that is already non-zero
    stays; an empty one takes the first non-zero sample offered. *)
Lemma paste_all_get (placed : list (Placement * Dataset)) (dest : ndarray)
      (b r c : nat) :
  b < nd_count dest -> r < nd_height dest -> c < nd_width dest ->
  get3 (nd_data (paste_all placed dest)) b r c =
  if (get3 (nd_data dest) b r c =? 0)%Z
  then first_wins placed b r c
  else get3 (nd_data dest) b r c.
Proof.
  revert dest. induction placed as [|ps placed IH]; intros dest Hb Hr Hc.
  - simpl. destruct (get3 (nd_data dest) b r c =? 0)%Z eqn:E; [|reflexivity].
    now apply Z.eqb_eq in E.
  - simpl. rewrite IH by (apply paste_shape || assumption).
    rewrite paste_get by assumption. cbv zeta.
    destruct (get3 (nd_data dest) b r c =? 0)%Z eqn:E0.
    + destruct (region_sample (fst ps) (snd ps) b r c) as [v|].
      * destruct (v =? 0)%Z eqn:Ev; reflexivity.
      * rewrite E0. reflexivity.
    + rewrite E0. reflexivity.
Qed.

End ArrayFacts.

Module CompositeClaims.

Import Rasterio MergeNotions ArrayFacts.
Local Open Scope nat_scope.

Lemma paste_all_map (P : Dataset -> Placement) (ds : list Dataset)
      (dest : ndarray) :
  paste_all (map (fun src => (P src, src)) ds) dest
  = fold_left (fun dest src => paste (P src) src dest) ds dest.
Proof.
  revert dest. induction ds as [|d ds IH]; intros dest; [reflexivity|].
  simpl. apply IH.
Qed.

(** A successful [merge] is the loop over its placements, started from
    an array of zeros with the count of the first source. *)
Lemma merge_Ret (ds : list Dataset) (arr : ndarray) (tr : Affine) :
  merge ds = Ret (arr, tr) ->
  exists h w first,
    head ds = Some first /\
    arr = paste_all (merge_placements ds)
                    (mk_ndarray (ds_count first) h w (fun _ _ _ => 0%Z)).
Proof.
  destruct ds as [|first rest]; [discriminate|].
  unfold merge, merge_placements.
  destruct (Qeq_bool (fst (ds_res first)) 0 || Qeq_bool (snd (ds_res first)) 0);
    [discriminate|].
  intros H. inversion H; subst; clear H.
  eexists; eexists; exists first. split; [reflexivity|].
  rewrite paste_all_map. reflexivity.
Qed.

Lemma merge_pixel (ds : list Dataset) (arr : ndarray) (tr : Affine)
      (b r c : nat) :
  merge ds = Ret (arr, tr) ->
  b < nd_count arr -> r < nd_height arr -> c < nd_width arr ->
  get3 (nd_data arr) b r c = first_wins (merge_placements ds) b r c.
Proof.
  intros Hm Hb Hr Hc.
  destruct (merge_Ret ds arr tr Hm) as (h & w & first & _ & E).
  set (dest0 := mk_ndarray (ds_count first) h w (fun _ _ _ => 0%Z)) in *.
  destruct (paste_all_shape (merge_placements ds) dest0) as (S1 & S2 & S3).
  rewrite <- E in S1, S2, S3.
  rewrite E, paste_all_get by lia.
  unfold dest0 at 1. simpl. rewrite get3_tabulate3; [reflexivity|..];
    unfold dest0 in *; simpl in *; lia.
Qed.

Lemma first_wins_hit (pre post : list (Placement * Dataset))
      (ps : Placement * Dataset) (b r c : nat) (v : Z) :
  region_sample (fst ps) (snd ps) b r c = Some v -> v <> 0%Z ->
  (forall q, In q pre -> leaves_empty q b r c) ->
  first_wins (pre ++ ps :: post) b r c = v.
Proof.
  intros Hv Hnz. induction pre as [|q pre IH]; intros Hpre; simpl.
  - rewrite Hv. apply Z.eqb_neq in Hnz. now rewrite Hnz.
  - destruct (Hpre q (or_introl eq_refl)) as [E|E]; rewrite E; simpl;
      apply IH; intros q' Hq'; apply Hpre; now right.
Qed.

Lemma first_wins_empty (placed : list (Placement * Dataset)) (b r c : nat) :
  (forall q, In q placed -> leaves_empty q b r c) ->
  first_wins placed b r c = 0%Z.
Proof.
  induction placed as [|q placed IH]; intros H; [reflexivity|]. simpl.
  destruct (H q (or_introl eq_refl)) as [E|E]; rewrite E; simpl;
    apply IH; intros q' Hq'; apply H; now right.
Qed.

(** C2, as stated, fails: two tiles cover the same single pixel; the
    first has the sample (0, 5, 7), the second (9, 9, 9); the merged
    pixel is (9, 5, 7), whose first band is the later tile's value, and
    which is the pixel of neither tile. *)
Lemma later_tile_overwrites_black_sample :
  exists arr tr,
    merge [Demo.tile_a; Demo.tile_b] = Ret (arr, tr) /\
    nd_data arr = [[[9%Z]]; [[5%Z]]; [[7%Z]]] /\
    nd_data arr <> ds_bands Demo.tile_a /\
    get3 (nd_data arr) 0 0 0 = get3 (ds_bands Demo.tile_b) 0 0 0.
Proof.
  eexists; eexists. split; [vm_compute; reflexivity|].
  simpl. repeat split. discriminate.
Qed.

(** C2 (amended): for every merge input sequence, every output pixel
    and every band, the output sample is the sample of the first tile in
    input order that covers the pixel with a non-zero sample in that
    band (0 is the empty value, the tiles declaring no nodata), and 0
    when no tile does; a later tile never replaces a non-zero sample,
    and the result is one of the input samples, never an average. *)
Theorem merge_first_nonzero_wins (ds : list Dataset) (arr : ndarray)
        (tr : Affine) (b r c : nat) :
  merge ds = Ret (arr, tr) ->
  b < nd_count arr -> r < nd_height arr -> c < nd_width arr ->
  (forall pre ps post v,
      merge_placements ds = pre ++ ps :: post ->
      region_sample (fst ps) (snd ps) b r c = Some v -> v <> 0%Z ->
      (forall q, In q pre -> leaves_empty q b r c) ->
      get3 (nd_data arr) b r c = v) /\
  ((forall q, In q (merge_placements ds) -> leaves_empty q b r c) ->
   get3 (nd_data arr) b r c = 0%Z).
Proof.
  intros Hm Hb Hr Hc.
  rewrite (merge_pixel ds arr tr b r c Hm Hb Hr Hc). split.
  - intros pre ps post v E Hv Hnz Hpre. rewrite E.
    now apply first_wins_hit.
  - apply first_wins_empty.
Qed.

Lemma merge_first_nonzero_wins_witness :
  exists arr tr,
    merge [Demo.tile_a; Demo.tile_b] = Ret (arr, tr) /\
    get3 (nd_data arr) 1 0 0 = 5%Z.
Proof.
  assert (Hm : merge [Demo.tile_a; Demo.tile_b]
               = Ret (mkArray 3 1 1 [[[9%Z]]; [[5%Z]]; [[7%Z]]],
                      mkAffine 1 0 0 0 (-1) 0))
    by (vm_compute; reflexivity).
  eexists; eexists. split; [exact Hm|].
  destruct (merge_first_nonzero_wins _ _ _ 1 0 0 Hm) as [H _];
    [simpl; lia..|].
  apply (H [] (mkPlacement 0 0 1 1, Demo.tile_a)
           [(mkPlacement 0 0 1 1, Demo.tile_b)] 5%Z).
  - vm_compute. reflexivity.
  - vm_compute. reflexivity.
  - discriminate.
  - intros q [].
Defined.

End CompositeClaims.

Module RoundingFacts.

Import Rasterio MergeNotions TileIndexFacts.
Local Open Scope Q_scope.

Lemma Qfloor_unique (q : Q) (k : Z) :
  inject_Z k <= q -> q < inject_Z (k + 1) -> Qfloor q = k.
Proof.
  intros H1 H2. apply Z.le_antisymm.
  - pose proof (Qfloor_lt_Z q (k + 1) H2). lia.
  - rewrite <- (Qfloor_Z k). now apply Qfloor_resp_le.
Qed.

Lemma inject_Z_succ (k : Z) : inject_Z (k + 1) == inject_Z k + 1.
Proof. rewrite inject_Z_plus. reflexivity. Qed.

Lemma inject_Z_sub (a b : Z) : inject_Z (a - b) == inject_Z a - inject_Z b.
Proof.
  unfold Z.sub. rewrite inject_Z_plus, inject_Z_opp. reflexivity.
Qed.

Lemma round_offset_Z (q : Q) (k : Z) : q == inject_Z k -> round_offset q = k.
Proof.
  intros H. unfold round_offset. apply Qfloor_unique.
  - rewrite H. lra.
  - rewrite H, inject_Z_succ. lra.
Qed.

Lemma round_length_Z (q : Q) (k : Z) : q == inject_Z k -> round_length q = k.
Proof.
  intros H. unfold round_length. apply Qfloor_unique.
  - rewrite H. lra.
  - rewrite H, inject_Z_succ. lra.
Qed.

Lemma py_round_Z (q : Q) (k : Z) : q == inject_Z k -> py_round q = k.
Proof.
  intros H. unfold py_round.
  assert (E : Qfloor q = k) by (rewrite H; apply Qfloor_Z).
  rewrite E.
  assert (Hc : Qcompare (q - inject_Z k) (1 # 2) = Lt)
    by (apply (proj1 (Qlt_alt _ _)); rewrite H; lra).
  rewrite Hc. reflexivity.
Qed.

Lemma Qfloor_half (k : Z) : Qfloor (inject_Z k + (1 # 2)) = k.
Proof.
  apply Qfloor_unique; [lra|]. rewrite inject_Z_succ. lra.
Qed.

(** Reading a source at its own shape returns its own samples. *)
Lemma read_resampled_id (src : Dataset) (b : nat) (i j : Z) :
  (0 <= i < ds_height src)%Z -> (0 <= j < ds_width src)%Z ->
  read_resampled src (ds_height src) (ds_width src) b i j
  = get3 (ds_bands src) b (Z.to_nat i) (Z.to_nat j).
Proof.
  intros Hi Hj. unfold read_resampled.
  assert (Hh : ~ inject_Z (ds_height src) == 0).
  { intros H. unfold Qeq in H. simpl in H. lia. }
  assert (Hw : ~ inject_Z (ds_width src) == 0).
  { intros H. unfold Qeq in H. simpl in H. lia. }
  assert (E1 : (inject_Z i + (1 # 2)) * inject_Z (ds_height src)
               / inject_Z (ds_height src) == inject_Z i + (1 # 2))
    by (field; assumption).
  assert (E2 : (inject_Z j + (1 # 2)) * inject_Z (ds_width src)
               / inject_Z (ds_width src) == inject_Z j + (1 # 2))
    by (field; assumption).
  rewrite E1, E2, !Qfloor_half. reflexivity.
Qed.

(** Folding [Qmin]/[Qmax] over values [s + t * k] follows the fold of
    [Z.min]/[Z.max] over the [k]: in the same sense for a positive
    slope [t], in the opposite sense for a negative one. *)
Lemma onto_le (s t : Q) (p q : Q) (a b : Z) :
  0 < t -> onto s t p a -> onto s t q b -> (a <= b)%Z -> p <= q.
Proof.
  unfold onto. intros Ht Hp Hq Hab. rewrite Hp, Hq.
  rewrite Zle_Qle in Hab. nra.
Qed.

Lemma onto_ge (s t : Q) (p q : Q) (a b : Z) :
  t < 0 -> onto s t p a -> onto s t q b -> (a <= b)%Z -> q <= p.
Proof.
  unfold onto. intros Ht Hp Hq Hab. rewrite Hp, Hq.
  rewrite Zle_Qle in Hab. nra.
Qed.

Lemma Qmin_onto (s t p q : Q) (a b : Z) :
  0 < t -> onto s t p a -> onto s t q b -> onto s t (Qmin p q) (Z.min a b).
Proof.
  intros Ht Hp Hq. destruct (Z.le_ge_cases a b) as [H|H].
  - rewrite Z.min_l by assumption. unfold onto.
    rewrite Q.min_l; [exact Hp|]. eapply onto_le; eassumption.
  - rewrite Z.min_r by assumption. unfold onto.
    rewrite Q.min_r; [exact Hq|]. eapply onto_le; eassumption.
Qed.

Lemma Qmax_onto (s t p q : Q) (a b : Z) :
  0 < t -> onto s t p a -> onto s t q b -> onto s t (Qmax p q) (Z.max a b).
Proof.
  intros Ht Hp Hq. destruct (Z.le_ge_cases a b) as [H|H].
  - rewrite Z.max_r by assumption. unfold onto.
    rewrite Q.max_r; [exact Hq|]. eapply onto_le; eassumption.
  - rewrite Z.max_l by assumption. unfold onto.
    rewrite Q.max_l; [exact Hp|]. eapply onto_le; eassumption.
Qed.

Lemma Qmin_onto_neg (s t p q : Q) (a b : Z) :
  t < 0 -> onto s t p a -> onto s t q b -> onto s t (Qmin p q) (Z.max a b).
Proof.
  intros Ht Hp Hq. destruct (Z.le_ge_cases a b) as [H|H].
  - rewrite Z.max_r by assumption. unfold onto.
    rewrite Q.min_r; [exact Hq|]. eapply onto_ge; eassumption.
  - rewrite Z.max_l by assumption. unfold onto.
    rewrite Q.min_l; [exact Hp|]. eapply onto_ge; eassumption.
Qed.

Lemma Qmax_onto_neg (s t p q : Q) (a b : Z) :
  t < 0 -> onto s t p a -> onto s t q b -> onto s t (Qmax p q) (Z.min a b).
Proof.
  intros Ht Hp Hq. destruct (Z.le_ge_cases a b) as [H|H].
  - rewrite Z.min_l by assumption. unfold onto.
    rewrite Q.max_l; [exact Hp|]. eapply onto_ge; eassumption.
  - rewrite Z.min_r by assumption. unfold onto.
    rewrite Q.max_r; [exact Hq|]. eapply onto_ge; eassumption.
Qed.

Lemma fold_onto (s t : Q) (opq : Q -> Q -> Q) (opz : Z -> Z -> Z) :
  (forall p q a b, onto s t p a -> onto s t q b -> onto s t (opq p q) (opz a b)) ->
  forall (xs : list Q) (ks : list Z) (q0 : Q) (k0 : Z),
    Forall2 (onto s t) xs ks -> onto s t q0 k0 ->
    onto s t (fold_left opq xs q0) (fold_left opz ks k0).
Proof.
  intros Hop xs ks q0 k0 H. revert q0 k0.
  induction H as [|x k xs ks Hx Hxs IH]; intros q0 k0 H0; simpl; [assumption|].
  apply IH. now apply Hop.
Qed.

Lemma fold_min_le (l : list Z) (a : Z) :
  (fold_left Z.min l a <= a)%Z /\
  forall k, In k l -> (fold_left Z.min l a <= k)%Z.
Proof.
  revert a. induction l as [|x l IH]; intros a; simpl.
  - split; [lia|intros k []].
  - destruct (IH (Z.min a x)) as [H1 H2]. split; [lia|].
    intros k [<-|Hk]; [lia|now apply H2].
Qed.

Lemma fold_max_ge (l : list Z) (a : Z) :
  (a <= fold_left Z.max l a)%Z /\
  forall k, In k l -> (k <= fold_left Z.max l a)%Z.
Proof.
  revert a. induction l as [|x l IH]; intros a; simpl.
  - split; [lia|intros k []].
  - destruct (IH (Z.max a x)) as [H1 H2]. split; [lia|].
    intros k [<-|Hk]; [lia|now apply H2].
Qed.

(** The folds pick an element. *)
Lemma fold_min_In (l : list Z) (a : Z) :
  fold_left Z.min l a = a \/ In (fold_left Z.min l a) l.
Proof.
  revert a. induction l as [|x l IH]; intros a; simpl; [now left|].
  destruct (IH (Z.min a x)) as [H|H]; [|now right; right].
  rewrite H. destruct (Z.min_spec a x) as [[_ E]|[_ E]]; rewrite E; auto.
Qed.

Lemma fold_max_In (l : list Z) (a : Z) :
  fold_left Z.max l a = a \/ In (fold_left Z.max l a) l.
Proof.
  revert a. induction l as [|x l IH]; intros a; simpl; [now left|].
  destruct (IH (Z.max a x)) as [H|H]; [|now right; right].
  rewrite H. destruct (Z.max_spec a x) as [[_ E]|[_ E]]; rewrite E; auto.
Qed.

End RoundingFacts.

Module GridFacts.

Import Rasterio MergeNotions ArrayFacts CompositeClaims RoundingFacts.
Local Open Scope Q_scope.

Section OnGrid.

Variable G : Grid.
Hypothesis Hrx : 0 < g_rx G.
Hypothesis Hry : 0 < g_ry G.

Lemma left_onto (d : Dataset) (i j : Z) :
  on_grid G d i j -> onto (g_ox G) (g_rx G) (ds_left d) i.
Proof. intros (_ & _ & Hc & _). exact Hc. Qed.

Lemma right_onto (d : Dataset) (i j : Z) :
  on_grid G d i j -> onto (g_ox G) (g_rx G) (ds_right d) (i + ds_width d).
Proof.
  intros (Ha & _ & Hc & _). unfold onto, ds_right.
  rewrite Ha, Hc, inject_Z_plus. ring.
Qed.

Lemma top_onto (d : Dataset) (i j : Z) :
  on_grid G d i j -> onto (g_oy G) (- g_ry G) (ds_top d) j.
Proof. intros (_ & _ & _ & Hf). unfold onto, ds_top. rewrite Hf. ring. Qed.

Lemma bottom_onto (d : Dataset) (i j : Z) :
  on_grid G d i j -> onto (g_oy G) (- g_ry G) (ds_bottom d) (j + ds_height d).
Proof.
  intros (_ & He & _ & Hf). unfold onto, ds_bottom.
  rewrite He, Hf, inject_Z_plus. ring.
Qed.

Lemma edges_x (ds : list Dataset) (cells : list Cell) :
  cells_of G ds cells ->
  Forall2 (onto (g_ox G) (g_rx G))
          (flat_map (fun d => [ds_left d; ds_right d]) ds) (edge_cols cells).
Proof.
  induction 1 as [|d k ds cells [Hs Hg] _ IH]; simpl; [constructor|].
  constructor; [eapply left_onto; eassumption|].
  constructor; [rewrite Hs; eapply right_onto; eassumption|exact IH].
Qed.

Lemma edges_y (ds : list Dataset) (cells : list Cell) :
  cells_of G ds cells ->
  Forall2 (onto (g_oy G) (- g_ry G))
          (flat_map (fun d => [ds_bottom d; ds_top d]) ds) (edge_rows cells).
Proof.
  induction 1 as [|d k ds cells [Hs Hg] _ IH]; simpl; [constructor|].
  constructor; [rewrite Hs; eapply bottom_onto; eassumption|].
  constructor; [eapply top_onto; eassumption|exact IH].
Qed.

Lemma Hnry : - g_ry G < 0.
Proof. lra. Qed.

(** The four bounds of the output on the grid. *)
Lemma extent_onto (first : Dataset) (rest : list Dataset) (k : Cell)
      (ks : list Cell) :
  cells_of G (first :: rest) (k :: ks) ->
  let ds := first :: rest in
  let xs := flat_map (fun d => [ds_left d; ds_right d]) ds in
  let ys := flat_map (fun d => [ds_bottom d; ds_top d]) ds in
  onto (g_ox G) (g_rx G) (py_min (ds_left first) xs) (col_lo (k :: ks)) /\
  onto (g_ox G) (g_rx G) (py_max (ds_left first) xs) (col_hi (k :: ks)) /\
  onto (g_oy G) (- g_ry G) (py_min (ds_bottom first) ys) (row_hi (k :: ks)) /\
  onto (g_oy G) (- g_ry G) (py_max (ds_bottom first) ys) (row_lo (k :: ks)).
Proof.
  intros Hc ds xs ys.
  pose proof (edges_x _ _ Hc) as Hx. pose proof (edges_y _ _ Hc) as Hy.
  inversion Hc as [|? ? ? ? [Hs Hg] _]; subst.
  unfold py_min, py_max, col_lo, col_hi, row_lo, row_hi.
  repeat split.
  - apply (fold_onto _ _ Qmin Z.min); [intros; now apply Qmin_onto|exact Hx|].
    eapply left_onto; eassumption.
  - apply (fold_onto _ _ Qmax Z.max); [intros; now apply Qmax_onto|exact Hx|].
    eapply left_onto; eassumption.
  - apply (fold_onto _ _ Qmin Z.max);
      [intros; apply Qmin_onto_neg; [apply Hnry|assumption..]|exact Hy|].
    eapply bottom_onto; eassumption.
  - apply (fold_onto _ _ Qmax Z.min);
      [intros; apply Qmax_onto_neg; [apply Hnry|assumption..]|exact Hy|].
    eapply bottom_onto; eassumption.
Qed.

Lemma inject_Z_max0 (q : Q) (w : Z) :
  q == inject_Z w -> Qmax q 0 == inject_Z (Z.max w 0).
Proof.
  intros H. destruct (Z.le_ge_cases 0 w) as [Hw|Hw].
  - rewrite Z.max_l by assumption. rewrite Q.max_l; [exact H|].
    rewrite H. change 0 with (inject_Z 0). now rewrite <- Zle_Qle.
  - rewrite Z.max_r by assumption. rewrite Q.max_r; [reflexivity|].
    rewrite H. change 0 with (inject_Z 0). now rewrite <- Zle_Qle.
Qed.

(** The window [merge] computes for a source on the grid. *)
Lemma place_on_grid (dst_w dst_s dst_e dst_n : Q) (res : Q * Q)
      (src : Dataset) (i j I0 J0 I1 J1 : Z) :
  fst res == g_rx G -> snd res == g_ry G ->
  onto (g_ox G) (g_rx G) dst_w I0 -> onto (g_ox G) (g_rx G) dst_e I1 ->
  onto (g_oy G) (- g_ry G) dst_s J1 -> onto (g_oy G) (- g_ry G) dst_n J0 ->
  on_grid G src i j ->
  (I0 <= i)%Z -> (i + ds_width src <= I1)%Z ->
  (J0 <= j)%Z -> (j + ds_height src <= J1)%Z ->
  place dst_w dst_s dst_e dst_n res src
  = grid_placement I0 J0 (mkCell i j src).
Proof.
  intros Hr0 Hr1 Hw He Hs Hn Hg Hi0 Hi1 Hj0 Hj1.
  pose proof (left_onto _ _ _ Hg) as Hl. pose proof (right_onto _ _ _ Hg) as Hr.
  pose proof (top_onto _ _ _ Hg) as Ht. pose proof (bottom_onto _ _ _ Hg) as Hb.
  unfold place.
  set (int_w := if Qlt_le_dec dst_w (ds_left src) then ds_left src else dst_w).
  set (int_s := if Qlt_le_dec dst_s (ds_bottom src) then ds_bottom src else dst_s).
  set (int_e := if Qlt_le_dec (ds_right src) dst_e then ds_right src else dst_e).
  set (int_n := if Qlt_le_dec (ds_top src) dst_n then ds_top src else dst_n).
  assert (Ew : int_w == ds_left src).
  { unfold int_w. destruct (Qlt_le_dec dst_w (ds_left src)); [reflexivity|].
    apply Qle_antisym; [|assumption].
    eapply (onto_le (g_ox G) (g_rx G) _ _ I0 i); eassumption. }
  assert (Ee : int_e == ds_right src).
  { unfold int_e. destruct (Qlt_le_dec (ds_right src) dst_e); [reflexivity|].
    apply Qle_antisym; [assumption|].
    eapply (onto_le (g_ox G) (g_rx G) _ _ (i + ds_width src)%Z I1); eassumption. }
  assert (Es : int_s == ds_bottom src).
  { unfold int_s. destruct (Qlt_le_dec dst_s (ds_bottom src)); [reflexivity|].
    apply Qle_antisym; [|assumption].
    eapply (onto_ge (g_oy G) (- g_ry G) _ _ (j + ds_height src)%Z J1);
      [apply Hnry|eassumption..]. }
  assert (En : int_n == ds_top src).
  { unfold int_n. destruct (Qlt_le_dec (ds_top src) dst_n); [reflexivity|].
    apply Qle_antisym; [assumption|].
    eapply (onto_ge (g_oy G) (- g_ry G) _ _ J0 j); [apply Hnry|eassumption..]. }
  clearbody int_w int_s int_e int_n.
  unfold onto in *.
  assert (Hrx' : ~ g_rx G == 0) by lra.
  assert (Hry' : ~ g_ry G == 0) by lra.
  assert (C0 : (int_w - dst_w) / fst res == inject_Z (i - I0)).
  { rewrite Ew, Hl, Hw, Hr0.
    rewrite inject_Z_sub, ?inject_Z_plus. field. assumption. }
  assert (C1 : (int_e - dst_w) / fst res == inject_Z (i + ds_width src - I0)).
  { rewrite Ee, Hr, Hw, Hr0.
    rewrite inject_Z_sub, ?inject_Z_plus. field. assumption. }
  assert (R0 : (int_n - dst_n) / - snd res == inject_Z (j - J0)).
  { rewrite En, Ht, Hn, Hr1.
    rewrite inject_Z_sub, ?inject_Z_plus. field. assumption. }
  assert (R1 : (int_s - dst_n) / - snd res == inject_Z (j + ds_height src - J0)).
  { rewrite Es, Hb, Hn, Hr1.
    rewrite inject_Z_sub, ?inject_Z_plus. field. assumption. }
  assert (Wd : (int_e - dst_w) / fst res - (int_w - dst_w) / fst res
               == inject_Z (ds_width src)).
  { rewrite C0, C1. rewrite !inject_Z_sub, !inject_Z_plus. ring. }
  assert (Ht' : (int_s - dst_n) / - snd res - (int_n - dst_n) / - snd res
                == inject_Z (ds_height src)).
  { rewrite R0, R1. rewrite !inject_Z_sub, !inject_Z_plus. ring. }
  unfold grid_placement. simpl.
  rewrite (round_offset_Z _ _ R0), (round_offset_Z _ _ C0).
  rewrite (round_length_Z _ _ (inject_Z_max0 _ _ Ht')).
  rewrite (round_length_Z _ _ (inject_Z_max0 _ _ Wd)).
  f_equal; lia.
Qed.

End OnGrid.

End GridFacts.

Module GridMerge.

Import Rasterio MergeNotions ArrayFacts CompositeClaims RoundingFacts GridFacts.
Local Open Scope Z_scope.

Lemma region_cell (I0 J0 : Z) (k : Cell) (b r c : nat) :
  match region_sample (grid_placement I0 J0 k) (c_src k) b r c with
  | Some v => v
  | None => 0
  end = cell_sample k b (J0 + Z.of_nat r) (I0 + Z.of_nat c).
Proof.
  unfold region_sample, cell_sample, grid_placement. simpl.
  replace (Z.of_nat r - (c_j k - J0)) with (J0 + Z.of_nat r - c_j k) by lia.
  replace (Z.of_nat c - (c_i k - I0)) with (I0 + Z.of_nat c - c_i k) by lia.
  set (i := J0 + Z.of_nat r - c_j k). set (j := I0 + Z.of_nat c - c_i k).
  destruct (Z.leb_spec 0 i) as [Hi|Hi]; simpl; [|reflexivity].
  assert (E1 : (i <? Z.max (ds_height (c_src k)) 0) = (i <? ds_height (c_src k))).
  { destruct (Z.ltb_spec i (Z.max (ds_height (c_src k)) 0));
      destruct (Z.ltb_spec i (ds_height (c_src k))); try reflexivity; lia. }
  rewrite E1.
  destruct (Z.ltb_spec i (ds_height (c_src k))) as [Hi'|Hi']; simpl; [|reflexivity].
  destruct (Z.leb_spec 0 j) as [Hj|Hj]; simpl; [|reflexivity].
  assert (E2 : (j <? Z.max (ds_width (c_src k)) 0) = (j <? ds_width (c_src k))).
  { destruct (Z.ltb_spec j (Z.max (ds_width (c_src k)) 0));
      destruct (Z.ltb_spec j (ds_width (c_src k))); try reflexivity; lia. }
  rewrite E2.
  destruct (Z.ltb_spec j (ds_width (c_src k))) as [Hj'|Hj']; simpl; [|reflexivity].
  rewrite !Z.max_l by lia. apply read_resampled_id; lia.
Qed.

Lemma first_wins_grid (I0 J0 : Z) (cells : list Cell) (b r c : nat) :
  first_wins (map (fun k => (grid_placement I0 J0 k, c_src k)) cells) b r c
  = first_nonzero cells b (J0 + Z.of_nat r) (I0 + Z.of_nat c).
Proof.
  induction cells as [|k cells IH]; [reflexivity|]. simpl.
  rewrite <- region_cell, IH.
  destruct (region_sample (grid_placement I0 J0 k) (c_src k) b r c);
    reflexivity.
Qed.

Lemma paste_tabulated (pl : Placement) (src : Dataset) (dest : ndarray) :
  tabulated (paste pl src dest).
Proof.
  unfold tabulated, paste, mk_ndarray. simpl.
  apply tabulate3_ext. intros b r c Hb Hr Hc.
  now rewrite get3_tabulate3.
Qed.

Lemma paste_all_tabulated (placed : list (Placement * Dataset)) (dest : ndarray) :
  tabulated dest -> tabulated (paste_all placed dest).
Proof.
  revert dest. induction placed as [|ps placed IH]; intros dest H; [exact H|].
  simpl. apply IH. apply paste_tabulated.
Qed.

Lemma zeros_tabulated (n h w : nat) (g : nat -> nat -> nat -> Z) :
  tabulated (mk_ndarray n h w g).
Proof.
  unfold tabulated, mk_ndarray. simpl.
  apply tabulate3_ext. intros b r c Hb Hr Hc.
  now rewrite get3_tabulate3.
Qed.

(** A tabulated array is determined by its shape and its samples. *)
Lemma tabulated_eq (a : ndarray) (n h w : nat) (g : nat -> nat -> nat -> Z) :
  tabulated a -> nd_count a = n -> nd_height a = h -> nd_width a = w ->
  (forall b r c, (b < n)%nat -> (r < h)%nat -> (c < w)%nat ->
                 get3 (nd_data a) b r c = g b r c) ->
  a = mk_ndarray n h w g.
Proof.
  intros Ht Hn Hh Hw Hg. destruct a as [n' h' w' data].
  unfold tabulated in Ht. simpl in *. subst n' h' w'.
  unfold mk_ndarray. f_equal. rewrite Ht. now apply tabulate3_ext.
Qed.

Lemma edge_cols_In (cells : list Cell) (k : Cell) :
  In k cells ->
  In (c_i k) (edge_cols cells) /\
  In (c_i k + ds_width (c_src k)) (edge_cols cells).
Proof.
  intros H. unfold edge_cols. split; apply in_flat_map; exists k;
    (split; [assumption|simpl; tauto]).
Qed.

Lemma edge_rows_In (cells : list Cell) (k : Cell) :
  In k cells ->
  In (c_j k) (edge_rows cells) /\
  In (c_j k + ds_height (c_src k)) (edge_rows cells).
Proof.
  intros H. unfold edge_rows. split; apply in_flat_map; exists k;
    (split; [assumption|simpl; tauto]).
Qed.

(** Every cell lies inside the bounding box. *)
Lemma cell_in_box (cells : list Cell) (k : Cell) :
  In k cells ->
  col_lo cells <= c_i k /\ c_i k + ds_width (c_src k) <= col_hi cells /\
  row_lo cells <= c_j k /\ c_j k + ds_height (c_src k) <= row_hi cells.
Proof.
  intros H. destruct cells as [|k0 ks]; [destruct H|].
  destruct (edge_cols_In _ _ H) as [X1 X2].
  destruct (edge_rows_In _ _ H) as [Y1 Y2].
  unfold col_lo, col_hi, row_lo, row_hi.
  repeat split.
  - now apply fold_min_le.
  - now apply fold_max_ge.
  - now apply fold_min_le.
  - now apply fold_max_ge.
Qed.

Section OnGrid.

Variable G : Grid.
Hypothesis Hrx : (0 < g_rx G)%Q.
Hypothesis Hry : (0 < g_ry G)%Q.

Lemma placements_on_grid (dst_w dst_s dst_e dst_n : Q) (res : Q * Q)
      (I0 J0 I1 J1 : Z) (ds : list Dataset) (cells : list Cell) :
  (fst res == g_rx G)%Q -> (snd res == g_ry G)%Q ->
  onto (g_ox G) (g_rx G) dst_w I0 -> onto (g_ox G) (g_rx G) dst_e I1 ->
  onto (g_oy G) (- g_ry G) dst_s J1 -> onto (g_oy G) (- g_ry G) dst_n J0 ->
  cells_of G ds cells ->
  (forall c, In c cells ->
             I0 <= c_i c /\ c_i c + ds_width (c_src c) <= I1 /\
             J0 <= c_j c /\ c_j c + ds_height (c_src c) <= J1) ->
  map (fun src => (place dst_w dst_s dst_e dst_n res src, src)) ds
  = map (fun c => (grid_placement I0 J0 c, c_src c)) cells.
Proof.
  intros R0 R1 Xw Xe Ys Yn Hc.
  induction Hc as [|d c ds cs [Hs Hg] _ IH]; intros Hbox; [reflexivity|].
  simpl. f_equal.
  - destruct (Hbox c (or_introl eq_refl)) as (B1 & B2 & B3 & B4).
    rewrite Hs in B2, B4. f_equal; [|now rewrite Hs].
    rewrite (place_on_grid G Hrx Hry dst_w dst_s dst_e dst_n
               res d (c_i c) (c_j c) I0 J0 I1 J1
               R0 R1 Xw Xe Ys Yn Hg); try lia.
    unfold grid_placement. simpl. now rewrite Hs.
  - apply IH. intros c' Hc'. apply Hbox. now right.
Qed.

(** [merge] of rasters on a grid is the grid mosaic of their cells, and
    its transform puts the mosaic on the same grid at the corner of the
    bounding box. *)
Lemma merge_on_grid (first : Dataset) (rest : list Dataset) (cells : list Cell) :
  cells_of G (first :: rest) cells ->
  exists tr,
    merge (first :: rest) = Ret (grid_mosaic (ds_count first) cells, tr) /\
    (af_b tr == 0)%Q /\ (af_d tr == 0)%Q /\
    on_grid G (mkDataset tr 0 0 []) (col_lo cells) (row_lo cells).
Proof.
  intros Hc.
  destruct cells as [|k ks]; [inversion Hc|].
  destruct (extent_onto G Hrx Hry first rest k ks Hc) as (Xw & Xe & Ys & Yn).
  cbv zeta in Xw, Xe, Ys, Yn.
  assert (Hfirst : on_grid G first (c_i k) (c_j k))
    by (inversion Hc as [|? ? ? ? [_ H] _]; exact H).
  destruct Hfirst as (Ha & He & _).
  unfold merge.
  set (xs := flat_map (fun d => [ds_left d; ds_right d]) (first :: rest)) in *.
  set (ys := flat_map (fun d => [ds_bottom d; ds_top d]) (first :: rest)) in *.
  set (dst_w := py_min (ds_left first) xs) in *.
  set (dst_s := py_min (ds_bottom first) ys) in *.
  set (dst_e := py_max (ds_left first) xs) in *.
  set (dst_n := py_max (ds_bottom first) ys) in *.
  assert (R0 : (fst (ds_res first) == g_rx G)%Q) by exact Ha.
  assert (R1 : (snd (ds_res first) == g_ry G)%Q)
    by (unfold ds_res; simpl; rewrite He; ring).
  assert (Z0 : Qeq_bool (fst (ds_res first)) 0 = false).
  { destruct (Qeq_bool (fst (ds_res first)) 0) eqn:E; [|reflexivity].
    apply Qeq_bool_eq in E. rewrite R0 in E. lra. }
  assert (Z1 : Qeq_bool (snd (ds_res first)) 0 = false).
  { destruct (Qeq_bool (snd (ds_res first)) 0) eqn:E; [|reflexivity].
    apply Qeq_bool_eq in E. rewrite R1 in E. lra. }
  rewrite Z0, Z1. simpl orb. cbv iota.
  assert (Hrx' : ~ (g_rx G == 0)%Q) by lra.
  assert (Hry' : ~ (g_ry G == 0)%Q) by lra.
  assert (Ew : py_round ((dst_e - dst_w) / fst (ds_res first))
               = col_hi (k :: ks) - col_lo (k :: ks)).
  { apply py_round_Z. unfold onto in Xw, Xe. rewrite Xe, Xw, R0.
    rewrite inject_Z_sub. field. assumption. }
  assert (Eh : py_round ((dst_n - dst_s) / snd (ds_res first))
               = row_hi (k :: ks) - row_lo (k :: ks)).
  { apply py_round_Z. unfold onto in Ys, Yn. rewrite Ys, Yn, R1.
    rewrite inject_Z_sub. field. assumption. }
  rewrite Ew, Eh.
  eexists. split; [f_equal; f_equal|].
  - (* the array *)
    rewrite <- (paste_all_map
                  (place dst_w dst_s dst_e dst_n (ds_res first))).
    assert (Epl : map (fun src => (place dst_w dst_s dst_e dst_n (ds_res first) src, src))
                      (first :: rest)
                  = map (fun c => (grid_placement (col_lo (k :: ks))
                                                  (row_lo (k :: ks)) c, c_src c))
                        (k :: ks)).
    { apply (placements_on_grid _ _ _ _ _ _ _ (col_hi (k :: ks)) (row_hi (k :: ks)));
        try assumption.
      intros c Hin. now apply cell_in_box. }
    rewrite Epl.
    set (dest0 := mk_ndarray _ _ _ _).
    unfold grid_mosaic.
    destruct (paste_all_shape
                (map (fun c => (grid_placement (col_lo (k :: ks))
                                  (row_lo (k :: ks)) c, c_src c)) (k :: ks))
                dest0) as (S1 & S2 & S3).
    apply tabulated_eq.
    + apply paste_all_tabulated. apply zeros_tabulated.
    + rewrite S1. reflexivity.
    + rewrite S2. reflexivity.
    + rewrite S3. reflexivity.
    + intros b r c Hb Hr Hcc.
      rewrite paste_all_get by assumption.
      unfold dest0 at 1, mk_ndarray. cbn [nd_data].
      rewrite get3_tabulate3 by assumption. simpl Z.eqb. cbv iota.
      apply first_wins_grid.
  - (* the transform *)
    unfold onto in Xw, Yn.
    unfold on_grid, affine_mul, translation, scale, ds_res.
    cbn [af_a af_b af_c af_d af_e af_f ds_transform fst snd].
    split; [ring|]. split; [ring|]. split; [rewrite Ha; ring|].
    split; [rewrite He; ring|]. split; [rewrite Xw; ring|rewrite Yn; ring].
Qed.

End OnGrid.

End GridMerge.

Module BatchCells.

Import Rasterio MergeNotions ArrayFacts RoundingFacts GridMerge.
Local Open Scope Z_scope.

Lemma first_nonzero_app (l1 l2 : list Cell) (b : nat) (J I : Z) :
  first_nonzero (l1 ++ l2) b J I =
  if first_nonzero l1 b J I =? 0 then first_nonzero l2 b J I
  else first_nonzero l1 b J I.
Proof.
  induction l1 as [|k l1 IH]; [reflexivity|]. simpl.
  destruct (cell_sample k b J I =? 0) eqn:E; [exact IH|]. now rewrite E.
Qed.

Lemma cell_sample_outside (k : Cell) (b : nat) (J I : Z) :
  ~ (c_j k <= J < c_j k + ds_height (c_src k) /\
     c_i k <= I < c_i k + ds_width (c_src k)) ->
  cell_sample k b J I = 0.
Proof.
  intros H. unfold cell_sample.
  destruct (Z.leb_spec 0 (J - c_j k)); simpl; [|reflexivity].
  destruct (Z.ltb_spec (J - c_j k) (ds_height (c_src k))); simpl; [|reflexivity].
  destruct (Z.leb_spec 0 (I - c_i k)); simpl; [|reflexivity].
  destruct (Z.ltb_spec (I - c_i k) (ds_width (c_src k))); simpl; [|reflexivity].
  exfalso. apply H. lia.
Qed.

(** Outside the bounding box of the cells there is no sample. *)
Lemma first_nonzero_outside (L : list Cell) (b : nat) (J I : Z) :
  ~ (row_lo L <= J < row_hi L /\ col_lo L <= I < col_hi L) ->
  first_nonzero L b J I = 0.
Proof.
  intros H.
  assert (Hall : forall k, In k L -> cell_sample k b J I = 0).
  { intros k Hk. apply cell_sample_outside. intros [H1 H2]. apply H.
    pose proof (cell_in_box L k Hk). lia. }
  clear H. induction L as [|k L IH]; [reflexivity|]. simpl.
  rewrite (Hall k (or_introl eq_refl)). simpl.
  apply IH. intros k' Hk'. apply Hall. now right.
Qed.

Lemma col_extent_order (L : list Cell) : col_lo L <= col_hi L.
Proof.
  destruct L as [|k L]; [reflexivity|]. unfold col_lo, col_hi.
  pose proof (fold_min_le (edge_cols (k :: L)) (c_i k)).
  pose proof (fold_max_ge (edge_cols (k :: L)) (c_i k)). lia.
Qed.

Lemma row_extent_order (L : list Cell) : row_lo L <= row_hi L.
Proof.
  destruct L as [|k L]; [reflexivity|]. unfold row_lo, row_hi.
  pose proof (fold_min_le (edge_rows (k :: L)) (c_j k + ds_height (c_src k))).
  pose proof (fold_max_ge (edge_rows (k :: L)) (c_j k + ds_height (c_src k))).
  lia.
Qed.

Lemma batch_width (tL : Affine * list Cell) :
  ds_width (batch_dataset tL) = col_hi (snd tL) - col_lo (snd tL).
Proof. simpl. pose proof (col_extent_order (snd tL)). lia. Qed.

Lemma batch_height (tL : Affine * list Cell) :
  ds_height (batch_dataset tL) = row_hi (snd tL) - row_lo (snd tL).
Proof. simpl. pose proof (row_extent_order (snd tL)). lia. Qed.

(** In the second-level merge a batch mosaic offers, at every grid
    point, the sample its own tiles composed there. *)
Lemma cell_sample_batch (tL : Affine * list Cell) (b : nat) (J I : Z) :
  (b < 3)%nat ->
  cell_sample (batch_cell tL) b J I = first_nonzero (snd tL) b J I.
Proof.
  intros Hb. destruct tL as [t L]. unfold cell_sample.
  cbn [batch_cell c_i c_j c_src snd].
  rewrite batch_width, batch_height. cbn [snd].
  destruct (Z.leb_spec 0 (J - row_lo L)); simpl;
    [|symmetry; apply first_nonzero_outside; lia].
  destruct (Z.ltb_spec (J - row_lo L) (row_hi L - row_lo L)); simpl;
    [|symmetry; apply first_nonzero_outside; lia].
  destruct (Z.leb_spec 0 (I - col_lo L)); simpl;
    [|symmetry; apply first_nonzero_outside; lia].
  destruct (Z.ltb_spec (I - col_lo L) (col_hi L - col_lo L)); simpl;
    [|symmetry; apply first_nonzero_outside; lia].
  unfold grid_mosaic, mk_ndarray. cbn [nd_data].
  rewrite get3_tabulate3 by lia. f_equal; lia.
Qed.

Lemma first_nonzero_batches (tLs : list (Affine * list Cell)) (b : nat) (J I : Z) :
  (b < 3)%nat ->
  first_nonzero (map batch_cell tLs) b J I
  = first_nonzero (concat (map snd tLs)) b J I.
Proof.
  intros Hb. induction tLs as [|tL tLs IH]; [reflexivity|].
  simpl. rewrite first_nonzero_app, cell_sample_batch, IH by assumption.
  reflexivity.
Qed.

(** The extremes of the edges: bounds that are attained. *)
Lemma col_lo_spec (L : list Cell) :
  L <> [] ->
  In (col_lo L) (edge_cols L) /\ forall e, In e (edge_cols L) -> col_lo L <= e.
Proof.
  destruct L as [|k L]; [congruence|]. intros _. unfold col_lo. split.
  - destruct (fold_min_In (edge_cols (k :: L)) (c_i k)) as [E|E];
      [rewrite E; now left|exact E].
  - apply fold_min_le.
Qed.

Lemma col_hi_spec (L : list Cell) :
  L <> [] ->
  In (col_hi L) (edge_cols L) /\ forall e, In e (edge_cols L) -> e <= col_hi L.
Proof.
  destruct L as [|k L]; [congruence|]. intros _. unfold col_hi. split.
  - destruct (fold_max_In (edge_cols (k :: L)) (c_i k)) as [E|E];
      [rewrite E; now left|exact E].
  - apply fold_max_ge.
Qed.

Lemma row_lo_spec (L : list Cell) :
  L <> [] ->
  In (row_lo L) (edge_rows L) /\ forall e, In e (edge_rows L) -> row_lo L <= e.
Proof.
  destruct L as [|k L]; [congruence|]. intros _. unfold row_lo. split.
  - destruct (fold_min_In (edge_rows (k :: L)) (c_j k + ds_height (c_src k)))
      as [E|E]; [rewrite E; now left|exact E].
  - apply fold_min_le.
Qed.

Lemma row_hi_spec (L : list Cell) :
  L <> [] ->
  In (row_hi L) (edge_rows L) /\ forall e, In e (edge_rows L) -> e <= row_hi L.
Proof.
  destruct L as [|k L]; [congruence|]. intros _. unfold row_hi. split.
  - destruct (fold_max_In (edge_rows (k :: L)) (c_j k + ds_height (c_src k)))
      as [E|E]; [rewrite E; now left|exact E].
  - apply fold_max_ge.
Qed.

Lemma edge_cols_concat (Ls : list (list Cell)) (e : Z) :
  In e (edge_cols (concat Ls)) <-> exists L, In L Ls /\ In e (edge_cols L).
Proof.
  unfold edge_cols. rewrite in_flat_map. split.
  - intros (k & Hk & He). apply in_concat in Hk. destruct Hk as (L & HL & HkL).
    exists L. split; [assumption|]. apply in_flat_map. eauto.
  - intros (L & HL & He). apply in_flat_map in He. destruct He as (k & Hk & He).
    exists k. split; [|assumption]. apply in_concat. eauto.
Qed.

Lemma edge_rows_concat (Ls : list (list Cell)) (e : Z) :
  In e (edge_rows (concat Ls)) <-> exists L, In L Ls /\ In e (edge_rows L).
Proof.
  unfold edge_rows. rewrite in_flat_map. split.
  - intros (k & Hk & He). apply in_concat in Hk. destruct Hk as (L & HL & HkL).
    exists L. split; [assumption|]. apply in_flat_map. eauto.
  - intros (L & HL & He). apply in_flat_map in He. destruct He as (k & Hk & He).
    exists k. split; [|assumption]. apply in_concat. eauto.
Qed.

Lemma edge_cols_batches (tLs : list (Affine * list Cell)) (e : Z) :
  In e (edge_cols (map batch_cell tLs)) <->
  exists tL, In tL tLs /\ (e = col_lo (snd tL) \/ e = col_hi (snd tL)).
Proof.
  unfold edge_cols. rewrite in_flat_map. split.
  - intros (k & Hk & He). apply in_map_iff in Hk. destruct Hk as (tL & <- & HtL).
    exists tL. split; [assumption|].
    cbn [batch_cell c_i c_src] in He. rewrite batch_width in He.
    simpl in He. destruct He as [He|[He|[]]]; [left|right]; lia.
  - intros (tL & HtL & He). exists (batch_cell tL).
    split; [now apply in_map|].
    cbn [batch_cell c_i c_src]. rewrite batch_width. simpl.
    destruct He as [He|He]; [left|right; left]; lia.
Qed.

Lemma edge_rows_batches (tLs : list (Affine * list Cell)) (e : Z) :
  In e (edge_rows (map batch_cell tLs)) <->
  exists tL, In tL tLs /\ (e = row_lo (snd tL) \/ e = row_hi (snd tL)).
Proof.
  unfold edge_rows. rewrite in_flat_map. split.
  - intros (k & Hk & He). apply in_map_iff in Hk. destruct Hk as (tL & <- & HtL).
    exists tL. split; [assumption|].
    cbn [batch_cell c_j c_src] in He. rewrite batch_height in He.
    simpl in He. destruct He as [He|[He|[]]]; [right|left]; lia.
  - intros (tL & HtL & He). exists (batch_cell tL).
    split; [now apply in_map|].
    cbn [batch_cell c_j c_src]. rewrite batch_height. simpl.
    destruct He as [He|He]; [right; left|left]; lia.
Qed.

Section Extents.

Variable tLs : list (Affine * list Cell).
Hypothesis Hne : tLs <> [].
Hypothesis Hall : forall tL, In tL tLs -> snd tL <> [].

Lemma batches_nonempty : map batch_cell tLs <> [].
Proof. destruct tLs; [congruence|discriminate]. Qed.

Lemma concat_nonempty : concat (map snd tLs) <> [].
Proof.
  destruct tLs as [|tL rest]; [congruence|]. simpl.
  pose proof (Hall tL (or_introl eq_refl)) as H.
  destruct (snd tL); [congruence|discriminate].
Qed.

Lemma in_batches (L : list Cell) :
  In L (map snd tLs) -> exists tL, In tL tLs /\ snd tL = L.
Proof. intros H. apply in_map_iff in H. destruct H as (tL & E & H). eauto. Qed.

(** The batch mosaics span the bounding box of all the tiles. *)
Lemma col_lo_batches : col_lo (map batch_cell tLs) = col_lo (concat (map snd tLs)).
Proof.
  destruct (col_lo_spec _ batches_nonempty) as [A1 A2].
  destruct (col_lo_spec _ concat_nonempty) as [B1 B2].
  apply Z.le_antisymm.
  - apply edge_cols_concat in B1. destruct B1 as (L & HL & He).
    destruct (in_batches L HL) as (tL & HtL & <-).
    destruct (col_lo_spec _ (Hall tL HtL)) as [_ C].
    transitivity (col_lo (snd tL)); [|now apply C].
    apply A2. apply edge_cols_batches. eauto.
  - apply B2. apply edge_cols_batches in A1. destruct A1 as (tL & HtL & He).
    apply edge_cols_concat. exists (snd tL). split; [now apply in_map|].
    destruct He as [->| ->];
      [apply col_lo_spec|apply col_hi_spec]; now apply Hall.
Qed.

Lemma col_hi_batches : col_hi (map batch_cell tLs) = col_hi (concat (map snd tLs)).
Proof.
  destruct (col_hi_spec _ batches_nonempty) as [A1 A2].
  destruct (col_hi_spec _ concat_nonempty) as [B1 B2].
  apply Z.le_antisymm.
  - apply B2. apply edge_cols_batches in A1. destruct A1 as (tL & HtL & He).
    apply edge_cols_concat. exists (snd tL). split; [now apply in_map|].
    destruct He as [->| ->];
      [apply col_lo_spec|apply col_hi_spec]; now apply Hall.
  - apply edge_cols_concat in B1. destruct B1 as (L & HL & He).
    destruct (in_batches L HL) as (tL & HtL & <-).
    destruct (col_hi_spec _ (Hall tL HtL)) as [_ C].
    transitivity (col_hi (snd tL)); [now apply C|].
    apply A2. apply edge_cols_batches. eauto.
Qed.

Lemma row_lo_batches : row_lo (map batch_cell tLs) = row_lo (concat (map snd tLs)).
Proof.
  destruct (row_lo_spec _ batches_nonempty) as [A1 A2].
  destruct (row_lo_spec _ concat_nonempty) as [B1 B2].
  apply Z.le_antisymm.
  - apply edge_rows_concat in B1. destruct B1 as (L & HL & He).
    destruct (in_batches L HL) as (tL & HtL & <-).
    destruct (row_lo_spec _ (Hall tL HtL)) as [_ C].
    transitivity (row_lo (snd tL)); [|now apply C].
    apply A2. apply edge_rows_batches. eauto.
  - apply B2. apply edge_rows_batches in A1. destruct A1 as (tL & HtL & He).
    apply edge_rows_concat. exists (snd tL). split; [now apply in_map|].
    destruct He as [->| ->];
      [apply row_lo_spec|apply row_hi_spec]; now apply Hall.
Qed.

Lemma row_hi_batches : row_hi (map batch_cell tLs) = row_hi (concat (map snd tLs)).
Proof.
  destruct (row_hi_spec _ batches_nonempty) as [A1 A2].
  destruct (row_hi_spec _ concat_nonempty) as [B1 B2].
  apply Z.le_antisymm.
  - apply B2. apply edge_rows_batches in A1. destruct A1 as (tL & HtL & He).
    apply edge_rows_concat. exists (snd tL). split; [now apply in_map|].
    destruct He as [->| ->];
      [apply row_lo_spec|apply row_hi_spec]; now apply Hall.
  - apply edge_rows_concat in B1. destruct B1 as (L & HL & He).
    destruct (in_batches L HL) as (tL & HtL & <-).
    destruct (row_hi_spec _ (Hall tL HtL)) as [_ C].
    transitivity (row_hi (snd tL)); [now apply C|].
    apply A2. apply edge_rows_batches. eauto.
Qed.

(** Merging the batch mosaics gives the mosaic of all the tiles. *)
Lemma grid_mosaic_batches :
  grid_mosaic 3 (map batch_cell tLs) = grid_mosaic 3 (concat (map snd tLs)).
Proof.
  unfold grid_mosaic.
  rewrite col_lo_batches, col_hi_batches, row_lo_batches, row_hi_batches.
  unfold mk_ndarray. f_equal. apply tabulate3_ext.
  intros b r c Hb _ _. now apply first_nonzero_batches.
Qed.

End Extents.

End BatchCells.

Module Chunks.

Import Rasterio Planet PipelineNotions.
Local Open Scope Z_scope.

Lemma firstn_plus {A} (a b : nat) (l : list A) :
  firstn (a + b) l = firstn a l ++ firstn b (skipn a l).
Proof.
  revert l. induction a as [|a IH]; intros l; [reflexivity|].
  destruct l as [|x l]; simpl; [now rewrite firstn_nil|].
  now rewrite IH.
Qed.

Lemma chunks_concat {A} (n : nat) (l : list A) (K : nat) :
  concat (map (fun k => firstn n (skipn (k * n) l)) (seq 0 K))
  = firstn (K * n) l.
Proof.
  induction K as [|K IH]; [reflexivity|].
  rewrite seq_S, map_app, concat_app, IH. simpl.
  rewrite app_nil_r. replace (n + K * n)%nat with (K * n + n)%nat by lia.
  symmetry. apply firstn_plus.
Qed.

(** The slices taken by the loop of [merge_in_batches] partition the
    paths. *)
Lemma slices_concat {A} (l : list A) (bs : Z) (starts : list Z) :
  1 <= bs ->
  range_step (Z.of_nat (length l)) bs = Ret starts ->
  concat (map (fun i => slice l i bs) starts) = l.
Proof.
  intros Hbs. unfold range_step.
  destruct (Z.eqb_spec bs 0) as [?|_]; [lia|].
  destruct (Z.ltb_spec bs 0) as [?|_]; [lia|].
  intros Hret. inversion Hret; subst; clear Hret.
  rewrite map_map.
  set (K := Z.to_nat ((Z.of_nat (length l) + bs - 1) / bs)).
  rewrite (map_ext _ (fun k => firstn (Z.to_nat bs) (skipn (k * Z.to_nat bs) l))).
  - rewrite chunks_concat. apply firstn_all2.
    assert (Hk : Z.of_nat (length l) <= Z.of_nat K * bs).
    { unfold K. rewrite Z2Nat.id by (apply Z.div_pos; lia).
      pose proof (Z.mul_div_le (Z.of_nat (length l) + bs - 1) bs ltac:(lia)).
      pose proof (Z.mod_pos_bound (Z.of_nat (length l) + bs - 1) bs ltac:(lia)).
      pose proof (Z.div_mod (Z.of_nat (length l) + bs - 1) bs ltac:(lia)).
      nia. }
    nia.
  - intros k. unfold slice. f_equal. f_equal. nia.
Qed.

Lemma NoDup_map_inj {A B} (g : A -> B) (l : list A) :
  (forall a b, g a = g b -> a = b) -> List.NoDup l -> List.NoDup (map g l).
Proof.
  intros Hinj. induction 1 as [|x l Hx Hl IH]; simpl; constructor; [|exact IH].
  intros Hin. apply in_map_iff in Hin. destruct Hin as (y & Ey & Hy).
  apply Hinj in Ey. now subst.
Qed.

Lemma range_step_NoDup (stop bs : Z) (starts : list Z) :
  1 <= bs -> range_step stop bs = Ret starts -> List.NoDup starts.
Proof.
  intros Hbs. unfold range_step.
  destruct (Z.eqb_spec bs 0) as [?|_]; [lia|].
  destruct (Z.ltb_spec bs 0) as [?|_]; [lia|].
  intros Hret. inversion Hret; subst; clear Hret.
  apply NoDup_map_inj; [|apply seq_NoDup].
  intros a b Hab. nia.
Qed.

Lemma opened_app (files : gmap path Dataset) (l1 l2 : list path) :
  opened files (l1 ++ l2) = opened files l1 ++ opened files l2.
Proof. unfold opened. apply omap_app. Qed.

Lemma opened_concat (files : gmap path Dataset) (ls : list (list path)) :
  opened files (concat ls) = concat (map (opened files) ls).
Proof.
  induction ls as [|l ls IH]; [reflexivity|].
  simpl. now rewrite opened_app, IH.
Qed.

Lemma opened_In (files : gmap path Dataset) (paths : list path) (d : Dataset) :
  In d (opened files paths) -> exists p, In p paths /\ files !! p = Some d.
Proof.
  induction paths as [|p paths IH]; [intros []|].
  unfold opened in *. cbn [omap list_omap].
  destruct (files !! p) as [d'|] eqn:E.
  - intros [<-|H]; [exists p; split; [now left|assumption]|].
    destruct (IH H) as (q & Hq & Eq). exists q. split; [now right|assumption].
  - intros H. destruct (IH H) as (q & Hq & Eq).
    exists q. split; [now right|assumption].
Qed.

End Chunks.

Module BatchedMerge.

Import Rasterio Planet Notions PipelineNotions MergeNotions.
Import ArrayFacts PipelineFacts PipelineClaims GridMerge BatchCells Chunks.
Local Open Scope Z_scope.

Lemma open_all_snoc (scratch : gmap Z Dataset) (keys : list Z)
      (gs : list Dataset) (i : Z) (g : Dataset) :
  open_all scratch keys = Ret gs -> ~ In i keys ->
  open_all (<[i := g]> scratch) (keys ++ [i]) = Ret (gs ++ [g]).
Proof.
  revert gs. induction keys as [|k keys IH]; intros gs H Hi; simpl in *.
  - inversion H; subst. now rewrite lookup_insert_eq.
  - rewrite lookup_insert_ne by (intros E; apply Hi; now left).
    destruct (scratch !! k) as [d|]; [|discriminate].
    destruct (open_all scratch keys) as [ds|e] eqn:E; [|discriminate].
    inversion H; subst.
    rewrite (IH ds eq_refl) by (intros Hin; apply Hi; now right).
    reflexivity.
Qed.

Lemma cells_of_app (G : Grid) (ds1 ds2 : list Dataset) (c1 c2 : list Cell) :
  cells_of G ds1 c1 -> cells_of G ds2 c2 -> cells_of G (ds1 ++ ds2) (c1 ++ c2).
Proof. unfold cells_of. intros H1 H2. revert H2. induction H1; intros H2; simpl; [exact H2|]. constructor; auto. Qed.

Lemma cells_exist (G : Grid) (ds : list Dataset) :
  (forall d, In d ds -> exists i j, on_grid G d i j) ->
  exists cells, cells_of G ds cells.
Proof.
  induction ds as [|d ds IH]; intros H.
  - exists []. constructor.
  - destruct (H d (or_introl eq_refl)) as (i & j & Hg).
    destruct IH as [cells Hc]; [intros d' Hd'; apply H; now right|].
    exists (mkCell i j d :: cells). constructor; [split; [reflexivity|exact Hg]|exact Hc].
Qed.

Section Batched.

Variable w : World.
Variable paths : list path.
Variable bs : Z.
Variable G : Grid.
Variable files : gmap path Dataset.

Hypothesis Hrx : (0 < g_rx G)%Q.
Hypothesis Hry : (0 < g_ry G)%Q.
Hypothesis Hgrid :
  forall p d, In p paths -> files !! p = Some d ->
              (exists i j, on_grid G d i j) /\ ds_count d = 3%nat.
Hypothesis Hfault : forall i, scratch_fault w i = None.

Lemma chunk_facts (i : Z) :
  (exists cells, cells_of G (opened files (slice paths i bs)) cells) /\
  (forall d, In d (opened files (slice paths i bs)) -> ds_count d = 3%nat).
Proof.
  split.
  - apply cells_exist. intros d Hd. apply opened_In in Hd.
    destruct Hd as (p & Hp & E). apply slice_In in Hp.
    exact (proj1 (Hgrid p d Hp E)).
  - intros d Hd. apply opened_In in Hd.
    destruct Hd as (p & Hp & E). apply slice_In in Hp.
    exact (proj2 (Hgrid p d Hp E)).
Qed.

(** The loop keeps, for the batches written so far, their rasters in
    the scratch directory under distinct names, each the grid mosaic of
    its tiles. *)
Lemma batch_loop_grid (starts : list Z) :
  forall (keys : list Z) (scratch : gmap Z Dataset) (st : St)
         (tLs : list (Affine * list Cell)) (done : list Dataset),
    fs st = files -> List.NoDup starts ->
    (forall i, In i starts -> ~ In i keys) ->
    open_all scratch keys = Ret (map batch_dataset tLs) ->
    Forall (good_batch G) tLs ->
    cells_of G done (concat (map snd tLs)) ->
    exists keys' scratch' st' tLs',
      batch_loop w paths bs (keys, scratch) starts st
      = (Ret (keys', scratch'), st') /\
      open_all scratch' keys' = Ret (map batch_dataset tLs') /\
      Forall (good_batch G) tLs' /\
      cells_of G (done ++ concat (map (fun i => opened files (slice paths i bs))
                                      starts))
               (concat (map snd tLs')).
Proof.
  induction starts as [|i rest IH];
    intros keys scratch st tLs done Hfs Hnd Hfresh Hopen Hgood Hcells.
  - exists keys, scratch, st, tLs. simpl. rewrite app_nil_r. auto.
  - apply NoDup_cons_iff in Hnd. destruct Hnd as [Hi Hnd'].
    simpl batch_loop. unfold bind at 1. unfold batch_step, bind at 1.
    rewrite open_batch_spec, Hfs.
    destruct (chunk_facts i) as [[cells Hc] Hcount].
    destruct (opened files (slice paths i bs)) as [|first r] eqn:Eo.
    + unfold ret.
      match goal with |- context [batch_loop _ _ _ _ _ ?s] =>
        destruct (IH keys scratch s tLs done eq_refl Hnd'
                     (fun j Hj => Hfresh j (or_intror Hj)) Hopen Hgood Hcells)
          as (keys' & scratch' & st' & tLs' & H1 & H2 & H3 & H4)
      end.
      exists keys', scratch', st', tLs'. simpl. rewrite Eo. simpl. auto.
    + destruct (merge_on_grid G Hrx Hry first r cells Hc)
        as (tr & Hm & Hb & Hd & Hon).
      rewrite (Hcount first (or_introl eq_refl)) in Hm.
      unfold bind at 1, lift at 1. rewrite Hm.
      unfold bind at 1, lift at 1. cbn [fst snd gtiff_of grid_mosaic mk_ndarray nd_count Nat.eqb].
      rewrite Hfault. unfold ret. cbn [fst snd].
      assert (Hne : cells <> []) by (inversion Hc; discriminate).
      assert (Hg : good_batch G (tr, cells)).
      { split; [exact Hne|]. split; [exact Hon|]. split; assumption. }
      match goal with |- context [batch_loop _ _ _ _ _ ?s] =>
        destruct (IH (keys ++ [i])
                     (<[i := batch_dataset (tr, cells)]> scratch) s
                     (tLs ++ [(tr, cells)]) (done ++ first :: r) eq_refl Hnd')
          as (keys' & scratch' & st' & tLs' & H1 & H2 & H3 & H4)
      end.
      * intros j Hj Hin. apply in_app_or in Hin. destruct Hin as [Hin|[<-|[]]].
        -- exact (Hfresh j (or_intror Hj) Hin).
        -- exact (Hi Hj).
      * rewrite map_app. simpl. apply open_all_snoc; [exact Hopen|].
        apply Hfresh. now left.
      * apply Forall_app. split; [exact Hgood|]. constructor; [exact Hg|constructor].
      * rewrite map_app, concat_app. simpl. rewrite app_nil_r.
        now apply cells_of_app.
      * exists keys', scratch', st', tLs'.
        split; [exact H1|]. split; [exact H2|]. split; [exact H3|].
        simpl. rewrite Eo. rewrite <- app_assoc in H4. exact H4.
Qed.

Lemma batch_cells_of (tLs : list (Affine * list Cell)) :
  Forall (good_batch G) tLs ->
  cells_of G (map batch_dataset tLs) (map batch_cell tLs).
Proof.
  induction 1 as [|tL tLs (_ & Hon & _) _ IH]; simpl; constructor; [|exact IH].
  split; [reflexivity|exact Hon].
Qed.

Lemma on_grid_affine_eq (t1 t2 : Affine) (i j : Z) :
  on_grid G (mkDataset t1 0 0 []) i j -> on_grid G (mkDataset t2 0 0 []) i j ->
  (af_b t1 == 0)%Q -> (af_d t1 == 0)%Q -> (af_b t2 == 0)%Q -> (af_d t2 == 0)%Q ->
  affine_eq t1 t2.
Proof.
  intros (A1 & E1 & C1 & F1) (A2 & E2 & C2 & F2) B1 D1 B2 D2.
  simpl in *. unfold affine_eq.
  rewrite A1, A2, E1, E2, C1, C2, F1, F2, B1, B2, D1, D2.
  repeat split; reflexivity.
Qed.

Lemma merge_in_batches_grid (st : St) :
  fs st = files -> 1 <= bs ->
  exists r st',
    merge_in_batches w paths bs st = (r, st') /\
    same_mosaic r (merge (opened files paths)).
Proof.
  intros Hfs Hbs. unfold merge_in_batches.
  assert (Hr : exists starts,
             range_step (Z.of_nat (length paths)) bs = Ret starts).
  { unfold range_step. destruct (Z.eqb_spec bs 0); [lia|].
    destruct (Z.ltb_spec bs 0); [lia|]. eexists; reflexivity. }
  destruct Hr as [starts Hr].
  unfold bind at 1, lift at 1. rewrite Hr.
  destruct (batch_loop_grid starts [] ∅ st [] [] Hfs
              (range_step_NoDup _ _ _ Hbs Hr) (fun _ _ H => H) eq_refl
              (List.Forall_nil _) (List.Forall2_nil _))
    as (keys & scratch & st1 & tLs & H1 & H2 & H3 & H4).
  unfold bind at 1. rewrite H1.
  unfold bind at 1, print at 1. unfold bind at 1, lift at 1.
  cbn [fst snd]. rewrite H2. unfold lift.
  eexists; eexists. split; [reflexivity|].
  simpl app in H4.
  rewrite <- (map_map (fun i => slice paths i bs) (opened files)) in H4.
  rewrite <- opened_concat, (slices_concat paths bs starts Hbs Hr) in H4.
  destruct tLs as [|tL tLs].
  - simpl in *. inversion H4. reflexivity.
  - set (all := opened files paths) in *.
    assert (Hall : forall x, In x (tL :: tLs) -> snd x <> []).
    { intros x Hx. rewrite List.Forall_forall in H3. exact (proj1 (H3 x Hx)). }
    assert (Hne : tL :: tLs <> []) by discriminate.
    pose proof (batch_cells_of _ H3) as Hc'.
    destruct (merge_on_grid G Hrx Hry (batch_dataset tL) (map batch_dataset tLs)
                (map batch_cell (tL :: tLs)) Hc')
      as (tr' & Hm' & Hb' & Hd' & Hon').
    change (map batch_dataset (tL :: tLs))
      with (batch_dataset tL :: map batch_dataset tLs).
    rewrite Hm'.
    destruct all as [|first rest] eqn:Eall.
    { inversion H4 as [E1 E2|]. exfalso.
      exact (concat_nonempty _ Hne Hall (eq_sym E2)). }
    destruct (merge_on_grid G Hrx Hry first rest _ H4)
      as (tr & Hm & Hb & Hd & Hon).
    rewrite Hm.
    assert (Hcount : ds_count first = 3%nat).
    { assert (Hin : In first (opened files paths))
        by (fold all; rewrite Eall; now left).
      apply opened_In in Hin. destruct Hin as (p & Hp & E).
      exact (proj2 (Hgrid p first Hp E)). }
    rewrite Hcount.
    assert (Hc3 : ds_count (batch_dataset tL) = 3%nat).
    { unfold ds_count, batch_dataset, grid_mosaic, mk_ndarray.
      cbn [ds_bands nd_data]. apply tabulate3_length. }
    rewrite Hc3. simpl same_mosaic.
    split.
    + apply (grid_mosaic_batches _ Hne Hall).
    + rewrite (col_lo_batches _ Hne Hall), (row_lo_batches _ Hne Hall) in Hon'.
      now apply (on_grid_affine_eq tr' tr _ _ Hon' Hon).
Qed.

End Batched.

(** C1, as stated, fails: on rasters that share no pixel grid (pixels
    of different heights, as the tiles of different rows have them) two
    batches of two do not give the mosaic of one batch of four, nor that
    of a single merge.  The mosaic of a batch takes the pixel size of
    the batch's first raster and a whole number of rows, so it does not
    end where its rasters end, and the final merge sees other bounds:
    here one row instead of two. *)
Lemma batches_differ_off_grid :
  exists m1 t1 m2 t2 m4 t4,
    merge (opened (fs OffGrid.tiles_on_disk) OffGrid.paths) = Ret (m1, t1) /\
    fst (merge_in_batches Demo.world OffGrid.paths 2 OffGrid.tiles_on_disk)
    = Ret (m2, t2) /\
    fst (merge_in_batches Demo.world OffGrid.paths 4 OffGrid.tiles_on_disk)
    = Ret (m4, t4) /\
    nd_height m1 = 2%nat /\ nd_height m4 = 2%nat /\ nd_height m2 = 1%nat /\
    ~ same_mosaic (Ret (m2, t2)) (Ret (m1, t1)) /\
    ~ same_mosaic (Ret (m2, t2)) (Ret (m4, t4)).
Proof.
  do 6 eexists.
  split; [vm_compute; reflexivity|].
  split; [vm_compute; reflexivity|].
  split; [vm_compute; reflexivity|].
  split; [reflexivity|]. split; [reflexivity|]. split; [reflexivity|].
  split; intros [H _]; discriminate H.
Qed.

(** C1 (amended): on rasters that share a pixel grid (one pixel size,
    corners on grid points) and have three bands, with a reliable
    scratch directory, [merge_in_batches paths batch_size] gives for
    every [batch_size >= 1] the same mosaic as one merge of all the
    rasters that can be opened: the same array, pixel for pixel, and the
    same transform, or the same exception when none can be opened.  With
    four tiles and [batch_size = 2] this is the equality of one batch of
    four with two batches of two, for any overlap of rasters on the
    grid. *)
Theorem merge_in_batches_is_single_merge (w : World) (paths : list path)
        (bs : Z) (G : Grid) (st : St) :
  1 <= bs ->
  (0 < g_rx G)%Q -> (0 < g_ry G)%Q ->
  (forall p d, In p paths -> fs st !! p = Some d ->
               (exists i j, on_grid G d i j) /\ ds_count d = 3%nat) ->
  (forall i, scratch_fault w i = None) ->
  exists r st',
    merge_in_batches w paths bs st = (r, st') /\
    same_mosaic r (merge (opened (fs st) paths)).
Proof.
  intros Hbs Hrx Hry Hgrid Hfault.
  exact (merge_in_batches_grid w paths bs G (fs st) Hrx Hry Hgrid Hfault st
                               eq_refl Hbs).
Qed.

End BatchedMerge.

Module SingleBatch.

Import Rasterio Planet Notions PipelineNotions MergeNotions.
Import ArrayFacts CompositeClaims PipelineFacts PipelineClaims GridMerge
       BatchCells Chunks BatchedMerge.
Local Open Scope Z_scope.

(** [merge] succeeds on rasters whose first has a positive pixel size;
    its array is well shaped and its transform keeps that pixel size. *)
Lemma merge_succeeds (first : Dataset) (rest : list Dataset) :
  (0 < af_a (ds_transform first))%Q -> (af_e (ds_transform first) < 0)%Q ->
  exists m t,
    merge (first :: rest) = Ret (m, t) /\
    tabulated m /\ nd_count m = ds_count first /\
    (af_a t == af_a (ds_transform first))%Q /\
    (af_e t == af_e (ds_transform first))%Q /\
    (af_b t == 0)%Q /\ (af_d t == 0)%Q.
Proof.
  intros Ha He. unfold merge.
  assert (Z0 : Qeq_bool (fst (ds_res first)) 0 = false).
  { destruct (Qeq_bool (fst (ds_res first)) 0) eqn:E; [|reflexivity].
    apply Qeq_bool_eq in E. unfold ds_res in E. simpl in E. lra. }
  assert (Z1 : Qeq_bool (snd (ds_res first)) 0 = false).
  { destruct (Qeq_bool (snd (ds_res first)) 0) eqn:E; [|reflexivity].
    apply Qeq_bool_eq in E. unfold ds_res in E. simpl in E. lra. }
  rewrite Z0, Z1. simpl orb. cbv iota.
  set (arr := fold_left _ _ _). set (tr := affine_mul _ _).
  assert (Hm : merge (first :: rest) = Ret (arr, tr))
    by (unfold merge; rewrite Z0, Z1; reflexivity).
  exists arr, tr. split; [reflexivity|].
  destruct (merge_Ret _ _ _ Hm) as (h & w & f & Hf & Earr).
  simpl in Hf. inversion Hf; subst f; clear Hf.
  destruct (paste_all_shape (merge_placements (first :: rest))
              (mk_ndarray (ds_count first) h w (fun _ _ _ => 0)))
    as (S1 & _).
  split; [rewrite Earr; apply paste_all_tabulated, zeros_tabulated|].
  split; [rewrite Earr; exact S1|].
  unfold tr, affine_mul, translation, scale, ds_res.
  cbn [af_a af_b af_c af_d af_e af_f fst snd].
  split; [ring|]. split; [ring|]. split; ring.
Qed.

(** Writing a mosaic and merging the file alone gives the mosaic back. *)
Lemma merge_reload_identity (m : ndarray) (t : Affine) (g : Dataset) :
  tabulated m -> nd_count m = 3%nat -> gtiff_of m t = Ret g ->
  (0 < af_a t)%Q -> (af_e t < 0)%Q -> (af_b t == 0)%Q -> (af_d t == 0)%Q ->
  exists t', merge [g] = Ret (m, t') /\ affine_eq t' t.
Proof.
  intros Htab Hn Hg Ha He Hb Hd.
  unfold gtiff_of in Hg. rewrite Hn in Hg. simpl in Hg.
  inversion Hg; subst g; clear Hg.
  set (g := mkDataset t (Z.of_nat (nd_width m)) (Z.of_nat (nd_height m))
                      (nd_data m)).
  set (G := mkGrid (af_c t) (af_f t) (af_a t) (- af_e t)).
  assert (Hry : (0 < g_ry G)%Q) by (simpl; lra).
  assert (Hc : cells_of G [g] [mkCell 0 0 g]).
  { constructor; [|constructor]. split; [reflexivity|].
    unfold on_grid. simpl. repeat split; ring. }
  destruct (merge_on_grid G Ha Hry g [] _ Hc) as (t' & Hm & Hb' & Hd' & Hon).
  assert (Hcount : ds_count g = 3%nat).
  { unfold ds_count, g. simpl. rewrite Htab, tabulate3_length. exact Hn. }
  rewrite Hcount in Hm.
  assert (Elo : col_lo [mkCell 0 0 g] = 0) by (simpl; lia).
  assert (Ehi : col_hi [mkCell 0 0 g] = Z.of_nat (nd_width m)) by (simpl; lia).
  assert (Flo : row_lo [mkCell 0 0 g] = 0) by (simpl; lia).
  assert (Fhi : row_hi [mkCell 0 0 g] = Z.of_nat (nd_height m)) by (simpl; lia).
  exists t'. split.
  - rewrite Hm. f_equal. f_equal. symmetry. unfold grid_mosaic.
    rewrite Elo, Ehi, Flo, Fhi.
    apply tabulated_eq; [exact Htab|exact Hn|lia|lia|].
    intros b r c Hb0 Hr Hc0. cbn [first_nonzero].
    assert (Ev : cell_sample (mkCell 0 0 g) b (0 + Z.of_nat r) (0 + Z.of_nat c)
                 = get3 (nd_data m) b r c).
    { unfold cell_sample. cbn [c_i c_j c_src g ds_height ds_width ds_bands].
      replace (0 + Z.of_nat r - 0) with (Z.of_nat r) by lia.
      replace (0 + Z.of_nat c - 0) with (Z.of_nat c) by lia.
      destruct (Z.leb_spec 0 (Z.of_nat r)); [|lia].
      destruct (Z.ltb_spec (Z.of_nat r) (Z.of_nat (nd_height m))); [|lia].
      destruct (Z.leb_spec 0 (Z.of_nat c)); [|lia].
      destruct (Z.ltb_spec (Z.of_nat c) (Z.of_nat (nd_width m))); [|lia].
      simpl. now rewrite !Nat2Z.id. }
    rewrite Ev. destruct (get3 (nd_data m) b r c =? 0) eqn:E; [|reflexivity].
    apply Z.eqb_eq in E. now rewrite E.
  - rewrite Elo, Flo in Hon. destruct Hon as (A & E & C & F). simpl in A, E, C, F.
    unfold affine_eq. rewrite A, E, C, F, Hb, Hd, Hb', Hd'.
    repeat split; ring.
Qed.

(** C10: for a non-empty sequence of at most [batch_size] paths, all of
    which open as three-band rasters with a positive pixel size, and a
    scratch directory that takes the write, the loop of
    [merge_in_batches] runs once, from index 0, and leaves exactly one
    batch mosaic, the raster written from the merge of all the tiles;
    merging that one file gives back the same array and an equal
    transform, and this is what [merge_in_batches] returns. *)
Theorem single_batch_identity (w : World) (paths : list path) (bs : Z) (st : St) :
  paths <> [] -> Z.of_nat (length paths) <= bs ->
  (forall p, In p paths ->
             exists d, fs st !! p = Some d /\
                       (0 < af_a (ds_transform d))%Q /\
                       (af_e (ds_transform d) < 0)%Q /\ ds_count d = 3%nat) ->
  scratch_fault w 0 = None ->
  exists m t g t' st1 st',
    merge (opened (fs st) paths) = Ret (m, t) /\
    gtiff_of m t = Ret g /\
    range_step (Z.of_nat (length paths)) bs = Ret [0] /\
    batch_loop w paths bs ([], ∅) [0] st = (Ret ([0], <[0 := g]> ∅), st1) /\
    merge [g] = Ret (m, t') /\ affine_eq t' t /\
    merge_in_batches w paths bs st = (Ret (m, t'), st').
Proof.
  intros Hne Hlen Hall Hfault.
  destruct paths as [|p ps]; [congruence|].
  destruct (Hall p (or_introl eq_refl)) as (d & Ed & Ha & He & Hcount).
  assert (Eo : exists rest, opened (fs st) (p :: ps) = d :: rest).
  { unfold opened. cbn [omap list_omap]. rewrite Ed. eexists; reflexivity. }
  destruct Eo as [rest Eo].
  destruct (merge_succeeds d rest Ha He) as (m & t & Hm & Htab & Hn & A & E & B & D).
  rewrite Hcount in Hn.
  assert (Hg : gtiff_of m t = Ret (mkDataset t (Z.of_nat (nd_width m))
                                             (Z.of_nat (nd_height m)) (nd_data m)))
    by (unfold gtiff_of; rewrite Hn; reflexivity).
  set (g := mkDataset t (Z.of_nat (nd_width m)) (Z.of_nat (nd_height m))
                      (nd_data m)) in *.
  destruct (merge_reload_identity m t g Htab Hn Hg) as (t' & Hm' & Heq);
    [rewrite A; exact Ha|rewrite E; exact He|exact B|exact D|].
  assert (Hlen' : 1 <= bs) by (simpl length in Hlen; lia).
  assert (Hr : range_step (Z.of_nat (length (p :: ps))) bs = Ret [0]).
  { unfold range_step. destruct (Z.eqb_spec bs 0); [lia|].
    destruct (Z.ltb_spec bs 0); [lia|].
    replace ((Z.of_nat (length (p :: ps)) + bs - 1) / bs) with 1; [reflexivity|].
    apply Z.div_unique with (r := Z.of_nat (length (p :: ps)) - 1);
      simpl length in *; lia. }
  assert (Hs : slice (p :: ps) 0 bs = p :: ps).
  { unfold slice. simpl skipn. apply firstn_all2. lia. }
  assert (Hloop : exists st1,
             batch_loop w (p :: ps) bs ([], ∅) [0] st
             = (Ret ([0], <[0 := g]> ∅), st1)).
  { simpl batch_loop. unfold bind at 1. unfold batch_step, bind at 1.
    rewrite open_batch_spec, Hs, Eo.
    unfold bind at 1, lift at 1. rewrite Hm.
    unfold bind at 1, lift at 1. cbn [fst snd]. rewrite Hg, Hfault.
    unfold ret. eexists. reflexivity. }
  destruct Hloop as [st1 Hloop].
  exists m, t, g, t', st1. eexists.
  split; [rewrite Eo; exact Hm|]. split; [exact Hg|]. split; [exact Hr|].
  split; [exact Hloop|]. split; [exact Hm'|]. split; [exact Heq|].
  unfold merge_in_batches. unfold bind at 1, lift at 1. rewrite Hr.
  unfold bind at 1. rewrite Hloop.
  unfold bind at 1, print at 1. unfold bind at 1, lift at 1.
  cbn [fst snd open_all]. rewrite lookup_insert_eq.
  unfold lift. rewrite Hm'. reflexivity.
Qed.

Lemma single_batch_identity_witness :
  exists r st',
    merge_in_batches Demo.world Demo.four_paths 500 Demo.four_tiles = (r, st') /\
    same_mosaic r (merge (opened (fs Demo.four_tiles) Demo.four_paths)).
Proof.
  destruct (single_batch_identity Demo.world Demo.four_paths 500 Demo.four_tiles)
    as (m & t & g & t' & st1 & st' & H1 & _ & _ & _ & _ & Heq & H7).
  - discriminate.
  - simpl. lia.
  - intros p Hp. simpl in Hp.
    destruct Hp as [<-|[<-|[<-|[<-|[]]]]]; eexists;
      (split; [vm_compute; reflexivity|]);
      (split; [reflexivity|split; reflexivity]).
  - reflexivity.
  - exists (Ret (m, t')), st'. split; [exact H7|].
    rewrite H1. split; [reflexivity|exact Heq].
Defined.

Lemma merge_in_batches_is_single_merge_witness :
  exists r st',
    merge_in_batches Demo.world Demo.four_paths 2 Demo.four_tiles = (r, st') /\
    same_mosaic r (merge (opened (fs Demo.four_tiles) Demo.four_paths)).
Proof.
  apply (merge_in_batches_is_single_merge Demo.world Demo.four_paths 2
           (mkGrid 0 0 1 1) Demo.four_tiles).
  - lia.
  - reflexivity.
  - reflexivity.
  - intros p d Hp Hd. simpl in Hp.
    destruct Hp as [<-|[<-|[<-|[<-|[]]]]]; vm_compute in Hd;
      inversion Hd; subst d; clear Hd;
      (split; [|reflexivity]).
    + exists 0, 0. unfold on_grid. simpl. repeat split; reflexivity.
    + exists 1, 0. unfold on_grid. simpl. repeat split; reflexivity.
    + exists 0, 1. unfold on_grid. simpl. repeat split; reflexivity.
    + exists 1, 1. unfold on_grid. simpl. repeat split; reflexivity.
  - intros i. reflexivity.
Defined.

End SingleBatch.

Module MonthFacts.

Import Strings.Ascii Months MonthNotions.
Local Open Scope Z_scope.

(** *** Decimal digits *)

Lemma digit_cases (d : Z) :
  is_digit d ->
  d = 0 \/ d = 1 \/ d = 2 \/ d = 3 \/ d = 4 \/ d = 5 \/ d = 6 \/ d = 7 \/
  d = 8 \/ d = 9.
Proof. unfold is_digit. lia. Qed.

Ltac each_digit H :=
  apply digit_cases in H;
  repeat (destruct H as [H|H]; [subst; reflexivity|]); subst; reflexivity.

Lemma digit_of_char (d : Z) : is_digit d -> digit_of (digit_char d) = Some d.
Proof. intros H. each_digit H. Qed.

Lemma digit_not_space (d : Z) : is_digit d -> is_space (digit_char d) = false.
Proof. intros H. each_digit H. Qed.

Lemma digit_not_sep (d : Z) :
  is_digit d -> Ascii.eqb (digit_char d) "_" = false.
Proof. intros H. each_digit H. Qed.

Lemma digit_not_minus (d : Z) :
  is_digit d -> Ascii.eqb (digit_char d) "-" = false.
Proof. intros H. each_digit H. Qed.

Lemma digit_not_plus (d : Z) :
  is_digit d -> Ascii.eqb (digit_char d) "+" = false.
Proof. intros H. each_digit H. Qed.

Lemma parse_digits_chars (ds : list Z) (acc : Z) (b : bool) :
  Forall is_digit ds -> ds <> [] ->
  parse_digits acc b (map digit_char ds) = Some (value acc ds).
Proof.
  intros Hd. revert acc b. induction Hd as [|d ds Hd Hds IH]; intros acc b Hne.
  - congruence.
  - cbn [map parse_digits]. rewrite (digit_of_char d Hd).
    destruct ds as [|d' ds'].
    + reflexivity.
    + rewrite IH by discriminate. reflexivity.
Qed.

Lemma digits_le_digit (w : nat) (n : Z) : Forall is_digit (digits_le w n).
Proof.
  revert n. induction w as [|w IH]; intros n; simpl; constructor.
  - unfold is_digit. pose proof (Z.mod_pos_bound n 10). lia.
  - apply IH.
Qed.

Lemma digits_le_length (w : nat) (n : Z) : length (digits_le w n) = w.
Proof. revert n. induction w as [|w IH]; intros n; simpl; [|rewrite IH]; reflexivity. Qed.

Lemma value_digits (w : nat) (n : Z) :
  value 0 (rev (digits_le w n)) = n mod 10 ^ Z.of_nat w.
Proof.
  revert n. induction w as [|w IH]; intros n.
  - simpl. now rewrite Z.mod_1_r.
  - cbn [digits_le rev]. unfold value in *. rewrite fold_left_app. simpl.
    rewrite IH. rewrite Nat2Z.inj_succ, Z.pow_succ_r by lia.
    rewrite Z.rem_mul_r by lia. lia.
Qed.

Lemma ndigits_bound (fuel : nat) (n : Z) :
  n <= Z.of_nat fuel -> n < 10 ^ Z.of_nat (ndigits fuel n).
Proof.
  revert n. induction fuel as [|f IH]; intros n Hn.
  - simpl in *. lia.
  - cbn [ndigits]. destruct (n <? 10) eqn:E.
    + apply Z.ltb_lt in E. simpl. lia.
    + apply Z.ltb_ge in E.
      assert (Hq : n / 10 <= Z.of_nat f).
      { apply Z.lt_succ_r. apply Z.div_lt_upper_bound; lia. }
      specialize (IH _ Hq).
      rewrite Nat2Z.inj_succ, Z.pow_succ_r by lia.
      pose proof (Z.div_mod n 10 ltac:(lia)).
      pose proof (Z.mod_pos_bound n 10 ltac:(lia)). lia.
Qed.

Lemma ndigits_pos (fuel : nat) (n : Z) : (1 <= ndigits fuel n)%nat.
Proof. destruct fuel; simpl; [lia|]. destruct (n <? 10); lia. Qed.

Lemma printed_digit (w : nat) (n : Z) : Forall is_digit (printed w n).
Proof. apply List.Forall_rev, digits_le_digit. Qed.

Lemma printed_nonempty (w : nat) (n : Z) : printed w n <> [].
Proof.
  intros H. apply (f_equal (@length Z)) in H. unfold printed in H.
  rewrite length_rev, digits_le_length in H. simpl in H.
  pose proof (ndigits_pos (Z.to_nat n) n). lia.
Qed.

Lemma printed_value (w : nat) (n : Z) : 0 <= n -> value 0 (printed w n) = n.
Proof.
  intros Hn. unfold printed. rewrite value_digits.
  apply Z.mod_small. split; [assumption|].
  pose proof (ndigits_bound (Z.to_nat n) n ltac:(lia)) as Hb.
  eapply Z.lt_le_trans; [exact Hb|].
  apply Z.pow_le_mono_r; lia.
Qed.

(** *** Reading back what was printed *)

Lemma strip_no_space (s : list ascii) :
  Forall (fun c => is_space c = false) s -> strip s = s.
Proof.
  intros H.
  assert (L : forall t, Forall (fun c => is_space c = false) t -> lstrip t = t).
  { intros t Ht. destruct Ht as [|c t Hc Ht]; [reflexivity|].
    simpl. now rewrite Hc. }
  unfold strip. rewrite (L s H). rewrite L by now apply List.Forall_rev.
  apply rev_involutive.
Qed.

Lemma int_of_printed (w : nat) (n : Z) :
  0 <= n -> py_int_of_string (zero_padded w n) = Ret n.
Proof.
  intros Hn. unfold py_int_of_string, zero_padded. fold (printed w n).
  pose proof (printed_digit w n) as Hd.
  pose proof (printed_nonempty w n) as Hne.
  rewrite strip_no_space.
  2:{ apply List.Forall_map. eapply List.Forall_impl; [|exact Hd].
      intros d. apply digit_not_space. }
  destruct (printed w n) as [|d ds] eqn:E; [congruence|].
  cbn [map]. inversion Hd as [|? ? Hd0 Hds]; subst.
  rewrite (digit_not_minus d Hd0), (digit_not_plus d Hd0).
  cbn [snd fst].
  change (digit_char d :: map digit_char ds) with (map digit_char (d :: ds)).
  rewrite parse_digits_chars by (assumption || discriminate).
  rewrite <- E. now rewrite printed_value.
Qed.

Lemma split_on_none (sep : ascii) (s : list ascii) :
  Forall (fun c => Ascii.eqb c sep = false) s -> split_on sep s = [s].
Proof.
  induction 1 as [|c s Hc Hs IH]; [reflexivity|].
  simpl. now rewrite Hc, IH.
Qed.

Lemma split_on_one (sep : ascii) (a b : list ascii) :
  Forall (fun c => Ascii.eqb c sep = false) a ->
  Forall (fun c => Ascii.eqb c sep = false) b ->
  split_on sep (a ++ sep :: b) = [a; b].
Proof.
  intros Ha Hb. induction Ha as [|c a Hc Ha IH].
  - simpl. rewrite Ascii.eqb_refl. now rewrite split_on_none.
  - simpl. now rewrite Hc, IH.
Qed.

Lemma zero_padded_no_sep (w : nat) (n : Z) :
  Forall (fun c => Ascii.eqb c "_" = false) (zero_padded w n).
Proof.
  unfold zero_padded. fold (printed w n). apply List.Forall_map.
  eapply List.Forall_impl; [|apply printed_digit]. intros d. apply digit_not_sep.
Qed.

Lemma parse_format (pad : bool) (dt : datetime) :
  valid_date dt -> parse_month (format_month pad dt) = Ret dt.
Proof.
  intros [[Hy1 Hy2] [Hm1 Hm2]]. unfold parse_month, format_month.
  rewrite list_ascii_of_string_of_list_ascii.
  rewrite split_on_one by apply zero_padded_no_sep.
  rewrite !int_of_printed by lia.
  unfold make_datetime.
  destruct (Z.leb_spec 1 (dt_year dt)); [|lia].
  destruct (Z.leb_spec (dt_year dt) 9999); [|lia].
  destruct (Z.leb_spec 1 (dt_month dt)); [|lia].
  destruct (Z.leb_spec (dt_month dt) 12); [|lia].
  simpl. now destruct dt.
Qed.

End MonthFacts.

Module MonthRange.

Import Strings.Ascii Months MonthNotions MonthFacts.
Local Open Scope Z_scope.

Lemma dt_leb_index (p q : datetime) :
  valid_date p -> valid_date q ->
  dt_leb p q = true <-> dt_index p <= dt_index q.
Proof.
  intros [_ Hp] [_ Hq]. unfold dt_leb, dt_index.
  rewrite orb_true_iff, andb_true_iff, Z.ltb_lt, Z.eqb_eq, Z.leb_le. lia.
Qed.

Lemma index_after (a : datetime) (k : Z) :
  dt_index (months_after a k) = dt_index a + k.
Proof.
  unfold months_after, dt_index at 1. cbn [dt_year dt_month].
  pose proof (Z.div_mod (dt_index a + k) 12 ltac:(lia)). lia.
Qed.

Lemma index_inj (p q : datetime) :
  valid_date p -> valid_date q -> dt_index p = dt_index q -> p = q.
Proof.
  intros [_ Hp] [_ Hq]. unfold dt_index.
  destruct p as [y m], q as [y' m']; simpl in *.
  intros H. assert (y = y') by lia. subst. f_equal. lia.
Qed.

Lemma after_zero (a : datetime) : valid_date a -> months_after a 0 = a.
Proof.
  intros [_ Ha]. unfold months_after, dt_index. destruct a as [y m]; simpl in *.
  rewrite Z.add_0_r.
  assert (E : (12 * y + (m - 1)) / 12 = y)
    by (symmetry; apply (Z.div_unique _ 12 y (m - 1)); lia).
  assert (F : (12 * y + (m - 1)) mod 12 = m - 1)
    by (symmetry; apply (Z.mod_unique _ 12 y (m - 1)); lia).
  rewrite E, F. f_equal. lia.
Qed.

Lemma after_valid (a : datetime) (k : Z) :
  valid_date a -> 0 <= k -> dt_index a + k <= 12 * 9999 + 11 ->
  valid_date (months_after a k).
Proof.
  intros [Hy Hm] Hk Hb. unfold valid_date, months_after. cbn [dt_year dt_month].
  unfold dt_index in *.
  pose proof (Z.mod_pos_bound (12 * dt_year a + (dt_month a - 1) + k) 12 ltac:(lia)).
  split; [|lia]. split.
  - apply Z.div_le_lower_bound; lia.
  - apply Z.lt_succ_r. apply Z.div_lt_upper_bound; lia.
Qed.

Lemma after_after (a : datetime) (j k : Z) :
  months_after (months_after a j) k = months_after a (j + k).
Proof.
  unfold months_after at 1 3. rewrite index_after. now rewrite Z.add_assoc.
Qed.

(** One step of [relativedelta(months=1)]. *)
Lemma add_month_next (dt : datetime) :
  valid_date dt -> dt_index dt < 12 * 9999 + 11 ->
  add_month dt = Ret (months_after dt 1).
Proof.
  intros [Hy Hm] Hi. unfold add_month, months_after, dt_index in *.
  destruct dt as [y m]; cbn [dt_year dt_month] in *.
  destruct (Z.ltb_spec 12 (m + 1)).
  - assert (m = 12) by lia. subst m.
    destruct (Z.leb_spec (y + 1) 9999); [|lia].
    replace (12 * y + (12 - 1) + 1) with (12 * (y + 1)) by lia.
    rewrite Z.mul_comm, Z.div_mul, Z.mod_mul by lia. reflexivity.
  - destruct (Z.leb_spec y 9999); [|lia].
    assert (E : (12 * y + (m - 1) + 1) / 12 = y)
      by (symmetry; apply (Z.div_unique _ 12 y m); lia).
    assert (F : (12 * y + (m - 1) + 1) mod 12 = m)
      by (symmetry; apply (Z.mod_unique _ 12 y m); lia).
    now rewrite E, F.
Qed.

Lemma add_month_overflow :
  add_month (mkDate 9999 12) = Raise (ValueError "year 10000 is out of range").
Proof. reflexivity. Qed.

Lemma month_list_succ (pad : bool) (a : datetime) (n : nat) :
  valid_date a ->
  month_list pad a (S n)
  = format_month pad a :: month_list pad (months_after a 1) n.
Proof.
  intros Ha. unfold month_list. cbn [seq map]. change (Z.of_nat 0) with 0.
  rewrite (after_zero a Ha).
  f_equal. rewrite <- seq_shift, map_map. apply map_ext. intros k.
  rewrite after_after. do 2 f_equal. lia.
Qed.

(** The loop, for an end month before 9999_12. *)
Lemma month_loop_spec (pad : bool) (n : nat) :
  forall (fuel : nat) (current end_ : datetime) (months : list string),
    valid_date current -> valid_date end_ ->
    dt_index end_ < 12 * 9999 + 11 ->
    dt_index end_ - dt_index current + 1 = Z.of_nat n ->
    (n < fuel)%nat ->
    month_loop pad fuel current end_ months
    = Some (Ret (months ++ month_list pad current n)).
Proof.
  induction n as [|n IH]; intros fuel cur end_ months Hc He Hmax Hn Hf.
  - destruct fuel as [|f]; [lia|]. cbn [month_loop].
    destruct (dt_leb cur end_) eqn:E.
    + apply dt_leb_index in E; [lia|assumption..].
    + unfold month_list. simpl. now rewrite app_nil_r.
  - destruct fuel as [|f]; [lia|]. cbn [month_loop].
    destruct (dt_leb cur end_) eqn:E.
    2:{ assert (dt_leb cur end_ = true) by (apply dt_leb_index; [assumption..|lia]).
        congruence. }
    rewrite add_month_next by (assumption || lia).
    rewrite (IH f).
    + rewrite month_list_succ by assumption. now rewrite <- app_assoc.
    + apply after_valid; [assumption|lia|lia].
    + assumption.
    + assumption.
    + rewrite index_after. lia.
    + lia.
Qed.

(** The loop, for the end month 9999_12: the step past it raises. *)
Lemma month_loop_overflow (pad : bool) (n : nat) :
  forall (fuel : nat) (current : datetime) (months : list string),
    valid_date current ->
    12 * 9999 + 11 - dt_index current = Z.of_nat n ->
    (n < fuel)%nat ->
    month_loop pad fuel current (mkDate 9999 12) months
    = Some (Raise (ValueError "year 10000 is out of range")).
Proof.
  assert (Hend : valid_date (mkDate 9999 12)) by (unfold valid_date; simpl; lia).
  induction n as [|n IH]; intros fuel cur months Hc Hn Hf;
    (destruct fuel as [|f]; [lia|]); cbn [month_loop];
    (assert (E : dt_leb cur (mkDate 9999 12) = true)
      by (apply dt_leb_index; [assumption..|unfold dt_index at 2; simpl; lia]));
    rewrite E.
  - assert (cur = mkDate 9999 12)
      by (apply index_inj; [assumption..|unfold dt_index at 2; simpl; lia]).
    subst cur. reflexivity.
  - rewrite add_month_next by (assumption || lia).
    apply IH.
    + apply after_valid; [assumption|lia|lia].
    + rewrite index_after. lia.
    + lia.
Qed.

Lemma parse_valid (s : string) (dt : datetime) :
  parse_month s = Ret dt -> valid_date dt.
Proof.
  unfold parse_month.
  destruct (split_on _ _) as [|y [|m [|? ?]]]; try discriminate.
  destruct (py_int_of_string y) as [vy|]; [|discriminate].
  destruct (py_int_of_string m) as [vm|]; [|discriminate].
  unfold make_datetime.
  destruct (Z.leb_spec 1 vy); [|discriminate].
  destruct (Z.leb_spec vy 9999); [|discriminate].
  destruct (Z.leb_spec 1 vm); [|discriminate].
  destruct (Z.leb_spec vm 12); [|discriminate].
  simpl. intros E. inversion E. unfold valid_date. simpl. lia.
Qed.

Lemma parse_error (s : string) (e : exn) :
  parse_month s = Raise e -> e = invalid_month_format s.
Proof.
  unfold parse_month.
  match goal with |- context [match ?a with Ret _ => _ | Raise _ => _ end] =>
    destruct a end; [discriminate|].
  intros H. now inversion H.
Qed.

Lemma month_list_length (pad : bool) (a : datetime) (n : nat) :
  length (month_list pad a n) = n.
Proof. unfold month_list. now rewrite length_map, length_seq. Qed.

Lemma format_inj (pad : bool) (p q : datetime) :
  valid_date p -> valid_date q ->
  format_month pad p = format_month pad q -> p = q.
Proof.
  intros Hp Hq H. apply (f_equal parse_month) in H.
  rewrite !parse_format in H by assumption. now inversion H.
Qed.

End MonthRange.

Module MonthProperties.

Import Strings.Ascii Months MonthNotions MonthFacts MonthRange.
Local Open Scope Z_scope.

Lemma last_month_valid : valid_date last_month.
Proof. unfold valid_date, last_month. simpl. lia. Qed.

Lemma index_bounds (a : datetime) :
  valid_date a -> 12 <= dt_index a <= 12 * 9999 + 11.
Proof. intros [Hy Hm]. unfold dt_index. lia. Qed.

Lemma after_back (a b : datetime) :
  valid_date a -> valid_date b ->
  months_after a (dt_index b - dt_index a) = b.
Proof.
  intros Ha Hb. apply index_inj; [|assumption|].
  - pose proof (index_bounds a Ha). pose proof (index_bounds b Hb).
    unfold valid_date, months_after. cbn [dt_year dt_month].
    replace (dt_index a + (dt_index b - dt_index a)) with (dt_index b) by lia.
    pose proof (Z.mod_pos_bound (dt_index b) 12 ltac:(lia)).
    split; [|lia]. split.
    + apply Z.div_le_lower_bound; lia.
    + apply Z.lt_succ_r. apply Z.div_lt_upper_bound; lia.
  - rewrite index_after. lia.
Qed.

(** [generate_month_range] on two months that parse, by cases. *)
Lemma generate_cases (pad : bool) (fuel : nat) (s e : string) (a b : datetime) :
  parse_month s = Ret a -> parse_month e = Ret b ->
  (Z.to_nat (dt_index b - dt_index a + 1) < fuel)%nat ->
  generate_month_range pad fuel s e =
  if dt_index b <? dt_index a
  then Some (Raise (ValueError
         ("Start month (" +:+ s +:+ ") must be before or equal to end month ("
          +:+ e +:+ ")")))
  else if dt_index b =? dt_index last_month
  then Some (Raise (ValueError "year 10000 is out of range"))
  else Some (Ret (month_list pad a (Z.to_nat (dt_index b - dt_index a + 1)))).
Proof.
  intros Hs He Hf. unfold generate_month_range. rewrite Hs, He.
  pose proof (parse_valid s a Hs) as Ha. pose proof (parse_valid e b He) as Hb.
  pose proof (index_bounds a Ha) as Ia. pose proof (index_bounds b Hb) as Ib.
  destruct (Z.ltb_spec (dt_index b) (dt_index a)) as [Hlt|Hle].
  - assert (E : dt_leb a b = false).
    { destruct (dt_leb a b) eqn:E; [|reflexivity].
      apply dt_leb_index in E; [lia|assumption..]. }
    now rewrite E.
  - assert (E : dt_leb a b = true) by (apply dt_leb_index; assumption).
    rewrite E. cbn [negb].
    destruct (Z.eqb_spec (dt_index b) (dt_index last_month)) as [Hl|Hl].
    + assert (b = last_month)
        by (apply index_inj; [assumption|apply last_month_valid|assumption]).
      subst b. unfold last_month.
      apply (month_loop_overflow pad (Z.to_nat (12 * 9999 + 11 - dt_index a)));
        [assumption|lia|].
      unfold last_month, dt_index at 1 in Hf. simpl in Hf. lia.
    + change (dt_index last_month) with (12 * 9999 + 11) in Hl.
      rewrite (month_loop_spec pad (Z.to_nat (dt_index b - dt_index a + 1)));
        [reflexivity|assumption|assumption|lia|lia|assumption].
Qed.

Lemma NoDup_month_list (pad : bool) (a : datetime) (n : nat) :
  valid_date a -> dt_index a + Z.of_nat n <= 12 * 9999 + 12 ->
  List.NoDup (month_list pad a n).
Proof.
  intros Ha Hn. unfold month_list.
  assert (Hseq : List.NoDup (seq 0 n)) by apply seq_NoDup.
  assert (Hin : forall k, In k (seq 0 n) -> (k < n)%nat)
    by (intros k Hk; apply in_seq in Hk; lia).
  induction (seq 0 n) as [|k l IH]; [constructor|].
  cbn [map]. apply List.NoDup_cons_iff in Hseq. destruct Hseq as [Hk Hl].
  constructor.
  - intros Hc. apply in_map_iff in Hc. destruct Hc as (j & Hj & Hjl).
    apply format_inj in Hj.
    + apply (f_equal dt_index) in Hj. rewrite !index_after in Hj.
      assert (j = k) by lia. subst j. contradiction.
    + apply after_valid; [assumption|lia|].
      specialize (Hin j (or_intror Hjl)). lia.
    + apply after_valid; [assumption|lia|].
      specialize (Hin k (or_introl eq_refl)). lia.
  - apply IH; [assumption|]. intros j Hj. apply Hin. now right.
Qed.

(** X1: [parse_month] reads back what [format_month] prints: for every
    first-of-month date with a year in 1..9999 and a month in 1..12,
    whether or not the platform pads the year to four digits. *)
Theorem parse_month_round_trip (pad_year : bool) (dt : datetime) :
  valid_date dt -> parse_month (format_month pad_year dt) = Ret dt.
Proof. apply parse_format. Qed.

Lemma parse_month_round_trip_witness :
  valid_date (mkDate 987 3) /\
  parse_month (format_month false (mkDate 987 3)) = Ret (mkDate 987 3).
Proof.
  assert (H : valid_date (mkDate 987 3)) by (unfold valid_date; simpl; lia).
  split; [exact H|]. exact (parse_month_round_trip false (mkDate 987 3) H).
Defined.

(** X2: [parse_month] either returns a date whose year is in 1..9999
    and whose month is in 1..12, or raises [ValueError] with the
    "Invalid month format" message that quotes its argument; no other
    exception leaves it. *)
Theorem parse_month_contract (month_str : string) :
  (exists dt, parse_month month_str = Ret dt /\ valid_date dt) \/
  parse_month month_str = Raise (invalid_month_format month_str).
Proof.
  destruct (parse_month month_str) as [dt|e] eqn:E.
  - left. exists dt. split; [reflexivity|]. exact (parse_valid _ _ E).
  - right. now rewrite (parse_error _ _ E).
Qed.

(** X3: for a start month not after the end month, and an end month
    before 9999_12, [generate_month_range] returns one string per month
    from start to end, both included, in order: the [k]-th is the
    [format_month] of the date [k] months after the start, the list
    begins at the start and ends at the end month. *)
Theorem month_range_spec (pad_year : bool) (fuel : nat) (s e : string)
        (a b : datetime) :
  parse_month s = Ret a -> parse_month e = Ret b ->
  dt_index a <= dt_index b -> b <> last_month ->
  (Z.to_nat (dt_index b - dt_index a + 1) < fuel)%nat ->
  generate_month_range pad_year fuel s e
  = Some (Ret (month_list pad_year a (Z.to_nat (dt_index b - dt_index a + 1)))) /\
  months_after a 0 = a /\
  months_after a (dt_index b - dt_index a) = b.
Proof.
  intros Hs He Hab Hb Hf.
  pose proof (parse_valid s a Hs) as Ha. pose proof (parse_valid e b He) as Vb.
  split; [|split; [now apply after_zero|now apply after_back]].
  rewrite (generate_cases pad_year fuel s e a b Hs He Hf).
  destruct (Z.ltb_spec (dt_index b) (dt_index a)); [lia|].
  destruct (Z.eqb_spec (dt_index b) (dt_index last_month)) as [Hl|Hl];
    [|reflexivity].
  exfalso. apply Hb. apply index_inj; [assumption|apply last_month_valid|assumption].
Qed.

Lemma month_range_spec_witness :
  generate_month_range true 10 "2020_11" "2021_02"
  = Some (Ret ["2020_11"; "2020_12"; "2021_01"; "2021_02"]%string).
Proof.
  refine (eq_trans
            (proj1 (month_range_spec true 10 "2020_11" "2021_02"
                      (mkDate 2020 11) (mkDate 2021 2) eq_refl eq_refl _ _ _)) _).
  - vm_compute. discriminate.
  - discriminate.
  - vm_compute. lia.
  - reflexivity.
Defined.

(** X4: when the start month is after the end month,
    [generate_month_range] raises [ValueError] naming both arguments,
    before its loop runs (for any amount of fuel). *)
Theorem month_range_reversed (pad_year : bool) (fuel : nat) (s e : string)
        (a b : datetime) :
  parse_month s = Ret a -> parse_month e = Ret b ->
  dt_index b < dt_index a ->
  generate_month_range pad_year fuel s e
  = Some (Raise (ValueError
      ("Start month (" +:+ s +:+ ") must be before or equal to end month ("
       +:+ e +:+ ")"))).
Proof.
  intros Hs He Hlt. unfold generate_month_range. rewrite Hs, He.
  assert (E : dt_leb a b = false).
  { destruct (dt_leb a b) eqn:E; [|reflexivity].
    apply dt_leb_index in E; [lia|eapply parse_valid; eassumption..]. }
  now rewrite E.
Qed.

Lemma month_range_reversed_witness :
  generate_month_range true 0 "2021_03" "2021_02"
  = Some (Raise (ValueError
      "Start month (2021_03) must be before or equal to end month (2021_02)")).
Proof.
  apply (month_range_reversed true 0 "2021_03" "2021_02"
           (mkDate 2021 3) (mkDate 2021 2) eq_refl eq_refl).
  vm_compute. reflexivity.
Defined.

(** X5: a range that ends at 9999_12 cannot be generated: after the
    last month has been appended, the step to the next month leaves the
    years a [datetime] can hold, and [generate_month_range] raises
    [ValueError] instead of returning its list. *)
Theorem month_range_overflow (pad_year : bool) (fuel : nat) (s e : string)
        (a : datetime) :
  parse_month s = Ret a -> parse_month e = Ret last_month ->
  (Z.to_nat (dt_index last_month - dt_index a + 1) < fuel)%nat ->
  generate_month_range pad_year fuel s e
  = Some (Raise (ValueError "year 10000 is out of range")).
Proof.
  intros Hs He Hf.
  pose proof (index_bounds a (parse_valid s a Hs)) as Ia.
  rewrite (generate_cases pad_year fuel s e a last_month Hs He Hf).
  change (dt_index last_month) with (12 * 9999 + 11) in *.
  destruct (Z.ltb_spec (12 * 9999 + 11) (dt_index a)); [lia|].
  now rewrite Z.eqb_refl.
Qed.

Lemma month_range_overflow_witness :
  generate_month_range true 5 "9999_11" "9999_12"
  = Some (Raise (ValueError "year 10000 is out of range")).
Proof.
  apply (month_range_overflow true 5 "9999_11" "9999_12" (mkDate 9999 11)
           eq_refl eq_refl).
  vm_compute. lia.
Defined.

(** X6: the loop of [generate_month_range] terminates on every pair of
    strings: 120000 iterations are never used up, so the call returns a
    list or raises. *)
Theorem month_range_total (pad_year : bool) (s e : string) :
  exists r, generate_month_range pad_year Batch.month_fuel s e = Some r.
Proof.
  destruct (parse_month s) as [a|x] eqn:Hs.
  2:{ unfold generate_month_range. rewrite Hs. eexists; reflexivity. }
  destruct (parse_month e) as [b|x] eqn:He.
  2:{ unfold generate_month_range. rewrite Hs, He. eexists; reflexivity. }
  pose proof (index_bounds a (parse_valid s a Hs)).
  pose proof (index_bounds b (parse_valid e b He)).
  rewrite (generate_cases pad_year Batch.month_fuel s e a b Hs He)
    by (unfold Batch.month_fuel; lia).
  destruct (_ <? _); [eexists; reflexivity|].
  destruct (_ =? _); eexists; reflexivity.
Qed.

(** X7: the months [generate_month_range] returns are pairwise distinct,
    and each of them parses back to a month between the start and the
    end month: no month is downloaded twice and none outside the
    range. *)
Theorem month_range_distinct (pad_year : bool) (s e : string)
        (a b : datetime) (months : list string) :
  parse_month s = Ret a -> parse_month e = Ret b ->
  generate_month_range pad_year Batch.month_fuel s e = Some (Ret months) ->
  List.NoDup months /\
  forall m, In m months ->
            exists dt, parse_month m = Ret dt /\
                       dt_index a <= dt_index dt <= dt_index b.
Proof.
  intros Hs He Hg.
  pose proof (parse_valid s a Hs) as Va.
  pose proof (index_bounds a Va) as Ia.
  pose proof (index_bounds b (parse_valid e b He)) as Ib.
  rewrite (generate_cases pad_year Batch.month_fuel s e a b Hs He) in Hg
    by (unfold Batch.month_fuel; lia).
  destruct (Z.ltb_spec (dt_index b) (dt_index a)); [discriminate|].
  destruct (Z.eqb_spec (dt_index b) (dt_index last_month)); [discriminate|].
  change (dt_index last_month) with (12 * 9999 + 11) in *.
  inversion Hg; subst months; clear Hg. split.
  - apply NoDup_month_list; [assumption|lia].
  - intros m Hm. unfold month_list in Hm. apply in_map_iff in Hm.
    destruct Hm as (k & Hk & Hin). apply in_seq in Hin. subst m.
    exists (months_after a (Z.of_nat k)). split.
    + apply parse_format. apply after_valid; [assumption|lia|lia].
    + rewrite index_after. lia.
Qed.

Lemma month_range_distinct_witness :
  List.NoDup ["2020_11"; "2020_12"; "2021_01"]%string.
Proof.
  assert (H : generate_month_range true Batch.month_fuel "2020_11" "2021_01"
              = Some (Ret ["2020_11"; "2020_12"; "2021_01"]%string))
    by (vm_compute; reflexivity).
  exact (proj1 (month_range_distinct true "2020_11" "2021_01"
                  (mkDate 2020 11) (mkDate 2021 1) _ eq_refl eq_refl H)).
Defined.

End MonthProperties.

Module BatchFacts.

Import Strings.Ascii Months MonthNotions Batch BatchNotions.
Local Open Scope Z_scope.

Lemma lower_char_y (c : ascii) :
  lower_char c = "y"%char -> c = "y"%char \/ c = "Y"%char.
Proof.
  destruct c as [[] [] [] [] [] [] [] []]; vm_compute; intros H;
    try discriminate H; auto.
Qed.

Lemma py_lower_y (s : string) :
  py_lower s = "y"%string <-> s = "y"%string \/ s = "Y"%string.
Proof.
  split.
  - destruct s as [|c [|c' rest]]; simpl; intros H; try discriminate H.
    inversion H as [Hc]. destruct (lower_char_y c Hc); subst; auto.
  - intros [->| ->]; reflexivity.
Qed.

Section Loop.

Context {FS : Type} (h : Host FS).

Lemma emit_fs (st : BSt FS) (l : Line) : b_fs (emit st l) = b_fs st.
Proof. reflexivity. Qed.

(** A dry run of one month starts nothing. *)
Lemma run_downloader_dry (a m k : string) (z : Z) (d : string)
      (o : option string) (st : BSt FS) :
  exists cmd,
    run_downloader h a m k z d o true st
    = (Some (true, Some "Dry run - not executed"%string),
       emit st (WouldExecute cmd)).
Proof. eexists. reflexivity. Qed.

(** With [--continue-on-error] or [--dry-run] the loop deals with every
    month. *)
Lemma download_months_all (args : BatchArgs) (base : string) (total : nat)
      (months : list string) :
  continue_on_error args = true \/ dry_run args = true ->
  forall (i : nat) (res res' : Results) (st st' : BSt FS),
    download_months h args base total i months res st = (Some res', st') ->
    exists s f k,
      success res' = success res ++ s /\
      failed res' = failed res ++ f /\
      skipped res' = skipped res ++ k /\
      Permutation (s ++ map fst f ++ k) months.
Proof.
  intros Hmode. induction months as [|m rest IH]; intros i res res' st st' H.
  - cbn [download_months] in H. inversion H; subst.
    exists [], [], []. rewrite !app_nil_r. repeat split; constructor.
  - cbn [download_months] in H.
    destruct (skip_existing args && path_exists h (b_fs st) _).
    + destruct (IH _ _ _ _ _ H) as (s & f & k & Hs & Hf & Hk & Hp).
      cbn [success failed skipped] in *.
      exists s, f, (m :: k). rewrite Hs, Hf, Hk, <- app_assoc.
      repeat split; try reflexivity.
      rewrite app_assoc. apply Permutation_sym, Permutation_cons_app.
      rewrite <- app_assoc. now apply Permutation_sym.
    + destruct (run_downloader h _ _ _ _ _ _ _ _) as [[[[|] e]|] st1];
        [| |discriminate H].
      * destruct (IH _ _ _ _ _ H) as (s & f & k & Hs & Hf & Hk & Hp).
        cbn [success failed skipped] in *.
        exists (m :: s), f, k. rewrite Hs, Hf, Hk, <- app_assoc.
        repeat split; try reflexivity.
        cbn [app]. now constructor.
      * destruct (negb (continue_on_error args) && negb (dry_run args)) eqn:E.
        { apply andb_true_iff in E. destruct E as [E1 E2].
          apply negb_true_iff in E1, E2. destruct Hmode; congruence. }
        destruct (IH _ _ _ _ _ H) as (s & f & k & Hs & Hf & Hk & Hp).
        cbn [success failed skipped] in *.
        exists s, ((m, e) :: f), k. rewrite Hs, Hf, Hk, <- app_assoc.
        repeat split; try reflexivity.
        cbn [map fst app]. apply Permutation_sym, Permutation_cons_app.
        now apply Permutation_sym.
Qed.

(** Without them the loop ends at the first month that fails. *)
Lemma download_months_strict (args : BatchArgs) (base : string) (total : nat)
      (months : list string) :
  continue_on_error args = false -> dry_run args = false ->
  forall (i : nat) (res res' : Results) (st st' : BSt FS),
    download_months h args base total i months res st = (Some res', st') ->
    exists s k,
      success res' = success res ++ s /\
      skipped res' = skipped res ++ k /\
      ((failed res' = failed res /\ Permutation (s ++ k) months) \/
       (exists done m e rest,
           months = done ++ m :: rest /\
           failed res' = failed res ++ [(m, e)] /\
           Permutation (s ++ k) done)).
Proof.
  intros Hc Hd. induction months as [|m rest IH]; intros i res res' st st' H.
  - cbn [download_months] in H. inversion H; subst.
    exists [], []. rewrite !app_nil_r. repeat split. left. split; constructor.
  - cbn [download_months] in H.
    destruct (skip_existing args && path_exists h (b_fs st) _).
    + destruct (IH _ _ _ _ _ H) as (s & k & Hs & Hk & Hcase).
      cbn [success failed skipped] in *.
      exists s, (m :: k). rewrite Hs, Hk, <- app_assoc.
      repeat split; try reflexivity.
      destruct Hcase as [[Hf Hp]|(done & m' & e & rest' & Hm & Hf & Hp)].
      * left. split; [exact Hf|].
        apply Permutation_sym, Permutation_cons_app. now apply Permutation_sym.
      * right. exists (m :: done), m', e, rest'. subst rest.
        split; [reflexivity|]. split; [exact Hf|].
        apply Permutation_sym, Permutation_cons_app. now apply Permutation_sym.
    + destruct (run_downloader h _ _ _ _ _ _ _ _) as [[[[|] e]|] st1];
        [| |discriminate H].
      * destruct (IH _ _ _ _ _ H) as (s & k & Hs & Hk & Hcase).
        cbn [success failed skipped] in *.
        exists (m :: s), k. rewrite Hs, Hk, <- app_assoc.
        repeat split; try reflexivity.
        destruct Hcase as [[Hf Hp]|(done & m' & e' & rest' & Hm & Hf & Hp)].
        -- left. split; [exact Hf|]. cbn [app]. now constructor.
        -- right. exists (m :: done), m', e', rest'. subst rest.
           split; [reflexivity|]. split; [exact Hf|]. cbn [app]. now constructor.
      * rewrite Hc, Hd in H. cbn [negb andb] in H. inversion H; subst.
        cbn [success failed skipped].
        exists [], []. rewrite !app_nil_r. repeat split.
        right. exists [], m, e, rest. repeat split. constructor.
Qed.

(** A dry run: no month fails, the files stay as they are, and neither
    the child process nor the prompt is used. *)
Lemma download_months_dry (args : BatchArgs) (base : string) (total : nat)
      (months : list string) :
  dry_run args = true ->
  forall (i : nat) (res : Results) (st : BSt FS),
    exists res' st',
      download_months h args base total i months res st = (Some res', st') /\
      failed res' = failed res /\ b_fs st' = b_fs st.
Proof.
  intros Hd. induction months as [|m rest IH]; intros i res st.
  - eexists; eexists. repeat split.
  - cbn [download_months].
    destruct (skip_existing args && path_exists h (b_fs st) _).
    + destruct (IH (S i) (mkResults (success res) (failed res)
                                    (skipped res ++ [m]))
                   (emit st (Skipping i total m
                     (path_join h (save_dir args)
                                (base +:+ "_" +:+ m +:+ ".tif")%string))))
        as (res' & st' & E & Hf & Hfs).
      rewrite E. eexists; eexists. repeat split; assumption.
    + rewrite Hd.
      destruct (run_downloader_dry (aoi args) m (api_key args) (zoom args)
                  (save_dir args) None (emit st (ProcessingMonth i total m)))
        as [cmd E].
      rewrite E.
      destruct (IH (S i) (mkResults (success res ++ [m]) (failed res)
                                    (skipped res))
                   (emit (emit st (ProcessingMonth i total m))
                         (WouldExecute cmd)))
        as (res' & st' & E' & Hf & Hfs).
      rewrite E'. eexists; eexists. repeat split; assumption.
Qed.

End Loop.

(** The loop of a dry run is the same whatever the child process and the
    answer at the prompt would be. *)
Lemma download_months_dry_indep {FS : Type} (h : Host FS)
      (run' : list string -> FS -> option Completed * FS)
      (input' : option string)
      (args : BatchArgs) (base : string) (total : nat) (months : list string) :
  dry_run args = true ->
  forall (i : nat) (res : Results) (st : BSt FS),
    download_months
      (mkHost (sys_executable h) (pad_year h) (path_exists h) (makedirs h)
              (basename_noext h) (path_join h) run' input')
      args base total i months res st
    = download_months h args base total i months res st.
Proof.
  intros Hd. induction months as [|m rest IH]; intros i res st; [reflexivity|].
  cbn [download_months path_join path_exists].
  destruct (skip_existing args && path_exists h (b_fs st) _); [apply IH|].
  rewrite Hd. unfold run_downloader. cbn [sys_executable].
  apply IH.
Qed.

Section Trace.

Context {FS : Type} (h : Host FS) (args : BatchArgs) (base : string).

Hypothesis Hc : continue_on_error args = false.
Hypothesis Hd : dry_run args = false.

(** The loop against the verdicts, month by month. *)
Lemma download_months_trace (total : nat) (months : list string) :
  forall (i : nat) (res res' : Results) (st st' : BSt FS),
    download_months h args base total i months res st = (Some res', st') ->
    exists done rest,
      months = done ++ rest /\
      Forall (fun mv => snd mv = Skipped \/ snd mv = Succeeded)
             (verdicts h args base done (b_fs st)) /\
      success res'
      = success res
        ++ months_with is_succeeded (verdicts h args base done (b_fs st)) /\
      skipped res'
      = skipped res
        ++ months_with is_skipped (verdicts h args base done (b_fs st)) /\
      match rest with
      | [] => failed res' = failed res /\
              b_fs st' = fs_after h args base done (b_fs st)
      | m :: _ =>
          exists c fs',
            skips h args base m (fs_after h args base done (b_fs st)) = false /\
            subprocess_run h (command h args m)
                           (fs_after h args base done (b_fs st))
            = (Some c, fs') /\
            returncode c <> 0 /\
            failed res' = failed res ++ [(m, Some (error_text m c))] /\
            b_fs st' = fs' /\
            last (b_log st') = Some StoppingDueToError
      end.
Proof.
  induction months as [|m ms IH]; intros i res res' st st' H.
  - cbn [download_months] in H. inversion H; subst.
    exists [], []. unfold months_with. cbn. rewrite !app_nil_r.
    repeat split. constructor.
  - cbn [download_months] in H.
    change (path_join h (save_dir args) (base +:+ "_" +:+ m +:+ ".tif")%string)
      with (expected_output h args base m) in H.
    change (skip_existing args
            && path_exists h (b_fs st) (expected_output h args base m))
      with (skips h args base m (b_fs st)) in H.
    destruct (skips h args base m (b_fs st)) eqn:Es.
    + destruct (IH _ _ _ _ _ H) as (done & rest & Hm & Hall & Hs & Hk & Hrest).
      cbn [success failed skipped emit b_fs] in *.
      assert (Ev : verdict h args base m (b_fs st) = (Skipped, b_fs st))
        by (unfold verdict; now rewrite Es).
      exists (m :: done), rest. cbn [verdicts fs_after]. rewrite Ev. cbn [fst snd].
      split; [now rewrite Hm|]. split; [constructor; [now left|exact Hall]|].
      unfold months_with in *. cbn [List.filter is_succeeded is_skipped snd map fst].
      split; [exact Hs|]. split; [now rewrite Hk, <- app_assoc|exact Hrest].
    + unfold run_downloader in H. rewrite Hd in H.
      cbn [app emit b_fs b_log] in H.
      change [sys_executable h; "planet_downloader.py"; "--aoi"; aoi args;
              "--month"; m; "--api-key"; api_key args; "--zoom";
              py_str (zoom args); "--save-dir"; save_dir args]%string
        with (command h args m) in H.
      destruct (subprocess_run h (command h args m) (b_fs st))
        as [[c|] fs'] eqn:Er; [|discriminate H].
      destruct (returncode c =? 0) eqn:Erc.
      * destruct (IH _ _ _ _ _ H) as (done & rest & Hm & Hall & Hs & Hk & Hrest).
        cbn [success failed skipped emit b_fs] in *.
        assert (Ev : verdict h args base m (b_fs st) = (Succeeded, fs'))
          by (unfold verdict; now rewrite Es, Er, Erc).
        exists (m :: done), rest. cbn [verdicts fs_after]. rewrite Ev.
        cbn [fst snd].
        split; [now rewrite Hm|]. split; [constructor; [now right|exact Hall]|].
        unfold months_with in *.
        cbn [List.filter is_succeeded is_skipped snd map fst].
        split; [now rewrite Hs, <- app_assoc|]. split; [exact Hk|exact Hrest].
      * rewrite Hc in H. cbn [negb andb] in H. inversion H; subst.
        exists [], (m :: ms). unfold months_with.
        cbn [verdicts fs_after List.filter map app success failed skipped].
        rewrite !app_nil_r.
        split; [reflexivity|]. split; [constructor|].
        split; [reflexivity|]. split; [reflexivity|].
        exists c, fs'. split; [exact Es|]. split; [exact Er|].
        split; [now apply Z.eqb_neq|]. split; [reflexivity|].
        split; [reflexivity|]. cbn [emit b_log]. apply last_snoc.
Qed.

End Trace.

End BatchFacts.

Module BatchProperties.

Import Strings.Ascii Months MonthNotions Batch BatchNotions BatchFacts.
Local Open Scope Z_scope.

Section Run.

Context {FS : Type} (h : Host FS).

(** When every child process can be started the loop runs to its end or
    to its [break]. *)
Lemma download_months_some (args : BatchArgs) (base : string) (total : nat)
      (months : list string) :
  (forall cmd fs, fst (subprocess_run h cmd fs) <> None) ->
  forall (i : nat) (res : Results) (st : BSt FS),
    exists res' st',
      download_months h args base total i months res st = (Some res', st').
Proof.
  intros Hrun. induction months as [|m rest IH]; intros i res st.
  - eexists; eexists; reflexivity.
  - cbn [download_months].
    destruct (skip_existing args && path_exists h (b_fs st) _); [apply IH|].
    unfold run_downloader.
    destruct (dry_run args) eqn:Hd; [apply IH|].
    match goal with |- context [subprocess_run h ?c ?f] =>
      pose proof (Hrun c f) as Hc; destruct (subprocess_run h c f) as [[r|] fs']
    end; [|now elim Hc].
    destruct (returncode r =? 0); [apply IH|].
    destruct (negb (continue_on_error args) && negb false);
      [eexists; eexists; reflexivity|apply IH].
Qed.

End Run.

(** X8: without [--continue-on-error] and [--dry-run] the loop over the
    months stops at the first month whose download fails.  The months
    split into those dealt with and the rest.  Each month dealt with was
    skipped, its expected output being there, or downloaded by a child
    process that exited with status 0; these are, in order, the months
    recorded as skipped and as successful.  If the rest is empty no
    month is recorded as failed.  Otherwise its first month is the one
    failed month: it was not skipped, the child process started for it,
    on the file system the months before had left, exited with a
    non-zero status, and its standard error is in the recorded message;
    the loop ends there, with "Stopping due to error" printed last and
    the file system as that child left it, so no child is started for
    the months after it. *)
Theorem batch_stops_at_first_failure {FS : Type} (h : Host FS)
        (args : BatchArgs) (base : string) (total i : nat)
        (months : list string) (res : Results) (st st' : BSt FS) :
  continue_on_error args = false -> dry_run args = false ->
  download_months h args base total i months no_results st = (Some res, st') ->
  exists done rest,
    months = done ++ rest /\
    Forall (fun mv => snd mv = Skipped \/ snd mv = Succeeded)
           (verdicts h args base done (b_fs st)) /\
    success res = months_with is_succeeded (verdicts h args base done (b_fs st)) /\
    skipped res = months_with is_skipped (verdicts h args base done (b_fs st)) /\
    match rest with
    | [] => failed res = [] /\ b_fs st' = fs_after h args base done (b_fs st)
    | m :: _ =>
        exists c fs',
          skips h args base m (fs_after h args base done (b_fs st)) = false /\
          subprocess_run h (command h args m)
                         (fs_after h args base done (b_fs st))
          = (Some c, fs') /\
          returncode c <> 0 /\
          failed res = [(m, Some (error_text m c))] /\
          b_fs st' = fs' /\
          last (b_log st') = Some StoppingDueToError
    end.
Proof.
  intros Hc Hd H.
  exact (download_months_trace h args base Hc Hd total months i _ _ _ _ H).
Qed.

Lemma batch_stops_at_first_failure_witness :
  exists res st' c fs fs',
    download_months (demo_host "y") (demo_args false false true) "area"
      4 1 ["2020_01"; "2020_02"; "2020_03"; "2020_04"]%string
      no_results demo_st = (Some res, st') /\
    success res = ["2020_01"]%string /\
    skipped res = ["2020_02"]%string /\
    subprocess_run (demo_host "y")
      (command (demo_host "y") (demo_args false false true) "2020_03") fs
    = (Some c, fs') /\
    returncode c <> 0 /\
    failed res = [("2020_03"%string, Some (error_text "2020_03" c))] /\
    b_fs st' = fs'.
Proof.
  destruct (download_months (demo_host "y") (demo_args false false true) "area"
              4 1 ["2020_01"; "2020_02"; "2020_03"; "2020_04"]%string
              no_results demo_st) as [[res|] st'] eqn:E;
    [|vm_compute in E; discriminate E].
  destruct (batch_stops_at_first_failure (demo_host "y")
              (demo_args false false true) "area" 4 1
              ["2020_01"; "2020_02"; "2020_03"; "2020_04"]%string
              res demo_st st' eq_refl eq_refl E)
    as (done & rest & Hm & _ & _ & _ & Hrest).
  assert (Hres : res = mkResults ["2020_01"]%string
                         [("2020_03"%string,
                           Some (error_text "2020_03"
                                   (mkCompleted 1 "" "Traceback")))]
                         ["2020_02"]%string)
    by (vm_compute in E; inversion E; reflexivity).
  destruct rest as [|m rest'].
  - destruct Hrest as [Hf _]. rewrite Hres in Hf. discriminate Hf.
  - destruct Hrest as (c & fs' & _ & Hrun & Hrc & Hf & Hfs & _).
    assert (Em : m = "2020_03"%string)
      by (rewrite Hres in Hf; cbn [failed] in Hf; inversion Hf; reflexivity).
    subst m.
    exists res, st', c. eexists. exists fs'. split; [reflexivity|].
    split; [now rewrite Hres|]. split; [now rewrite Hres|].
    split; [exact Hrun|]. split; [exact Hrc|]. split; [exact Hf|exact Hfs].
Defined.

(** X9: with [--continue-on-error], once the AOI file exists, the month
    range is generated, the save directory is made, the user confirms
    and the child processes can be started, the batch deals with every
    month (each one is recorded as successful, failed or skipped), prints
    the summary last, and returns normally: failed months do not make
    the exit status non-zero. *)
Theorem continue_on_error_covers_all {FS : Type} (h : Host FS)
        (args : BatchArgs) (st : BSt FS) (months : list string) (fs1 : FS)
        (response : string) :
  continue_on_error args = true -> dry_run args = false ->
  path_exists h (b_fs st) (aoi args) = true ->
  generate_month_range (pad_year h) month_fuel (start args) (end_ args)
  = Some (Ret months) ->
  makedirs h (save_dir args) (b_fs st) = Some fs1 ->
  input h = Some response ->
  response = "y"%string \/ response = "Y"%string ->
  (forall cmd fs, fst (subprocess_run h cmd fs) <> None) ->
  exists res st',
    main h args st = (Returned, st') /\
    Permutation (accounted res) months /\
    last (b_log st') = Some (Summary res (length months)).
Proof.
  intros Hc Hd Ha Hg Hm Hi Hy Hrun.
  unfold main. rewrite Ha, Hg, Hm, Hd, Hi. cbn [negb].
  assert (E : String.eqb (py_lower response) "y" = true)
    by (apply String.eqb_eq, py_lower_y; exact Hy).
  rewrite E.
  match goal with |- context [download_months h args ?b ?t ?i months ?r ?s] =>
    destruct (download_months_some h args b t months Hrun i r s)
      as (res & st3 & Hdl)
  end.
  rewrite Hdl.
  destruct (download_months_all h args _ _ months (or_introl Hc) _ _ _ _ _ Hdl)
    as (s & f & k & Hs & Hf & Hk & Hp).
  cbn [no_results success failed skipped app] in *.
  exists res, (emit st3 (Summary res (length months))).
  split; [|split].
  - rewrite Hc. cbn [negb]. now destruct (failed res).
  - unfold accounted. now rewrite Hs, Hf, Hk.
  - cbn [emit b_log]. apply last_snoc.
Qed.

Lemma continue_on_error_covers_all_witness :
  exists res st',
    main (demo_host "Y") (demo_args false true false) demo_st = (Returned, st') /\
    Permutation (accounted res)
                ["2020_01"; "2020_02"; "2020_03"; "2020_04"]%string /\
    failed res <> [].
Proof.
  destruct (continue_on_error_covers_all (demo_host "Y")
              (demo_args false true false) demo_st
              ["2020_01"; "2020_02"; "2020_03"; "2020_04"]%string
              ("./data" :: b_fs demo_st)%string "Y")
    as (res & st' & Hmain & Hp & Hl).
  - reflexivity.
  - reflexivity.
  - reflexivity.
  - vm_compute. reflexivity.
  - reflexivity.
  - reflexivity.
  - right. reflexivity.
  - intros cmd fs. simpl. discriminate.
  - exists res, st'. split; [exact Hmain|]. split; [exact Hp|].
    assert (E : main (demo_host "Y") (demo_args false true false) demo_st
                = (Returned, st')) by exact Hmain.
    vm_compute in E. inversion E as [Hst]. rewrite <- Hst in Hl.
    vm_compute in Hl. inversion Hl. discriminate.
Defined.

(** X10: a dry run starts no child process and does not wait at the
    prompt: its result is the same whatever the child and the answer
    would be.  It still makes the save directory, changes no other file,
    records every month as successful or skipped, none as failed, and
    returns normally. *)
Theorem dry_run_is_inert {FS : Type} (h : Host FS) (args : BatchArgs)
        (st : BSt FS) (months : list string) (fs1 : FS) :
  dry_run args = true ->
  path_exists h (b_fs st) (aoi args) = true ->
  generate_month_range (pad_year h) month_fuel (start args) (end_ args)
  = Some (Ret months) ->
  makedirs h (save_dir args) (b_fs st) = Some fs1 ->
  (exists res st',
      main h args st = (Returned, st') /\
      b_fs st' = fs1 /\
      failed res = [] /\
      Permutation (success res ++ skipped res) months /\
      last (b_log st') = Some (Summary res (length months))) /\
  (forall run' input',
      main (mkHost (sys_executable h) (pad_year h) (path_exists h) (makedirs h)
                   (basename_noext h) (path_join h) run' input') args st
      = main h args st).
Proof.
  intros Hd Ha Hg Hm. split.
  - unfold main. rewrite Ha, Hg, Hm, Hd. cbn [negb].
    match goal with |- context [download_months h args ?b ?t ?i months ?r ?s] =>
      destruct (download_months_dry h args b t months Hd i r s)
        as (res & st3 & Hdl & Hf & Hfs)
    end.
    rewrite Hdl.
    destruct (download_months_all h args _ _ months (or_intror Hd) _ _ _ _ _ Hdl)
      as (s & f & k & Hs & Hf' & Hk & Hp).
    cbn [no_results success failed skipped app emit b_fs] in *.
    exists res, (emit st3 (Summary res (length months))).
    rewrite Hf. split; [reflexivity|]. split; [exact Hfs|].
    split; [reflexivity|]. split.
    + rewrite Hf in Hf'. subst f. rewrite Hs, Hk. exact Hp.
    + cbn [emit b_log]. apply last_snoc.
  - intros run' input'. unfold main.
    cbn [path_exists pad_year makedirs basename_noext].
    rewrite Ha, Hg, Hm, Hd. cbn [negb].
    now rewrite (download_months_dry_indep h run' input' args _ _ months Hd).
Qed.

Lemma dry_run_is_inert_witness :
  exists res st',
    main (demo_host "n") (demo_args true false true) demo_st = (Returned, st') /\
    b_fs st' = ("./data" :: b_fs demo_st)%string /\
    failed res = [] /\
    Permutation (success res ++ skipped res)
                ["2020_01"; "2020_02"; "2020_03"; "2020_04"]%string.
Proof.
  destruct (dry_run_is_inert (demo_host "n") (demo_args true false true)
              demo_st ["2020_01"; "2020_02"; "2020_03"; "2020_04"]%string
              ("./data" :: b_fs demo_st)%string)
    as [(res & st' & H1 & H2 & H3 & H4 & _) _].
  - reflexivity.
  - reflexivity.
  - vm_compute. reflexivity.
  - reflexivity.
  - exists res, st'. repeat split; assumption.
Defined.

(** X11: the prompt accepts exactly the answers [y] and [Y]: on any
    other line (also [yes], or [y] followed by a blank) the batch prints
    "Aborted by user." and exits with status 0 without starting a child
    process; the save directory has been made by then. *)
Theorem abort_at_prompt {FS : Type} (h : Host FS) (args : BatchArgs)
        (st : BSt FS) (months : list string) (fs1 : FS) (response : string) :
  dry_run args = false ->
  path_exists h (b_fs st) (aoi args) = true ->
  generate_month_range (pad_year h) month_fuel (start args) (end_ args)
  = Some (Ret months) ->
  makedirs h (save_dir args) (b_fs st) = Some fs1 ->
  input h = Some response ->
  response <> "y"%string -> response <> "Y"%string ->
  main h args st
  = (SystemExit 0,
     mkBSt fs1 (b_log st ++ [Banner args months; Prompt; AbortedByUser])).
Proof.
  intros Hd Ha Hg Hm Hi Hy1 Hy2.
  unfold main. rewrite Ha, Hg, Hm, Hd, Hi. cbn [negb].
  assert (E : String.eqb (py_lower response) "y" = false).
  { apply String.eqb_neq. intros E. apply py_lower_y in E. tauto. }
  rewrite E. unfold emit. cbn [b_fs b_log].
  now rewrite <- !app_assoc.
Qed.

Lemma abort_at_prompt_witness :
  fst (main (demo_host "yes") (demo_args false false false) demo_st)
  = SystemExit 0.
Proof.
  rewrite (abort_at_prompt (demo_host "yes") (demo_args false false false)
             demo_st ["2020_01"; "2020_02"; "2020_03"; "2020_04"]%string
             ("./data" :: b_fs demo_st)%string "yes");
    [reflexivity|reflexivity|reflexivity|vm_compute; reflexivity
    |reflexivity|reflexivity|discriminate|discriminate].
Defined.

(** X12: without [--continue-on-error], a batch that returns normally
    (exit status 0, not through the prompt) has generated its months and
    dealt with all of them, none failed: each is recorded as successful
    or skipped, and the summary is the last thing printed. *)
Theorem strict_return_means_complete {FS : Type} (h : Host FS)
        (args : BatchArgs) (st st' : BSt FS) :
  continue_on_error args = false ->
  main h args st = (Returned, st') ->
  exists months res,
    generate_month_range (pad_year h) month_fuel (start args) (end_ args)
    = Some (Ret months) /\
    failed res = [] /\
    Permutation (success res ++ skipped res) months /\
    last (b_log st') = Some (Summary res (length months)).
Proof.
  intros Hc H. unfold main in H.
  destruct (path_exists h (b_fs st) (aoi args)); [|discriminate H].
  cbn [negb] in H.
  destruct (generate_month_range _ _ _ _) as [[months|[]]|];
    try discriminate H.
  destruct (makedirs h (save_dir args) (b_fs st)) as [fs1|]; [|discriminate H].
  match type of H with
  | context [download_months h args ?b ?t ?i months ?r _] =>
      assert (Hloop : forall s res s3,
                 download_months h args b t i months r s = (Some res, s3) ->
                 failed res = [] ->
                 Permutation (success res ++ skipped res) months)
  end.
  { intros s res s3 Hdl Hf. destruct (dry_run args) eqn:Hd.
    - destruct (download_months_all h args _ _ months (or_intror Hd)
                  _ _ _ _ _ Hdl) as (s' & f & k & Hs & Hf' & Hk & Hp).
      cbn [no_results success failed skipped app] in *.
      rewrite Hf in Hf'. subst f. now rewrite Hs, Hk.
    - destruct (download_months_strict h args _ _ months Hc Hd _ _ _ _ _ Hdl)
        as (s' & k & Hs & Hk & Hcase).
      cbn [no_results success failed skipped app] in *. rewrite Hs, Hk.
      destruct Hcase as [[_ Hp]|(done & m & e & rest & _ & Hf' & _)];
        [exact Hp|]. rewrite Hf in Hf'. discriminate Hf'. }
  assert (Hend : forall s,
             match download_months h args (basename_noext h (aoi args))
                                   (length months) 1 months no_results s with
             | (None, st3) => (Traceback, st3)
             | (Some results, st3) =>
                 match failed results with
                 | [] => (Returned, emit st3 (Summary results (length months)))
                 | _ :: _ =>
                     if negb (continue_on_error args)
                     then (SystemExit 1,
                           emit st3 (Summary results (length months)))
                     else (Returned, emit st3 (Summary results (length months)))
                 end
             end = (Returned, st') ->
             exists res,
               failed res = [] /\
               Permutation (success res ++ skipped res) months /\
               last (b_log st') = Some (Summary res (length months))).
  { intros s Hs.
    destruct (download_months h args _ _ _ months _ s) as [[res|] st3] eqn:Hdl;
      [|discriminate Hs].
    destruct (failed res) as [|x l] eqn:Hf.
    - inversion Hs; subst st'. exists res. split; [exact Hf|].
      split; [exact (Hloop _ _ _ Hdl Hf)|]. cbn [emit b_log]. apply last_snoc.
    - rewrite Hc in Hs. discriminate Hs. }
  exists months.
  destruct (dry_run args).
  - destruct (Hend _ H) as (res & R). exists res. split; [reflexivity|exact R].
  - destruct (input h) as [response|]; [|discriminate H].
    destruct (String.eqb (py_lower response) "y"); [|discriminate H].
    destruct (Hend _ H) as (res & R). exists res. split; [reflexivity|exact R].
Qed.

Lemma strict_return_means_complete_witness :
  exists months res,
    generate_month_range true month_fuel "2020_01" "2020_02" = Some (Ret months) /\
    failed res = [] /\
    Permutation (success res ++ skipped res) months.
Proof.
  destruct (strict_return_means_complete (demo_host "y")
              (mkBatchArgs "area.geojson" "2020_01" "2020_02" "KEY" 15 "./data"
                           false false true)
              demo_st
              (snd (main (demo_host "y")
                      (mkBatchArgs "area.geojson" "2020_01" "2020_02" "KEY" 15
                                   "./data" false false true) demo_st)))
    as (months & res & H1 & H2 & H3 & _).
  - reflexivity.
  - vm_compute. reflexivity.
  - exists months, res. repeat split; assumption.
Defined.

End BatchProperties.

Module RunProperties.

Import Mercantile Rasterio Planet Notions PipelineNotions.
Import FetchClaims PipelineFacts PipelineClaims Chunks.
Local Open Scope Z_scope.

Lemma cleanup_no_tiles (st : St) (z x y : Z) :
  fs (cleanup st) !! TileFile z x y = None.
Proof.
  unfold cleanup, cleanup_tmpdir. simpl.
  apply map_lookup_filter_None. right. intros d _. simpl. discriminate.
Qed.

(** X13: whatever happens in a run, [main] leaves no tile file behind,
    and of the files outside the temporary directory it can only have
    changed its own output GeoTIFF: every other file is as it was. *)
Theorem main_file_footprint (w : World) (args : Args) (st : St) :
  let st' := snd (main w args st) in
  (forall z x y, fs st' !! TileFile z x y = None) /\
  (forall n, OutputFile n <> OUTPUT_GEOTIFF args ->
             fs st' !! OutputFile n = fs st !! OutputFile n).
Proof.
  destruct (total_bounds args) as [[[b0 b1] b2] b3] eqn:Hb.
  pose proof (main_spec w args st b0 b1 b2 b3 Hb) as Hmain.
  cbv zeta in Hmain. cbv zeta. rewrite Hmain. clear Hmain.
  set (ts := tiles (merc_y w) b0 b1 b2 b3 (zoom args)).
  set (url := TMS_URL args).
  set (st1 := mkSt (stored_tiles w url ts (fs st))
                   (stdout st ++ TotalTiles (length ts) :: failure_log w url ts)).
  assert (Hst1 : forall n, fs st1 !! OutputFile n = fs st !! OutputFile n)
    by (intros n; apply stored_tiles_output).
  destruct (collect_paths w (map (fetched w url) ts)) as [|p ps].
  - cbn [snd]. split; [intros; apply cleanup_no_tiles|].
    intros n _. rewrite cleanup_say_output. apply Hst1.
  - destruct (merge_in_batches_frame w (p :: ps) 500 (say st1 MergingTiles))
      as [l Hl].
    destruct (merge_in_batches w (p :: ps) 500 (say st1 MergingTiles))
      as [[mt|e] st3]; cbn [snd] in Hl.
    + destruct (gtiff_of (fst mt) (snd mt)) as [d|e].
      * destruct (write_fault w (OUTPUT_GEOTIFF args)) as [e|].
        -- cbn [snd]. split; [intros; apply cleanup_no_tiles|].
           intros n _. rewrite cleanup_say_output. subst st3. apply Hst1.
        -- cbn [snd]. split; [intros; apply cleanup_no_tiles|].
           intros n Hn. rewrite cleanup_say_output. cbn [fs].
           rewrite lookup_insert_ne by congruence. subst st3. apply Hst1.
      * cbn [snd]. split; [intros; apply cleanup_no_tiles|].
        intros n _. rewrite cleanup_say_output. subst st3. apply Hst1.
    + cbn [snd]. split; [intros; apply cleanup_no_tiles|].
      intros n _. rewrite cleanup_say_output. subst st3. apply Hst1.
Qed.

(** X14: [merge_in_batches] gives no mosaic for a batch size that is not
    positive, whatever the paths: with [batch_size = 0] the [range] call
    raises [ValueError] before anything is opened or printed; with a
    negative one the loop body never runs, "Merging final batches..."
    is printed, and the final merge of no rasters raises [IndexError].
    The files are untouched in both cases. *)
Theorem nonpositive_batch_size (w : World) (paths : list path) (bs : Z)
        (st : St) :
  bs <= 0 ->
  merge_in_batches w paths bs st
  = if bs =? 0
    then (Raise (ValueError "range() arg 3 must not be zero"), st)
    else (Raise IndexError, say st MergingFinalBatches).
Proof.
  intros Hbs. unfold merge_in_batches, bind, lift, range_step.
  destruct (Z.eqb_spec bs 0) as [?|Hne]; [reflexivity|].
  destruct (Z.ltb_spec bs 0) as [_|?]; [|lia].
  reflexivity.
Qed.

Lemma nonpositive_batch_size_witness :
  fst (merge_in_batches Demo.world Demo.four_paths (-2) Demo.four_tiles)
  = Raise IndexError.
Proof.
  rewrite (nonpositive_batch_size Demo.world Demo.four_paths (-2)
             Demo.four_tiles); [reflexivity|lia].
Defined.

(** X15: the HTTP status alone decides whether a reply is taken as a
    tile.  For a status from 400 to 599 the fetch returns [None] and
    reports the status, whatever the body holds; for any other status
    (200, but also 204 or 302) a body that decodes to a non-empty image
    is written as this tile's three-band raster with the image's
    size. *)
Theorem status_decides (w : World) (tile : Tile) (url : string) (st : St)
        (r : response) :
  session_get w url tile = Ret r ->
  (400 <= status_code r < 600 ->
   download_and_save_tile w tile url st
   = (Ret None,
      mkSt (fs st)
           (stdout st ++ [FailedDownloading tile (HTTPError (status_code r))])))
  /\
  (~ 400 <= status_code r < 600 ->
   forall img,
     image_open w (content r) = Ret img ->
     img_width img <> 0 -> img_height img <> 0 ->
     write_fault w (TileFile (tz tile) (tx tile) (ty tile)) = None ->
     exists d,
       download_and_save_tile w tile url st
       = (Ret (Some (TileFile (tz tile) (tx tile) (ty tile))),
          mkSt (<[TileFile (tz tile) (tx tile) (ty tile) := d]> (fs st))
               (stdout st)) /\
       ds_width d = img_width img /\ ds_height d = img_height img /\
       ds_bands d = [img_r img; img_g img; img_b img]).
Proof.
  intros Hget. rewrite download_spec. unfold fetch_outcome, raise_for_status.
  rewrite Hget. split.
  - intros [H1 H2].
    destruct (Z.leb_spec 400 (status_code r)); [|lia].
    destruct (Z.ltb_spec (status_code r) 600); [|lia]. reflexivity.
  - intros Hs img Himg Hw Hh Hwr.
    assert (E : (400 <=? status_code r) && (status_code r <? 600) = false).
    { destruct (Z.leb_spec 400 (status_code r));
        destruct (Z.ltb_spec (status_code r) 600); try reflexivity. lia. }
    rewrite E, Himg. unfold from_bounds.
    destruct (Z.eqb_spec (img_width img) 0); [contradiction|].
    destruct (Z.eqb_spec (img_height img) 0); [contradiction|].
    cbn [orb]. rewrite Hwr. eexists. split; [reflexivity|].
    repeat split.
Qed.

Lemma status_decides_witness :
  fst (download_and_save_tile Demo.world (mkTile 1 1 1) "u" Demo.st0) = Ret None.
Proof.
  destruct (status_decides Demo.world (mkTile 1 1 1) "u" Demo.st0
              (mkResponse 404 []) eq_refl) as [H _].
  rewrite H; [reflexivity|]. simpl. lia.
Defined.

(** X16: for a positive batch size the slices taken by the loop of
    [merge_in_batches] partition the paths: put end to end, in the
    order of the loop, they give the sequence of paths back, and every
    batch holds at least one and at most [batch_size] paths. *)
Theorem batches_partition_paths (paths : list path) (bs : Z) :
  1 <= bs ->
  exists starts,
    range_step (Z.of_nat (length paths)) bs = Ret starts /\
    concat (map (fun i => slice paths i bs) starts) = paths /\
    Forall (fun i => 1 <= Z.of_nat (length (slice paths i bs)) <= bs) starts.
Proof.
  intros Hbs.
  assert (Hr : exists starts, range_step (Z.of_nat (length paths)) bs = Ret starts).
  { unfold range_step.
    destruct (Z.eqb_spec bs 0); [lia|]. destruct (Z.ltb_spec bs 0); [lia|].
    eexists; reflexivity. }
  destruct Hr as [starts Hr]. exists starts. split; [exact Hr|].
  split; [exact (slices_concat paths bs starts Hbs Hr)|].
  unfold range_step in Hr.
  destruct (Z.eqb_spec bs 0); [lia|]. destruct (Z.ltb_spec bs 0); [lia|].
  inversion Hr; subst starts; clear Hr.
  apply List.Forall_forall. intros i Hi. apply in_map_iff in Hi.
  destruct Hi as (k & Hk & Hin). apply in_seq in Hin. subst i.
  set (len := Z.of_nat (length paths)) in *.
  assert (Hkn : Z.of_nat k * bs < len).
  { assert (Z.of_nat k < (len + bs - 1) / bs) by lia.
    assert (Z.of_nat k + 1 <= (len + bs - 1) / bs) by lia.
    assert (bs * (Z.of_nat k + 1) <= len + bs - 1).
    { etransitivity; [apply Z.mul_le_mono_nonneg_l; [lia|eassumption]|].
      apply Z.mul_div_le. lia. }
    lia. }
  unfold slice. rewrite length_firstn, length_skipn.
  assert (0 <= Z.of_nat k * bs) by lia.
  unfold len in Hkn. lia.
Qed.

Lemma batches_partition_paths_witness :
  exists starts,
    range_step 4 2 = Ret starts /\
    concat (map (fun i => slice Demo.four_paths i 2) starts) = Demo.four_paths.
Proof.
  destruct (batches_partition_paths Demo.four_paths 2) as (starts & H1 & H2 & _).
  - lia.
  - exists starts. split; [exact H1|exact H2].
Defined.

End RunProperties.

Module MergeOrder.

Import Rasterio Planet PipelineNotions MergeNotions OrderNotions.
Import ArrayFacts GridMerge BatchCells BatchedMerge.
Local Open Scope Z_scope.

Lemma first_nonzero_zero (L : list Cell) (b : nat) (J I : Z) :
  first_nonzero L b J I = 0 <-> forall k, In k L -> cell_sample k b J I = 0.
Proof.
  induction L as [|k L IH]; simpl.
  - split; [intros _ k []|reflexivity].
  - destruct (Z.eqb_spec (cell_sample k b J I) 0) as [E|E].
    + rewrite IH. split.
      * intros H k' [<-|Hk]; [exact E|now apply H].
      * intros H k' Hk. apply H. now right.
    + split; [congruence|]. intros H. exfalso. apply E, H. now left.
Qed.

Lemma first_nonzero_In (L : list Cell) (b : nat) (J I : Z) :
  first_nonzero L b J I <> 0 ->
  exists k, In k L /\ cell_sample k b J I = first_nonzero L b J I.
Proof.
  induction L as [|k L IH]; simpl; [congruence|].
  destruct (Z.eqb_spec (cell_sample k b J I) 0) as [E|E].
  - intros H. destruct (IH H) as (k' & Hk & Hs). exists k'. split; [now right|exact Hs].
  - intros _. exists k. split; [now left|reflexivity].
Qed.

Lemma first_nonzero_perm (L L' : list Cell) (b : nat) (J I : Z) :
  Permutation L L' -> compatible L ->
  first_nonzero L b J I = first_nonzero L' b J I.
Proof.
  intros Hp Hc.
  destruct (Z.eq_dec (first_nonzero L b J I) 0) as [E|E].
  - rewrite E. symmetry. apply first_nonzero_zero. intros k Hk.
    apply (proj1 (first_nonzero_zero L b J I) E).
    eapply Permutation_in; [apply Permutation_sym; exact Hp|exact Hk].
  - destruct (first_nonzero_In L b J I E) as (k & Hk & Hs).
    assert (E' : first_nonzero L' b J I <> 0).
    { intros H. apply E. rewrite <- Hs.
      apply (proj1 (first_nonzero_zero L' b J I) H).
      eapply Permutation_in; eassumption. }
    destruct (first_nonzero_In L' b J I E') as (k' & Hk' & Hs').
    rewrite <- Hs, <- Hs'. apply Hc.
    + exact Hk.
    + eapply Permutation_in; [apply Permutation_sym; exact Hp|exact Hk'].
    + now rewrite Hs.
    + now rewrite Hs'.
Qed.

Lemma perm_nonempty {A} (L L' : list A) : Permutation L L' -> L <> [] -> L' <> [].
Proof. intros Hp Hne ->. apply Hne. now apply Permutation_nil, Permutation_sym. Qed.

Lemma col_lo_perm (L L' : list Cell) :
  Permutation L L' -> L <> [] -> col_lo L = col_lo L'.
Proof.
  intros Hp Hne. pose proof (perm_nonempty L L' Hp Hne) as Hne'.
  assert (He : Permutation (edge_cols L) (edge_cols L'))
    by (unfold edge_cols; now apply Permutation_flat_map).
  destruct (col_lo_spec L Hne) as [H1 H2].
  destruct (col_lo_spec L' Hne') as [H1' H2'].
  apply Z.le_antisymm.
  - apply H2. eapply Permutation_in; [apply Permutation_sym; exact He|exact H1'].
  - apply H2'. eapply Permutation_in; [exact He|exact H1].
Qed.

Lemma col_hi_perm (L L' : list Cell) :
  Permutation L L' -> L <> [] -> col_hi L = col_hi L'.
Proof.
  intros Hp Hne. pose proof (perm_nonempty L L' Hp Hne) as Hne'.
  assert (He : Permutation (edge_cols L) (edge_cols L'))
    by (unfold edge_cols; now apply Permutation_flat_map).
  destruct (col_hi_spec L Hne) as [H1 H2].
  destruct (col_hi_spec L' Hne') as [H1' H2'].
  apply Z.le_antisymm.
  - apply H2'. eapply Permutation_in; [exact He|exact H1].
  - apply H2. eapply Permutation_in; [apply Permutation_sym; exact He|exact H1'].
Qed.

Lemma row_lo_perm (L L' : list Cell) :
  Permutation L L' -> L <> [] -> row_lo L = row_lo L'.
Proof.
  intros Hp Hne. pose proof (perm_nonempty L L' Hp Hne) as Hne'.
  assert (He : Permutation (edge_rows L) (edge_rows L'))
    by (unfold edge_rows; now apply Permutation_flat_map).
  destruct (row_lo_spec L Hne) as [H1 H2].
  destruct (row_lo_spec L' Hne') as [H1' H2'].
  apply Z.le_antisymm.
  - apply H2. eapply Permutation_in; [apply Permutation_sym; exact He|exact H1'].
  - apply H2'. eapply Permutation_in; [exact He|exact H1].
Qed.

Lemma row_hi_perm (L L' : list Cell) :
  Permutation L L' -> L <> [] -> row_hi L = row_hi L'.
Proof.
  intros Hp Hne. pose proof (perm_nonempty L L' Hp Hne) as Hne'.
  assert (He : Permutation (edge_rows L) (edge_rows L'))
    by (unfold edge_rows; now apply Permutation_flat_map).
  destruct (row_hi_spec L Hne) as [H1 H2].
  destruct (row_hi_spec L' Hne') as [H1' H2'].
  apply Z.le_antisymm.
  - apply H2'. eapply Permutation_in; [exact He|exact H1].
  - apply H2. eapply Permutation_in; [apply Permutation_sym; exact He|exact H1'].
Qed.

Lemma grid_mosaic_perm (n : nat) (L L' : list Cell) :
  Permutation L L' -> L <> [] -> compatible L ->
  grid_mosaic n L = grid_mosaic n L'.
Proof.
  intros Hp Hne Hc. unfold grid_mosaic, mk_ndarray.
  rewrite <- (col_lo_perm L L' Hp Hne), <- (col_hi_perm L L' Hp Hne),
          <- (row_lo_perm L L' Hp Hne), <- (row_hi_perm L L' Hp Hne).
  f_equal. apply tabulate3_ext. intros b r c _ _ _.
  now apply first_nonzero_perm.
Qed.

Lemma cells_of_perm (G : Grid) (ds ds' : list Dataset) :
  Permutation ds ds' ->
  forall cells, cells_of G ds cells ->
                exists cells', Permutation cells cells' /\ cells_of G ds' cells'.
Proof.
  unfold cells_of.
  induction 1 as [|x l l' Hp IH|x y l|l l' l'' Hp1 IH1 Hp2 IH2];
    intros cells Hc.
  - inversion Hc; subst. exists []. split; constructor.
  - inversion Hc as [|? k ? c Hk Hl]; subst.
    destruct (IH c Hl) as (c' & Hpc & Hc').
    exists (k :: c'). split; [now constructor|now constructor].
  - inversion Hc as [|? ky ? c1 Hky Hl1]; subst.
    inversion Hl1 as [|? kx ? c Hkx Hl]; subst.
    exists (kx :: ky :: c). split; [apply perm_swap|].
    constructor; [exact Hkx|]. constructor; [exact Hky|exact Hl].
  - destruct (IH1 cells Hc) as (c' & Hp' & Hc').
    destruct (IH2 c' Hc') as (c'' & Hp'' & Hc'').
    exists c''. split; [eapply Permutation_trans; eassumption|exact Hc''].
Qed.

Lemma same_mosaic_trans (r1 r2 r3 : Outcome (ndarray * Affine)) :
  same_mosaic r1 r2 -> same_mosaic r2 r3 -> same_mosaic r1 r3.
Proof.
  destruct r1 as [[m1 t1]|e1], r2 as [[m2 t2]|e2], r3 as [[m3 t3]|e3];
    simpl; try tauto; try congruence.
  intros [-> H12] [-> H23]. split; [reflexivity|].
  destruct H12 as (A1 & A2 & A3 & A4 & A5 & A6).
  destruct H23 as (B1 & B2 & B3 & B4 & B5 & B6).
  unfold affine_eq. rewrite A1, A2, A3, A4, A5, A6.
  repeat split; assumption.
Qed.

Lemma same_mosaic_sym (r1 r2 : Outcome (ndarray * Affine)) :
  same_mosaic r1 r2 -> same_mosaic r2 r1.
Proof.
  destruct r1 as [[m1 t1]|e1], r2 as [[m2 t2]|e2]; simpl; try tauto; try congruence.
  intros [-> (A1 & A2 & A3 & A4 & A5 & A6)]. split; [reflexivity|].
  unfold affine_eq. rewrite A1, A2, A3, A4, A5, A6. repeat split; reflexivity.
Qed.

Lemma merge_perm (G : Grid) (ds ds' : list Dataset) (cells : list Cell)
      (n : nat) :
  (0 < g_rx G)%Q -> (0 < g_ry G)%Q ->
  cells_of G ds cells -> compatible cells ->
  (forall d, In d ds -> ds_count d = n) ->
  Permutation ds ds' ->
  same_mosaic (merge ds) (merge ds').
Proof.
  intros Hrx Hry Hc Hcomp Hn Hp.
  destruct (cells_of_perm G ds ds' Hp cells Hc) as (cells' & Hpc & Hc').
  destruct ds as [|first rest].
  - apply Permutation_nil in Hp. subst ds'. simpl. reflexivity.
  - destruct ds' as [|first' rest'];
      [apply Permutation_sym, Permutation_nil in Hp; discriminate|].
    destruct (merge_on_grid G Hrx Hry first rest cells Hc)
      as (tr & Hm & Hb & Hd & Hon).
    destruct (merge_on_grid G Hrx Hry first' rest' cells' Hc')
      as (tr' & Hm' & Hb' & Hd' & Hon').
    rewrite Hm, Hm'. cbn [same_mosaic].
    assert (Hne : cells <> []) by (inversion Hc; discriminate).
    rewrite (Hn first (or_introl eq_refl)).
    rewrite (Hn first') by (eapply Permutation_in;
                           [apply Permutation_sym; exact Hp|now left]).
    split; [now apply grid_mosaic_perm|].
    rewrite <- (col_lo_perm cells cells' Hpc Hne),
            <- (row_lo_perm cells cells' Hpc Hne) in Hon'.
    exact (on_grid_affine_eq G tr tr' _ _ Hon Hon' Hb Hd Hb' Hd').
Qed.

End MergeOrder.

Module MosaicProperties.

Import Mercantile Rasterio Planet PipelineNotions MergeNotions OrderNotions.
Import TileIndexFacts ArrayFacts GridMerge BatchCells Chunks BatchedMerge
       MergeOrder.
Local Open Scope Z_scope.

(** Two disjoint one-pixel rasters never disagree. *)
Lemma demo_cells_compatible :
  compatible [mkCell 0 0 (Demo.raster 0 0 1 1 5); mkCell 1 0 (Demo.raster 1 0 1 1 7)].
Proof.
  intros k1 k2 b J I H1 H2 N1 N2.
  assert (B : forall k, In k [mkCell 0 0 (Demo.raster 0 0 1 1 5);
                              mkCell 1 0 (Demo.raster 1 0 1 1 7)] ->
                        cell_sample k b J I <> 0 -> J = 0 /\ I = c_i k).
  { intros k Hk N.
    destruct (Z.eq_dec J 0) as [->|HJ].
    - split; [reflexivity|].
      destruct (Z.eq_dec I (c_i k)) as [->|HI]; [reflexivity|].
      exfalso. apply N. apply cell_sample_outside.
      destruct Hk as [<-|[<-|[]]]; simpl in *; lia.
    - exfalso. apply N. apply cell_sample_outside.
      destruct Hk as [<-|[<-|[]]]; simpl in *; lia. }
  destruct (B k1 H1 N1) as [_ E1]. destruct (B k2 H2 N2) as [_ E2].
  destruct H1 as [<-|[<-|[]]], H2 as [<-|[<-|[]]]; simpl in *;
    try reflexivity; lia.
Qed.

Lemma demo_cells_of :
  cells_of (mkGrid 0 0 1 1)
    [Demo.raster 0 0 1 1 5; Demo.raster 1 0 1 1 7]
    [mkCell 0 0 (Demo.raster 0 0 1 1 5); mkCell 1 0 (Demo.raster 1 0 1 1 7)].
Proof.
  repeat constructor.
Qed.

(** X17: on rasters that share a pixel grid, [merge] returns the grid
    mosaic: the array covers exactly the bounding box of the rasters,
    one pixel per grid point; a sample is that of the first raster, in
    input order, with a non-zero sample at the point, and 0 where there
    is none; the transform is unrotated, has the grid's pixel size and
    puts the array at the corner of the box. *)
Theorem merge_on_shared_grid (G : Grid) (first : Dataset)
        (rest : list Dataset) (cells : list Cell) :
  (0 < g_rx G)%Q -> (0 < g_ry G)%Q ->
  cells_of G (first :: rest) cells ->
  exists m tr,
    merge (first :: rest) = Ret (m, tr) /\
    nd_count m = ds_count first /\
    nd_height m = Z.to_nat (row_hi cells - row_lo cells) /\
    nd_width m = Z.to_nat (col_hi cells - col_lo cells) /\
    (forall b r c,
        (b < nd_count m)%nat -> (r < nd_height m)%nat -> (c < nd_width m)%nat ->
        get3 (nd_data m) b r c
        = first_nonzero cells b (row_lo cells + Z.of_nat r)
                        (col_lo cells + Z.of_nat c)) /\
    (af_b tr == 0)%Q /\ (af_d tr == 0)%Q /\
    on_grid G (mkDataset tr 0 0 []) (col_lo cells) (row_lo cells).
Proof.
  intros Hrx Hry Hc.
  destruct (merge_on_grid G Hrx Hry first rest cells Hc)
    as (tr & Hm & Hb & Hd & Hon).
  exists (grid_mosaic (ds_count first) cells), tr.
  split; [exact Hm|]. split; [reflexivity|]. split; [reflexivity|].
  split; [reflexivity|]. split; [|split; [exact Hb|split; [exact Hd|exact Hon]]].
  intros b r c Hb' Hr' Hc'. unfold grid_mosaic, mk_ndarray in *.
  cbn [nd_data nd_count nd_height nd_width] in *.
  now rewrite get3_tabulate3.
Qed.

Lemma merge_on_shared_grid_witness :
  exists m tr,
    merge [Demo.raster 0 0 1 1 5; Demo.raster 1 0 1 1 7] = Ret (m, tr) /\
    nd_height m = 1%nat /\ nd_width m = 2%nat.
Proof.
  destruct (merge_on_shared_grid (mkGrid 0 0 1 1) (Demo.raster 0 0 1 1 5)
              [Demo.raster 1 0 1 1 7] _ eq_refl eq_refl demo_cells_of)
    as (m & tr & Hm & _ & Hh & Hw & _).
  exists m, tr. split; [exact Hm|]. split; [exact Hh|exact Hw].
Defined.

(** X18: the order of the rasters does not matter to [merge] when they
    share a pixel grid and a band count and never disagree (wherever two
    of them both have a non-zero sample the samples are equal, as for
    rasters that do not overlap): any reordering of the input gives the
    same array and an equal transform. *)
Theorem merge_order_irrelevant (G : Grid) (ds ds' : list Dataset)
        (cells : list Cell) (n : nat) :
  (0 < g_rx G)%Q -> (0 < g_ry G)%Q ->
  cells_of G ds cells -> compatible cells ->
  (forall d, In d ds -> ds_count d = n) ->
  Permutation ds ds' ->
  same_mosaic (merge ds) (merge ds').
Proof. apply merge_perm. Qed.

Lemma merge_order_irrelevant_witness :
  same_mosaic (merge [Demo.raster 0 0 1 1 5; Demo.raster 1 0 1 1 7])
              (merge [Demo.raster 1 0 1 1 7; Demo.raster 0 0 1 1 5]).
Proof.
  apply (merge_order_irrelevant (mkGrid 0 0 1 1) _ _ _ 3%nat
           eq_refl eq_refl demo_cells_of demo_cells_compatible).
  - intros d [<-|[<-|[]]]; reflexivity.
  - apply perm_swap.
Defined.

(** X19: the mosaic of [merge_in_batches] does not depend on the order
    of its paths (the order in which the downloads happened to
    complete), for any batch size [>= 1]: on three-band rasters that
    share a pixel grid and never disagree, with a reliable scratch
    directory, two orderings of the same paths give the same array and
    an equal transform, or the same exception. *)
Theorem batched_merge_order_irrelevant (w : World) (paths paths' : list path)
        (bs : Z) (G : Grid) (st : St) (cells : list Cell) :
  1 <= bs -> (0 < g_rx G)%Q -> (0 < g_ry G)%Q ->
  (forall p d, In p paths -> fs st !! p = Some d ->
               (exists i j, on_grid G d i j) /\ ds_count d = 3%nat) ->
  (forall i, scratch_fault w i = None) ->
  cells_of G (opened (fs st) paths) cells -> compatible cells ->
  Permutation paths paths' ->
  same_mosaic (fst (merge_in_batches w paths bs st))
              (fst (merge_in_batches w paths' bs st)).
Proof.
  intros Hbs Hrx Hry Hgrid Hfault Hc Hcomp Hp.
  assert (Hgrid' : forall p d, In p paths' -> fs st !! p = Some d ->
                     (exists i j, on_grid G d i j) /\ ds_count d = 3%nat).
  { intros p d Hin. apply Hgrid.
    eapply Permutation_in; [apply Permutation_sym; exact Hp|exact Hin]. }
  destruct (merge_in_batches_grid w paths bs G (fs st) Hrx Hry Hgrid Hfault st
              eq_refl Hbs) as (r & s1 & E & H).
  destruct (merge_in_batches_grid w paths' bs G (fs st) Hrx Hry Hgrid' Hfault st
              eq_refl Hbs) as (r' & s1' & E' & H').
  rewrite E, E'. cbn [fst].
  eapply same_mosaic_trans; [exact H|].
  eapply same_mosaic_trans; [|apply same_mosaic_sym; exact H'].
  apply (merge_perm G _ _ cells 3%nat Hrx Hry Hc Hcomp).
  - intros d Hd. destruct (opened_In _ _ _ Hd) as (p & Hin & Hl).
    exact (proj2 (Hgrid p d Hin Hl)).
  - unfold opened. apply omap_Permutation. exact Hp.
Qed.

Lemma batched_merge_order_irrelevant_witness :
  let st := mkSt (<[TileFile 1 0 0 := Demo.raster 0 0 1 1 5]>
                  (<[TileFile 1 1 0 := Demo.raster 1 0 1 1 7]> ∅)) [] in
  same_mosaic
    (fst (merge_in_batches Demo.world [TileFile 1 0 0; TileFile 1 1 0] 1 st))
    (fst (merge_in_batches Demo.world [TileFile 1 1 0; TileFile 1 0 0] 1 st)).
Proof.
  intros st.
  apply (batched_merge_order_irrelevant Demo.world _ _ 1 (mkGrid 0 0 1 1) st
           [mkCell 0 0 (Demo.raster 0 0 1 1 5); mkCell 1 0 (Demo.raster 1 0 1 1 7)]).
  - lia.
  - reflexivity.
  - reflexivity.
  - intros p d Hin Hl. simpl in Hin.
    destruct Hin as [<-|[<-|[]]]; vm_compute in Hl; inversion Hl; subst d;
      clear Hl; (split; [|reflexivity]).
    + exists 0, 0. unfold on_grid. simpl. repeat split; reflexivity.
    + exists 1, 0. unfold on_grid. simpl. repeat split; reflexivity.
  - intros i. reflexivity.
  - exact demo_cells_of.
  - exact demo_cells_compatible.
  - apply perm_swap.
Defined.

(** X20: the bounds [mercantile.bounds] gives to neighbouring tiles
    abut: a tile's east edge is the west edge of the tile in the next
    column, its south edge the north edge of the tile in the next row,
    and every tile of zoom [z] is [360 / 2^z] degrees wide; so the
    rasters written for neighbouring tiles neither overlap nor leave a
    gap. *)
Theorem tile_bounds_abut (lat_deg : Q -> Q) (x y z : Z) :
  (forall p q : Q, p == q -> lat_deg p == lat_deg q)%Q ->
  0 <= z ->
  (east (bounds lat_deg (mkTile x y z))
   == west (bounds lat_deg (mkTile (x + 1) y z)))%Q /\
  (south (bounds lat_deg (mkTile x y z))
   == north (bounds lat_deg (mkTile x (y + 1) z)))%Q /\
  (east (bounds lat_deg (mkTile x y z)) - west (bounds lat_deg (mkTile x y z))
   == 360 / inject_Z (2 ^ z))%Q.
Proof.
  intros Hext Hz. unfold bounds. cbn [east west south north tx ty tz].
  pose proof (Z2_ge_1 z Hz) as H1.
  assert (Hne : ~ (Z2 z == 0)%Q).
  { intros E. rewrite E in H1. revert H1. apply Qlt_not_le. reflexivity. }
  split; [|split].
  - rewrite inject_Z_plus. reflexivity.
  - apply Hext. rewrite inject_Z_plus. reflexivity.
  - rewrite <- (Z2_int z Hz). field. exact Hne.
Qed.

Lemma tile_bounds_abut_witness :
  (east (bounds (fun u => 180 * u)%Q (mkTile 3 2 4))
   == west (bounds (fun u => 180 * u)%Q (mkTile 4 2 4)))%Q.
Proof.
  refine (proj1 (tile_bounds_abut (fun u => 180 * u)%Q 3 2 4 _ _)).
  - intros p q E. now rewrite E.
  - lia.
Defined.

End MosaicProperties.

Module FetchProperties.

Import Mercantile Rasterio Planet Notions PipelineNotions.
Import TileIndexFacts FetchClaims PipelineFacts RoundingFacts.
Local Open Scope Z_scope.

(** X21: no fetch overwrites another tile's file: after all the
    tiles have been submitted, the file of every tile whose fetch
    succeeded holds that tile's raster, whatever the other fetches
    did and however many tiles there are. *)
Theorem submit_all_keeps_every_tile (w : World) (url : string)
        (ts : list Tile) (st : St) (t : Tile) (p : path) (d : Dataset) :
  In t ts -> fetch_outcome w t url = Ret (p, d) ->
  fs (snd (submit_all w ts url st)) !! p = Some d.
Proof.
  intros Hin Ht. rewrite submit_all_spec. cbn [snd fs].
  apply stored_tiles_lookup.
  - right. exists t. split; assumption.
  - intros t' d' Hin' Ht'.
    pose proof (fetch_path _ _ _ _ _ Ht) as E.
    pose proof (fetch_path _ _ _ _ _ Ht') as E'.
    rewrite E in E'. inversion E' as [[Hz Hx Hy]].
    assert (t' = t) by (destruct t, t'; simpl in *; congruence).
    subst t'. rewrite Ht in Ht'. now inversion Ht'.
Qed.

Lemma submit_all_keeps_every_tile_witness :
  exists d,
    fs (snd (submit_all Demo.world
               [mkTile 0 0 1; mkTile 0 1 1; mkTile 1 0 1; mkTile 1 1 1] "u"
               Demo.st0)) !! TileFile 1 0 1 = Some d.
Proof.
  eexists.
  apply (submit_all_keeps_every_tile Demo.world "u" _ Demo.st0 (mkTile 0 1 1)).
  - right. left. reflexivity.
  - vm_compute. reflexivity.
Defined.

End FetchProperties.

Module QuietMerge.

Import Mercantile Rasterio Planet Notions PipelineNotions.
Import FetchClaims PipelineFacts PipelineClaims FetchProperties.
Local Open Scope Z_scope.

Lemma open_log_present (files : gmap path Dataset) (batch : list path) :
  (forall p, In p batch -> files !! p <> None) -> open_log files batch = [].
Proof.
  induction batch as [|p batch IH]; intros H; [reflexivity|].
  unfold open_log in *. cbn [flat_map].
  destruct (files !! p) eqn:E; [|now elim (H p (or_introl eq_refl))].
  apply IH. intros q Hq. apply H. now right.
Qed.

Lemma batch_step_quiet (w : World) (paths : list path) (bs : Z)
      (acc : Scratch) (i : Z) (st : St) :
  (forall p, In p paths -> fs st !! p <> None) ->
  snd (batch_step w paths bs acc i st) = st.
Proof.
  intros H. unfold batch_step, bind. rewrite open_batch_spec.
  rewrite open_log_present
    by (intros p Hp; apply H; eapply slice_In; exact Hp).
  rewrite app_nil_r.
  destruct (opened (fs st) (slice paths i bs)) as [|d ds].
  - now destruct st.
  - unfold lift. destruct (merge (d :: ds)) as [mt|e]; [|now destruct st].
    destruct (gtiff_of (fst mt) (snd mt)) as [g|e]; [|now destruct st].
    destruct (scratch_fault w i); now destruct st.
Qed.

Lemma batch_loop_quiet (w : World) (paths : list path) (bs : Z)
      (starts : list Z) (acc : Scratch) (st : St) :
  (forall p, In p paths -> fs st !! p <> None) ->
  snd (batch_loop w paths bs acc starts st) = st.
Proof.
  intros H. revert acc. induction starts as [|i starts IH]; intros acc.
  - reflexivity.
  - cbn [batch_loop]. unfold bind.
    pose proof (batch_step_quiet w paths bs acc i st H) as Hs.
    destruct (batch_step w paths bs acc i st) as [[acc'|e] st1];
      cbn [snd] in Hs; subst st1; [apply IH|reflexivity].
Qed.

(** When every path exists [merge_in_batches] prints nothing but
    "Merging final batches...". *)
Lemma merge_in_batches_quiet (w : World) (paths : list path) (bs : Z) (st : St) :
  (forall p, In p paths -> fs st !! p <> None) ->
  snd (merge_in_batches w paths bs st) = st \/
  snd (merge_in_batches w paths bs st) = say st MergingFinalBatches.
Proof.
  intros H. unfold merge_in_batches, bind, lift.
  destruct (range_step _ bs) as [starts|e]; [|now left].
  pose proof (batch_loop_quiet w paths bs starts ([], ∅) st H) as Hl.
  destruct (batch_loop w paths bs ([], ∅) starts st) as [[acc|e] st1];
    cbn [snd] in Hl; subst st1; [|now left].
  right. unfold print. cbn [fst snd].
  destruct (open_all (snd acc) (fst acc)); reflexivity.
Qed.

Lemma collected_stored (w : World) (url : string) (ts : list Tile)
      (files : gmap path Dataset) (p : path) :
  (forall l, Permutation (as_completed w l) l) ->
  In p (collect_paths w (map (fetched w url) ts)) ->
  stored_tiles w url ts files !! p <> None.
Proof.
  intros Hperm Hin. unfold collect_paths in Hin.
  assert (Hin' : In p (omap id (map (fetched w url) ts))).
  { eapply Permutation_in; [|exact Hin]. apply omap_Permutation, Hperm. }
  rewrite omap_id_map in Hin'.
  assert (Ht : exists t, In t ts /\ fetched w url t = Some p).
  { clear Hin. induction ts as [|t ts IH]; [destruct Hin'|].
    cbn [omap list_omap] in Hin'.
    destruct (fetched w url t) as [q|] eqn:E.
    - destruct Hin' as [<-|Hin'].
      + exists t. split; [now left|exact E].
      + destruct (IH Hin') as (t' & Ht' & E'). exists t'. split; [now right|exact E'].
    - destruct (IH Hin') as (t' & Ht' & E'). exists t'. split; [now right|exact E']. }
  destruct Ht as (t & Hts & Hf). unfold fetched in Hf.
  destruct (fetch_outcome w t url) as [[q d]|e] eqn:E; [|discriminate].
  cbn [fst] in Hf. inversion Hf; subst q.
  rewrite (stored_tiles_lookup w url ts p d files); [discriminate| |].
  - right. exists t. split; assumption.
  - intros t' d' Hin'' Ht'.
    pose proof (fetch_path _ _ _ _ _ E) as P.
    pose proof (fetch_path _ _ _ _ _ Ht') as P'.
    rewrite P in P'. inversion P' as [[Hz Hx Hy]].
    assert (t' = t) by (destruct t, t'; simpl in *; congruence).
    subst t'. rewrite E in Ht'. now inversion Ht'.
Qed.

(** X23: in a run of [main] every path handed to the merge opens: the
    files of the fetched tiles are all in the temporary directory when
    [merge_in_batches] starts, so no "Error opening" line is ever
    printed, whatever the server, the decoder and the disk do and in
    whatever order the downloads complete. *)
Theorem main_opens_every_tile (w : World) (args : Args) (st : St) :
  (forall l, Permutation (as_completed w l) l) ->
  (forall p e, ~ In (ErrorOpening p e) (stdout st)) ->
  forall p e, ~ In (ErrorOpening p e) (stdout (snd (main w args st))).
Proof.
  intros Hperm Hst p e.
  destruct (total_bounds args) as [[[b0 b1] b2] b3] eqn:Hb.
  pose proof (main_spec w args st b0 b1 b2 b3 Hb) as Hmain.
  cbv zeta in Hmain. rewrite Hmain. clear Hmain.
  set (ts := tiles (merc_y w) b0 b1 b2 b3 (zoom args)).
  set (url := TMS_URL args).
  set (st1 := mkSt (stored_tiles w url ts (fs st))
                   (stdout st ++ TotalTiles (length ts) :: failure_log w url ts)).
  assert (H1 : ~ In (ErrorOpening p e) (stdout st1)).
  { unfold st1. cbn [stdout]. intros H. apply in_app_or in H.
    destruct H as [H|[H|H]]; [exact (Hst p e H)|discriminate H|].
    unfold failure_log in H. apply in_flat_map in H.
    destruct H as (t & _ & H).
    destruct (fetch_outcome w t url); [destruct H|].
    destruct H as [H|[]]. discriminate H. }
  assert (Hsay : forall s m, ~ In (ErrorOpening p e) (stdout s) ->
                             m <> ErrorOpening p e ->
                             ~ In (ErrorOpening p e) (stdout (cleanup (say s m)))).
  { intros s m Hs Hm H. rewrite cleanup_say_stdout in H.
    apply in_app_or in H. destruct H as [H|[H|[]]]; [exact (Hs H)|exact (Hm H)]. }
  destruct (collect_paths w (map (fetched w url) ts)) as [|q qs] eqn:Hpaths.
  - cbn [snd]. apply Hsay; [exact H1|discriminate].
  - assert (Hex : forall x, In x (q :: qs) ->
                            fs (say st1 MergingTiles) !! x <> None).
    { intros x Hx. cbn [say fs]. unfold st1. cbn [fs].
      apply collected_stored; [exact Hperm|]. fold ts url. rewrite Hpaths. exact Hx. }
    assert (H2 : ~ In (ErrorOpening p e) (stdout (say st1 MergingTiles))).
    { cbn [say stdout]. intros H. apply in_app_or in H.
      destruct H as [H|[H|[]]]; [exact (H1 H)|discriminate H]. }
    assert (H3 : ~ In (ErrorOpening p e)
                   (stdout (snd (merge_in_batches w (q :: qs) 500
                                   (say st1 MergingTiles))))).
    { destruct (merge_in_batches_quiet w (q :: qs) 500 _ Hex) as [E|E];
        rewrite E; [exact H2|].
      cbn [say stdout]. cbn [say stdout] in H2. intros H.
      apply in_app_or in H. destruct H as [H|[H|[]]]; [exact (H2 H)|discriminate H]. }
    destruct (merge_in_batches w (q :: qs) 500 (say st1 MergingTiles))
      as [[mt|x] st3]; cbn [snd] in H3.
    + destruct (gtiff_of (fst mt) (snd mt)) as [d|x].
      * destruct (write_fault w (OUTPUT_GEOTIFF args)) as [x|].
        -- cbn [snd]. apply Hsay; [exact H3|discriminate].
        -- cbn [snd]. apply Hsay; [exact H3|discriminate].
      * cbn [snd]. apply Hsay; [exact H3|discriminate].
    + cbn [snd]. apply Hsay; [exact H3|discriminate].
Qed.

Lemma main_opens_every_tile_witness :
  ~ In (ErrorOpening (TileFile 1 0 0)
                     (RasterioIOError "No such file or directory"))
       (stdout (snd (main Demo.world Demo.args Demo.st0))).
Proof.
  apply (main_opens_every_tile Demo.world Demo.args Demo.st0).
  - intros l. simpl. apply Permutation_sym, Permutation_rev.
  - intros p e H. destruct H.
Defined.

End QuietMerge.

Module CornerProperties.

Import Mercantile.
Import TileIndexFacts RoundingFacts.
Local Open Scope Q_scope.

(** The index of a coordinate that is exactly the grid line [k]. *)
Lemma tile_index_grid (t : Q) (k z : Z) :
  (0 <= z)%Z -> (2 ^ z < 10 ^ 14)%Z -> (0 <= k < 2 ^ z)%Z ->
  t == inject_Z k / Z2 z ->
  tile_index t z = k.
Proof.
  intros Hz Hsmall [Hk0 Hk1] Ht.
  pose proof (Z2_ge_1 z Hz) as H1.
  pose proof (Z2_int z Hz) as H2.
  assert (HP : Z2 z < inject_Z (10 ^ 14)).
  { rewrite H2. rewrite <- Zlt_Qlt. exact Hsmall. }
  assert (Hne : ~ Z2 z == 0) by (intros E; rewrite E in H1; revert H1;
                                 apply Qlt_not_le; reflexivity).
  assert (Htp : t * Z2 z == inject_Z k) by (rewrite Ht; field; exact Hne).
  assert (Hkq : inject_Z k < Z2 z) by (rewrite H2; rewrite <- Zlt_Qlt; exact Hk1).
  unfold tile_index.
  destruct (Z.eq_dec k 0%Z) as [->|Hpos].
  - assert (E : t == 0) by (rewrite Ht; unfold Qdiv; ring).
    destruct (Qle_bool t 0) eqn:B; [reflexivity|].
    exfalso. assert (Qle_bool t 0 = true) by (apply Qle_bool_iff; rewrite E; apply Qle_refl).
    congruence.
  - assert (Hk : 0 < inject_Z k).
    { change 0 with (inject_Z 0). rewrite <- Zlt_Qlt. lia. }
    assert (Ht0 : 0 < t).
    { destruct (Qlt_le_dec 0 t) as [?|Hle]; [assumption|]. exfalso.
      assert (t * Z2 z <= 0) by nra. rewrite Htp in H. lra. }
    assert (Ht1 : t < 1).
    { destruct (Qlt_le_dec t 1) as [?|Hge]; [assumption|]. exfalso.
      assert (Z2 z <= t * Z2 z) by nra. rewrite Htp in H. lra. }
    destruct (Qle_bool t 0) eqn:B0; [apply Qle_bool_iff in B0; lra|].
    destruct (Qle_bool 1 t) eqn:B1; [apply Qle_bool_iff in B1; lra|].
    apply Qfloor_unique.
    + assert (E : (t + EPSILON) * Z2 z == inject_Z k + EPSILON * Z2 z)
        by (rewrite <- Htp; ring).
      rewrite E. unfold EPSILON. lra.
    + assert (E : (t + EPSILON) * Z2 z == inject_Z k + EPSILON * Z2 z)
        by (rewrite <- Htp; ring).
      rewrite E, inject_Z_plus. unfold EPSILON.
      change (inject_Z (10 ^ 14)) with (100000000000000 # 1) in HP.
      change (inject_Z 1) with 1. lra.
Qed.

(** X22: [mercantile.tile] inverts [mercantile.bounds] at the
    upper-left corner: for a projection pair that are inverse to each
    other, every tile of a zoom level up to 46 with its column and row
    in range is the tile of the north-west corner of its own bounds. *)
Theorem tile_of_upper_left (merc_y lat_deg : Q -> Q) (x y z : Z) :
  (forall u, merc_y (lat_deg u) == (1 - u) / 2) ->
  (0 <= z)%Z -> (2 ^ z < 10 ^ 14)%Z ->
  (0 <= x < 2 ^ z)%Z -> (0 <= y < 2 ^ z)%Z ->
  tile merc_y (west (bounds lat_deg (mkTile x y z)))
       (north (bounds lat_deg (mkTile x y z))) z
  = mkTile x y z.
Proof.
  intros Hinv Hz Hsmall Hx Hy.
  pose proof (Z2_ge_1 z Hz) as H1.
  assert (Hne : ~ Z2 z == 0) by (intros E; rewrite E in H1; revert H1;
                                 apply Qlt_not_le; reflexivity).
  unfold tile, _xy, bounds. cbn [west north tx ty tz].
  f_equal.
  - apply tile_index_grid; try assumption. field. exact Hne.
  - apply tile_index_grid; try assumption. rewrite Hinv. field. exact Hne.
Qed.

Lemma tile_of_upper_left_witness :
  tile merc_y_linear
       (west (bounds (fun u => 180 * u) (mkTile 3 2 4)))
       (north (bounds (fun u => 180 * u) (mkTile 3 2 4))) 4
  = mkTile 3 2 4.
Proof.
  apply (tile_of_upper_left merc_y_linear (fun u => 180 * u) 3 2 4).
  - intros u. unfold merc_y_linear. field.
  - lia.
  - reflexivity.
  - lia.
  - lia.
Defined.

End CornerProperties.
